(** * gl-gpgpu: draw-pass planning, state set-up, macro generation and stepping

    A shallow embedding of the parts of [@epok.tech/gl-gpgpu] that its
    specification talks about, with the properties proved about them:

    - [Const]    the defaults of [const.js];
    - [FnLists]  the list helpers of [@epok.tech/fn-lists] as the code uses
                 them ([reduce], [map], [each], [range]);
    - [Macros]   [macros.js]: the hooks, the [GLSL] list declarations, the
                 four macro generators and their shared [cache];
    - [State]    [state.js]: [getState], the textures and passes it creates;
    - [Step]     [step.js]: the step function [run] made by [getStep];
    - [Main]     [index.js]: how [gpgpu] chooses the attachments limit;
    - [Maps]     the planner [maps.js], whose source is not at hand;
    - [Shaders]  [step.js]: the shaders that [getStep] pre-processes, and
                 the hooks of its command;
    - [Merged]   [step.js]: the update of the merged texture.

    Numbers are [nat] where the code only counts, [Z] where it subtracts,
    and [option] where a [JS] value may be [undefined]. *)

From stdpp Require Import gmap strings list pretty.
From Stdlib Require Import Ascii ZArith Lia.

Set Warnings "-register-all".


(** ** Defaults: [const.js] *)

Module Const.

(** Prefix namespace to avoid naming clashes. *)
Definition preDef : string := "gpgpu_".

(** Default minimum allowable channels for [framebuffer] attachments. *)
Definition channelsMinDef : nat := 4.

(** Default maximum allowable channels for [framebuffer] attachments. *)
Definition channelsMaxDef : nat := 4.

(** Default maximum [texture]s bound per pass. *)
Definition buffersMaxDef : nat := 1.

(** Default how many steps are bound as outputs, unavailable as input. *)
Definition boundDef : nat := 1.

(** Default number steps of state to track. *)
Definition stepsDef : nat := 2.

(** Default values to track. *)
Definition valuesDef : list nat := [channelsMaxDef].

(** Whether states merge into one [texture]. *)
Definition mergeDef : bool := true.

End Const.

(** ** The list helpers of [@epok.tech/fn-lists]

  The library is a dependency, not part of the repository; these are its
  functions as the repository calls them.  [reduce f list init] folds from
  the left and hands [f] the index of each entry; [map f list out] writes
  [f v i] at index [i] of [out] for each entry and returns [out]; [each]
  calls [f] on each entry in order; [range n] is a list of [n] entries,
  none of them set. *)

Module FnLists.

Section Reduce.
Context {A B : Type}.
Variable f : B → A → nat → B.

Fixpoint reduceFrom (i : nat) (xs : list A) (acc : B) : B :=
  match xs with
  | [] => acc
  | v :: rest => reduceFrom (S i) rest (f acc v i)
  end.

Definition reduce (xs : list A) (init : B) : B := reduceFrom 0 xs init.
End Reduce.

(** [map f list] into a new list: entry [i] is [f v i]. *)
Definition map {A B : Type} (f : A → nat → B) (xs : list A) : list B :=
  reduce (λ out v i, out ++ [f v i]) xs [].

(** [range n]: [n] entries that are all [undefined]. *)
Definition range {A : Type} (n : nat) : list (option A) := replicate n None.

End FnLists.

(** ** Macro generation: [macros.js] *)

Module Macros.

(** A new line, and the escaped carriage-return [cr] of the source: a space,
  a backslash and a new line. *)
Definition nl : string := String "010"%char "".
Definition cr : string := String " "%char (String "092"%char nl).

(** The channels denoted for texture input/output. *)
Definition rgba : string := "rgba".

(** [String.prototype.slice] between two indexes; an index that is not a
  number (a sum with an [undefined] value) is read as no number at all, and
  the slice is then empty. *)
Definition slice (s : string) (i j : option nat) : string :=
  match i, j with
  | Some a, Some b => String.substring a (b - a) s
  | _, _ => ""
  end.

(** [JSON.stringify] of the lists that make the cache keys. *)
Definition idList {A : Type} (item : A → string) (l : list A) : string :=
  "[" +:+ String.concat "," (item <$> l) +:+ "]".

Definition idNats : list nat → string := idList pretty.
Definition idNested : list (list nat) → string := idList idNats.

(** A value that may be [undefined], inside a template string. *)
Definition orUndefined {A : Type} (show : A → string) (o : option A) : string :=
  match o with
  | Some a => show a
  | None => "undefined"
  end.

(** *** Hooks

  The [state.macros] setting: nothing, [null] or [true]; a false-y value; a
  string; a function, here its result for a hook key and specifier, [None]
  being [null], and taken to be the same at each call; an object, here the
  lookup of its keys; any other value.  The lookup of an object gives nothing
  for a key that is not [in] it, and the setting held under a key that is;
  a setting held under a key is one of these, [null] or [true] for the first:
  a key that holds [undefined] is not among the objects that this type
  describes. *)
Inductive Hook : Type :=
  | HookDefault
  | HookFalsy
  | HookString (s : string)
  | HookFunction (f : string → string → option string)
  | HookObject (get : string → option Hook)
  | HookOther.

(** [hasMacros] with no specifier [on]. *)
Fixpoint hasMacrosKey (key : string) (macros : Hook) : option string :=
  match macros with
  | HookDefault => None
  | HookFalsy => Some ""
  | HookFunction f => f key ""
  | HookString s => Some s
  | HookObject get =>
      match get key with
      | Some inner => hasMacrosKey key inner
      | None => None
      end
  | HookOther => None
  end.

(** [hasMacros(props, key, on, macros)]: [None] is [null], macros are to be
  handled here; otherwise the result of the hook. *)
Fixpoint hasMacros (key on : string) (macros : Hook) : option string :=
  match macros with
  | HookDefault => None
  | HookFalsy => Some ""
  | HookFunction f => f key on
  | HookString s => Some s
  | HookObject get =>
      match get key with
      | Some inner => hasMacros key on inner
      | None =>
          if decide (on = "") then None
          else hasMacrosKey ((if decide (key = "") then "" else key +:+ "_") +:+ on)
                 macros
      end
  | HookOther => None
  end.

(** Keys for each part of the macro handling process available to hooks. *)
Module hooks.
Definition macroPass : string := "".
Definition macroValues : string := "values".
Definition macroOutput : string := "output".
Definition macroSamples : string := "samples".
Definition macroTaps : string := "taps".
End hooks.

(** *** [GLSL] lists *)

(** An entry of a list to declare: a number, a vector of numbers (joined by
  a comma and a space), or an expression given as text. *)
Inductive Entry : Type :=
  | Num (n : nat)
  | Vec (v : list nat)
  | Expr (e : string).

Definition showEntry (v : Entry) : string :=
  match v with
  | Num n => pretty n
  | Vec l => String.concat ", " (pretty <$> l)
  | Expr e => e
  end.

(** [qualify && qualify+' '] *)
Definition qualifier (qualify : string) : string :=
  if decide (qualify = "") then "" else qualify +:+ " ".

Definition getGLSLListBase (type name : string) (a : list Entry)
    (qualify init : string) : string :=
  "const int " +:+ name +:+ "_l = " +:+ pretty (length a) +:+ ";" +:+
  FnLists.reduce (λ s v i,
      s +:+ cr +:+ qualifier qualify +:+ type +:+
        " " +:+ name +:+ "_" +:+ pretty i +:+ " = " +:+ init +:+
        "(" +:+ showEntry v +:+ ");")
    a "".

Definition getGLSL1ListLike (type name : string) (a : list Entry)
    (qualify init : string) : string :=
  getGLSLListBase type name a qualify init +:+ nl +:+
  "// Index macro `" +:+ name +:+ "_i` (e.g: `" +:+ name +:+
    "_i(0)`) may be slow, " +:+
    "use name (e.g: `" +:+ name +:+ "_0`) if possible." +:+ nl +:+
  "#define " +:+ name +:+ "_i(i) " +:+
    FnLists.reduce (λ s (_ : Entry) i,
        match i with
        | 0 => name +:+ "_" +:+ pretty i
        | S _ => "((i == " +:+ pretty i +:+ ")? " +:+ name +:+ "_" +:+
                   pretty i +:+ " : " +:+ s +:+ ")"
        end)
      a "" +:+ nl.

Definition getGLSL1ListArray (type name : string) (a : list Entry)
    (qualify init : string) : string :=
  getGLSLListBase type name a qualify init +:+ cr +:+
  qualifier qualify +:+ type +:+ " " +:+ name +:+ "[" +:+ name +:+ "_l];" +:+
  FnLists.reduce (λ s (_ : Entry) i,
      s +:+ cr +:+ name +:+ "[" +:+ pretty i +:+ "] = " +:+ name +:+ "_" +:+
        pretty i +:+ ";")
    a "" +:+ nl +:+
  "#define " +:+ name +:+ "_i(i) " +:+ name +:+ "[i]" +:+ nl.

Definition getGLSL3List (type name : string) (a : list Entry)
    (qualify init : string) : string :=
  getGLSLListBase type name a qualify init +:+ cr +:+
  qualifier qualify +:+ type +:+ " " +:+ name +:+ "[" +:+ name +:+ "_l] = " +:+
    init +:+ "[" +:+ name +:+ "_l](" +:+
    FnLists.reduce (λ s (_ : Entry) i,
        (if decide (s = "") then "" else s +:+ ", ") +:+ name +:+ "_" +:+
          pretty i)
      a "" +:+ ");" +:+ nl +:+
  "#define " +:+ name +:+ "_i(i) " +:+ name +:+ "[i]" +:+ nl.

(** [String.prototype.trim], for the white space of [ASCII]. *)
Fixpoint trimStart (s : string) : string :=
  match s with
  | String c rest => if Ascii.is_space c then trimStart rest else s
  | "" => ""
  end.

Definition trim (s : string) : string :=
  String.rev (trimStart (String.rev (trimStart s))).

(** [glsl >= 3], false for a version that is not given. *)
Definition isGLSL3 (glsl : option nat) : bool :=
  match glsl with
  | Some v => bool_decide (3 <= v)
  | None => false
  end.

(** [getGLSLList]: its [glsl] defaults to 1 and its [init] to the [type]. *)
Definition getGLSLList (type name : string) (a : list Entry)
    (qualify : string) (glsl : option nat) : string :=
  (if isGLSL3 glsl then getGLSL3List
   else if decide (trim qualify = "const") then getGLSL1ListLike
   else getGLSL1ListArray)
    type name a qualify type.

(** *** The state the macros read

  [maps] holds how values are grouped per texture per pass: the [values]
  (channels of each), the [textures] (values of each), the [passes] (textures
  of each), and, when given, per pass the [samples] as [(step, texture)] and
  the [reads] of each value as indexes of samples.  The [samples] or the
  [reads] that a pass has none of ([undefined], a hole) are [None]; each
  sample of a list is a pair. *)

(** An entry of the reads of a pass, for a value: left out of the list (a
  hole); set, but to no list ([undefined] or [null]); or the list of the
  samples that the value reads. *)
Inductive Reads : Type :=
  | ReadsHole
  | ReadsNull
  | ReadsOf (r : list nat).

Record Maps : Type := {
  values : list nat;
  textures : list (list nat);
  passes : list (list nat);
  samples : option (list (option (list (nat * nat))));
  reads : option (list (option (list Reads)))
}.

(** [steps] is the number of steps, [steps.length ?? steps]; [count] is
  [size?.count]; [merge] is whether [state.merge] is truthy. *)
Record State : Type := {
  macros : Hook;
  pre : option string;
  bound : option nat;
  steps : nat;
  count : option nat;
  passNow : option nat;
  glsl : option nat;
  merge : bool;
  maps : Maps
}.

(** *** The cache

  The [cache] object: the macros kept by key, and the list [cache.tapsSamples]
  that [macroTaps] reuses between calls.  That list is cut to the number of
  samples of the pass and each of its entries written again before it is
  read, so only what it holds after a call is kept here. *)
Record Cache : Type := {
  entries : gmap string string;
  tapsSamples : option (list Entry)
}.

Definition cacheEmpty : Cache := {| entries := ∅; tapsSamples := None |}.

(** The result of a macro function: the text, or [None] where the source
  throws (a list to reduce, or to take the length of, that is [undefined]
  or [null]). *)
Definition Result : Type := option string * Cache.

(** [cache[c] ??= value]: a value kept under [c] is returned as it is;
  otherwise the new value is kept and returned. *)
Definition cached (c : string) (value : option string) (k : Cache) : Result :=
  match entries k !! c with
  | Some kept => (Some kept, k)
  | None =>
      match value with
      | Some v =>
          (Some v, {| entries := <[c := v]> (entries k);
                      tapsSamples := tapsSamples k |})
      | None => (None, k)
      end
  end.

(** [pre: n = preDef] *)
Definition prefix (state : State) : string := default Const.preDef (pre state).

(** [bound = boundDef] *)
Definition boundOf (state : State) : nat := default Const.boundDef (bound state).

(** [i += values[v]] *)
Definition channelsEnd (values : list nat) (i : option nat) (v : nat) : option nat :=
  a ← i; w ← values !! v; Some (a + w).

(** *** [macroValues] *)

(** The macros of one value [v] of the texture [t], with the channels taken
  so far in the texture, [i]. *)
Definition valueMacros (n : string) (values : list nat) (t : nat)
    (acc : string * option nat) (v : nat) : string * option nat :=
  let '(s, i) := acc in
  let j := channelsEnd values i v in
  (s +:+ "#define " +:+ n +:+ "texture_" +:+ pretty v +:+ " " +:+ pretty t +:+ nl +:+
     "#define " +:+ n +:+ "channels_" +:+ pretty v +:+ " " +:+ slice rgba i j +:+
     nl +:+ nl,
   j).

(** The macros of the texture [t], after the text [s]; [i] starts at 0. *)
Definition textureMacros (n : string) (values : list nat) (s : string)
    (texture : list nat) (t : nat) : string :=
  fst (FnLists.reduce (λ acc v _, valueMacros n values t acc v) texture (s, Some 0)).

(** [stepsL-bound] *)
Definition stepsPast (state : State) : Z :=
  (Z.of_nat (steps state) - Z.of_nat (boundOf state))%Z.

Definition macroValuesKey (state : State) : string :=
  hooks.macroValues +:+ ":" +:+ prefix state +:+ "," +:+ pretty (boundOf state) +:+
  "," +:+ idNats (values (maps state)) +:+ "," +:+ idNested (textures (maps state)) +:+
  "," +:+ pretty (steps state) +:+ "," +:+ pretty (length (passes (maps state))) +:+
  "," +:+ orUndefined pretty (count state).

Definition macroValuesText (state : State) : string :=
  let n := prefix state in
  FnLists.reduce (textureMacros n (values (maps state))) (textures (maps state)) "" +:+
  match count state with
  | Some (S c) => "#define count " +:+ pretty (S c) +:+ nl
  | _ => ""
  end +:+
  "#define " +:+ n +:+ "textures " +:+ pretty (length (textures (maps state))) +:+ nl +:+
  "#define " +:+ n +:+ "passes " +:+ pretty (length (passes (maps state))) +:+ nl +:+
  "#define " +:+ n +:+ "stepsPast " +:+ pretty (stepsPast state) +:+ nl +:+
  "#define " +:+ n +:+ "steps " +:+ pretty (steps state) +:+ nl +:+
  "#define " +:+ n +:+ "bound " +:+ pretty (boundOf state) +:+ nl +:+ nl.

Definition macroValues (state : State) (on : string) (k : Cache) : Result :=
  match hasMacros hooks.macroValues on (macros state) with
  | Some hook => (Some hook, k)
  | None => cached (macroValuesKey state) (Some (macroValuesText state)) k
  end.

(** *** [macroOutput] *)

(** The macros of one value [v] of the texture [texture], bound as the
  attachment [bound] of the pass. *)
Definition outputMacros (n : string) (values : list nat) (texture bound : nat)
    (acc : string * option nat) (v : nat) : string * option nat :=
  let '(s, i) := acc in
  let j := channelsEnd values i v in
  (s +:+ nl +:+
     "#define " +:+ n +:+ "bound_" +:+ pretty v +:+ " " +:+ pretty texture +:+ nl +:+
     "#define " +:+ n +:+ "attach_" +:+ pretty v +:+ " " +:+ pretty bound +:+ nl +:+
     "#define " +:+ n +:+ "output_" +:+ pretty v +:+ " gl_FragData[" +:+ n +:+
       "attach_" +:+ pretty v +:+ "]." +:+ slice rgba i j +:+ nl,
   j).

(** The macros of one texture of the pass; none where [textures[texture]] is
  [undefined]. *)
Definition attachMacros (n : string) (values : list nat)
    (textures : list (list nat)) (s : option string) (texture bound : nat)
    : option string :=
  s ← s; group ← textures !! texture;
  Some (fst (FnLists.reduce (λ acc v _, outputMacros n values texture bound acc v)
               group (s, Some 0))).

Definition macroOutputKey (state : State) : string :=
  hooks.macroOutput +:+ ":" +:+ prefix state +:+ "," +:+
  orUndefined pretty (passNow state) +:+ "," +:+ idNats (values (maps state)) +:+
  "," +:+ idNested (textures (maps state)) +:+ "," +:+ idNested (passes (maps state)).

Definition macroOutputText (state : State) : option string :=
  let n := prefix state in
  pass ← (p ← passNow state; passes (maps state) !! p);
  bound ← FnLists.reduce (attachMacros n (values (maps state)) (textures (maps state)))
             pass (Some "");
  Some ("#define " +:+ n +:+ "passNow " +:+ orUndefined pretty (passNow state) +:+ nl +:+
        bound +:+ nl).

Definition macroOutput (state : State) (on : string) (k : Cache) : Result :=
  match hasMacros hooks.macroOutput on (macros state) with
  | Some hook => (Some hook, k)
  | None => cached (macroOutputKey state) (macroOutputText state) k
  end.

(** *** [macroSamples] *)

(** [passNow: p = 0] *)
Definition passOf (state : State) : nat := default 0 (passNow state).

(** [samples?.[p]] and [reads?.[p]] *)
Definition passSamplesOf (state : State) : option (list (nat * nat)) :=
  all ← samples (maps state); mjoin (all !! passOf state).

Definition passReadsOf (state : State) : option (list Reads) :=
  all ← reads (maps state); mjoin (all !! passOf state).

Definition idSample (sample : nat * nat) : string := idNats [sample.1; sample.2].

(** [JSON.stringify] of an entry of the reads: an entry that is left out
  and one set to no list are both written as [null]. *)
Definition idReads (reads : Reads) : string :=
  match reads with
  | ReadsOf r => idNats r
  | ReadsHole | ReadsNull => "null"
  end.

Definition sampleEntry (sample : nat * nat) : Entry := Vec [sample.1; sample.2].

Definition macroSamplesKey (state : State) : string :=
  hooks.macroSamples +:+ ":" +:+ prefix state +:+ "," +:+ pretty (passOf state) +:+
  "," +:+ orUndefined (idList idSample) (passSamplesOf state) +:+
  "," +:+ orUndefined (idList idReads) (passReadsOf state) +:+
  "," +:+ orUndefined pretty (glsl state).

(** The reads of each value of the pass that has any, after the text [s]:
  [reduce] passes over the holes of the list, and calls back upon each entry
  that is set; for an entry set to no list there is no length to declare,
  and [getGLSLListBase] throws. *)
Definition readsMacros (n : string) (glsl : option nat) (s : option string)
    (reads : Reads) (v : nat) : option string :=
  match reads with
  | ReadsOf r =>
      s ← s;
      Some (s +:+ "#define " +:+ n +:+ "useReads_" +:+ pretty v +:+ cr +:+
            getGLSLList "int" (n +:+ "reads_" +:+ pretty v) (Num <$> r) "const" glsl +:+
            nl)
  | ReadsNull => None
  | ReadsHole => s
  end.

(** The text that [macroSamples] makes; none where it throws. *)
Definition macroSamplesText (state : State) : option string :=
  let n := prefix state in
  reads ← match passReadsOf state with
          | None => Some ""
          | Some passReads =>
              FnLists.reduce (readsMacros n (glsl state)) passReads (Some "")
          end;
  Some (match passSamplesOf state with
        | None => ""
        | Some passSamples =>
            "#define " +:+ n +:+ "useSamples" +:+ cr +:+
              getGLSLList "ivec2" (n +:+ "samples") (sampleEntry <$> passSamples)
                "const" (glsl state) +:+ nl
        end +:+ reads).

Definition macroSamples (state : State) (on : string) (k : Cache) : Result :=
  match hasMacros hooks.macroSamples on (macros state) with
  | Some hook => (Some hook, k)
  | None => cached (macroSamplesKey state) (macroSamplesText state) k
  end.

(** *** [macroTaps] *)

Section Taps.
Variable n : string.
Variable glsl : option nat.
Variable passSamples : list (nat * nat).

(** Which texture sampling function is available. *)
Definition texture : string := "texture" +:+ (if isGLSL3 glsl then "" else "2D").
(** Short and common names for functions and parameters. *)
Definition f : string := n +:+ "tapState".
Definition tap : string := "#define " +:+ f.
Definition by' : string := "stepBy, textureBy".
(** Aliases default names for brevity. *)
Definition aka : string := "#define " +:+ f +:+ "(uv)" +:+ cr +:+ f.
Definition akaBy : string := "#define " +:+ f +:+ "By(uv, " +:+ by' +:+ ")" +:+ cr +:+ f.
(** The current sample [i], as [[step, texture]]. *)
Definition st (i : nat) : string := n +:+ "samples_" +:+ pretty i.
(** Prefix for private temporary variables. *)
Definition t : string := "_" +:+ n.

(** The list of texture lookups, one for each sample of the pass, declared
  as the [data] list. *)
Definition tapsOf (lookup : nat → string) : list Entry :=
  FnLists.map (λ (_ : nat * nat) i, Expr (lookup i)) passSamples.

Definition dataList (taps : list Entry) : string :=
  getGLSLList "vec4" (n +:+ "data") taps "" glsl.

Definition useData : string :=
  "// Use `" +:+ n +:+ "data` list; ignore temporary `" +:+ t +:+ "` names." +:+ nl.

Definition shifted : string :=
  "// States may also be sampled by shifted step/texture." +:+ nl.

(** Separate un-merged textures accessed by constant index. *)
Definition tapsIndex : list Entry :=
  tapsOf (λ i,
    texture +:+ "(states[(int(" +:+ st i +:+ ".s)*" +:+ t +:+ "tlI)+int(" +:+
      st i +:+ ".t)], " +:+ t +:+ "uvI)").

Definition tapsIndexBy : list Entry :=
  tapsOf (λ i,
    texture +:+ "(states[" +:+
      "((int(" +:+ st i +:+ ".s)+" +:+ t +:+ "byIB.s)*" +:+ t +:+ "tlIB)+" +:+
      "int(" +:+ st i +:+ ".t)+" +:+ t +:+ "byIB.t" +:+
      "], " +:+ t +:+ "uvIB)").

Definition tapsTextIndex : string :=
  "// States in a `sampler2D[]`; looks up 1D index and 2D `uv`; " +:+ cr +:+
    "past steps go later in the list." +:+ nl +:+
  "// Pass constant array index values; `textures`." +:+ nl +:+
  useData +:+
  tap +:+ "s(uv, states, textures)" +:+ cr +:+
    "const int " +:+ t +:+ "tlI = int(textures);" +:+ cr +:+
    "vec2 " +:+ t +:+ "uvI = vec2(uv);" +:+ cr +:+
    dataList tapsIndex +:+ nl +:+
  shifted +:+
  "// Pass constant array index values; `textures, " +:+ by' +:+ "`." +:+ nl +:+
  useData +:+
  tap +:+ "sBy(uv, states, textures, " +:+ by' +:+ ")" +:+ cr +:+
    "const int " +:+ t +:+ "tlIB = int(textures);" +:+ cr +:+
    "ivec2 " +:+ t +:+ "byIB = ivec2(" +:+ by' +:+ ");" +:+ cr +:+
    "vec2 " +:+ t +:+ "uvIB = vec2(uv);" +:+ cr +:+
    dataList tapsIndexBy +:+ nl +:+
  "// Preferred aliases: index suits states array constant access." +:+ nl +:+
  aka +:+ "s(uv, " +:+ n +:+ "states, " +:+ n +:+ "textures)" +:+ nl +:+
  akaBy +:+ "sBy(uv, " +:+ n +:+ "states, " +:+ n +:+ "textures, " +:+ by' +:+ ")" +:+ nl.

(** Merged 2D texture. *)
Definition taps2 : list Entry :=
  tapsOf (λ i,
    texture +:+ "(states, " +:+
      "fract(" +:+ t +:+ "uv2+fract((vec2(" +:+ st i +:+ ").ts+" +:+ t +:+ "i2)*" +:+
      t +:+ "s2)))").

Definition taps2By : list Entry :=
  tapsOf (λ i,
    texture +:+ "(states, " +:+
      "fract(" +:+ t +:+ "uv2B+fract((vec2(" +:+ st i +:+ ").ts+" +:+ t +:+ "i2B)*" +:+
      t +:+ "s2B)))").

Definition tapsText2 : string :=
  "// States merged to a `sampler2D`, scales 2D `uv` over " +:+
    "`[textures, steps]`." +:+ nl +:+
  "// Step from now into the past going upwards in the texture." +:+ nl +:+
  useData +:+
  tap +:+ "2(uv, states, stepNow, steps, textures)" +:+ cr +:+
    "vec2 " +:+ t +:+ "l2 = vec2(textures, steps);" +:+ cr +:+
    "vec2 " +:+ t +:+ "uv2 = vec2(uv)/" +:+ t +:+ "l2;" +:+ cr +:+
    "vec2 " +:+ t +:+ "s2 = vec2(1, -1)/" +:+ t +:+ "l2;" +:+ cr +:+
    "vec2 " +:+ t +:+ "i2 = vec2(0, 1)-vec2(0, stepNow);" +:+ cr +:+
    dataList taps2 +:+ nl +:+
  shifted +:+
  useData +:+
  tap +:+ "2By(uv, states, stepNow, steps, textures, " +:+ by' +:+ ")" +:+ cr +:+
    "vec2 " +:+ t +:+ "l2B = vec2(textures, steps);" +:+ cr +:+
    "vec2 " +:+ t +:+ "uv2B = vec2(uv)/" +:+ t +:+ "l2B;" +:+ cr +:+
    "vec2 " +:+ t +:+ "s2B = vec2(1, -1)/" +:+ t +:+ "l2B;" +:+ cr +:+
    "vec2 " +:+ t +:+ "i2B = vec2(" +:+ by' +:+ ").ts+vec2(0, 1)-vec2(0, stepNow);" +:+ cr +:+
    dataList taps2By +:+ nl.

Definition tapsAlias2 : string :=
  "// Preferred aliases: 2D suits merged texture in GLSL < 1." +:+ nl +:+
  aka +:+ "2(uv, " +:+ n +:+ "states, " +:+ n +:+ "stepNow, " +:+ n +:+ "steps, " +:+
    n +:+ "textures)" +:+ nl +:+
  akaBy +:+ "2By(uv, " +:+ n +:+ "states, " +:+ n +:+ "stepNow, " +:+ n +:+ "steps, " +:+
    n +:+ "textures, " +:+ by' +:+ ")" +:+ nl.

(** Merged 3D texture types, supported from [GLSL3]. *)
Definition taps3 : list Entry :=
  tapsOf (λ i,
    texture +:+ "(states, fract(vec3(" +:+
      t +:+ "uv3.x+(float(" +:+ st i +:+ ".t)*" +:+ t +:+ "sx3), " +:+ t +:+ "uv3.y, " +:+
      "(float(" +:+ st i +:+ ".s)+" +:+ t +:+ "s3)*" +:+ t +:+ "sz3)))").

Definition taps3By : list Entry :=
  tapsOf (λ i,
    texture +:+ "(states, fract(vec3(" +:+
      t +:+ "uv3B.x+(float(" +:+ st i +:+ ".t)*" +:+ t +:+ "sx3B), " +:+ t +:+ "uv3B.y, " +:+
      "(float(" +:+ st i +:+ ".s)+" +:+ t +:+ "s3B)*" +:+ t +:+ "sz3B)))").

Definition tapsText3 : string :=
  "// States merged to `sampler3D` or `sampler2DArray`; 2D `uv` " +:+
    "to 3D; scales `x` over `textures`, `z` over `steps` as:" +:+ nl +:+
  "// - `sampler3D`: the number of steps; depth, `[0, 1]`." +:+ nl +:+
  "// - `sampler2DArray`: `1` or less; layer, `[0, steps-1]`." +:+ nl +:+
  useData +:+
  tap +:+ "3(uv, states, stepNow, steps, textures)" +:+ cr +:+
    "vec2 " +:+ t +:+ "l3 = vec2(textures, steps);" +:+ cr +:+
    "vec2 " +:+ t +:+ "uv3 = vec2(uv)/" +:+ t +:+ "l3;" +:+ cr +:+
    "float " +:+ t +:+ "sx3 = 1.0/" +:+ t +:+ "l3.x;" +:+ cr +:+
    "float " +:+ t +:+ "s3 = -float(stepNow);" +:+ cr +:+
    "float " +:+ t +:+ "sz3 = -1.0/" +:+ t +:+ "l3;" +:+ cr +:+
    dataList taps3 +:+ nl +:+
  shifted +:+
  useData +:+
  tap +:+ "3By(uv, states, stepNow, steps, textures, " +:+ by' +:+ ")" +:+ cr +:+
    "vec2 " +:+ t +:+ "l3B = vec2(textures, steps);" +:+ cr +:+
    "vec2 " +:+ t +:+ "uv3B = (vec2(uv)+vec2(textureBy, 0))/" +:+ t +:+ "l3B;" +:+ cr +:+
    "float " +:+ t +:+ "sx3B = 1.0/" +:+ t +:+ "l3B.x;" +:+ cr +:+
    "float " +:+ t +:+ "s3B = float(stepBy)-float(stepNow);" +:+ cr +:+
    "float " +:+ t +:+ "sz3B = -1.0/" +:+ t +:+ "l3B;" +:+ cr +:+
    dataList taps3By +:+ nl +:+
  "// Preferred aliases: 3D suits merged texture in `GLSL` 3+." +:+ nl +:+
  aka +:+ "3(uv, " +:+ n +:+ "states, " +:+ n +:+ "stepNow, " +:+ n +:+ "steps, " +:+
    n +:+ "textures)" +:+ nl +:+
  akaBy +:+ "3By(uv, " +:+ n +:+ "states, " +:+ n +:+ "stepNow, " +:+ n +:+ "steps, " +:+
    n +:+ "textures, " +:+ by' +:+ ")" +:+ nl.

(** The texture-sampling logic, for states kept apart ([index]) or merged. *)
Definition tapsText (index : bool) : string :=
  (if index then "" else "#define " +:+ n +:+ "mergedStates" +:+ nl +:+ nl) +:+
  match passSamples with
  | [] => ""
  | _ :: _ =>
      (if index then tapsTextIndex
       else tapsText2 +:+ (if isGLSL3 glsl then tapsText3 else tapsAlias2)) +:+ nl
  end.

(** What [cache.tapsSamples] holds after the text is made: the last list of
  lookups mapped into it. *)
Definition tapsKept (index : bool) : list Entry :=
  if index then tapsIndexBy else if isGLSL3 glsl then taps3By else taps2By.

End Taps.

Definition showBool (b : bool) : string := if b then "true" else "false".

Definition macroTapsKey (state : State) : string :=
  hooks.macroTaps +:+ ":" +:+ prefix state +:+ "," +:+ pretty (passOf state) +:+
  "," +:+ orUndefined (idList idSample) (passSamplesOf state) +:+
  "," +:+ showBool (negb (merge state)) +:+ "," +:+ orUndefined pretty (glsl state).

Definition macroTaps (state : State) (on : string) (k : Cache) : Result :=
  match hasMacros hooks.macroTaps on (macros state) with
  | Some hook => (Some hook, k)
  | None =>
      let c := macroTapsKey state in
      match entries k !! c with
      | Some kept => (Some kept, k)
      | None =>
          let passSamples := default [] (passSamplesOf state) in
          let index := negb (merge state) in
          let text := tapsText (prefix state) (glsl state) passSamples index in
          (Some text,
           {| entries := <[c := text]> (entries k);
              tapsSamples :=
                Some (tapsKept (prefix state) (glsl state) passSamples index) |})
      end
  end.

(** *** [macroPass] *)

(** One macro text after another, each with the cache the one before left;
  where one throws, those after it are not made. *)
Definition andThen (first : Result) (next : Cache → Result) : Result :=
  match first with
  | (Some a, k) =>
      match next k with
      | (Some b, k') => (Some (a +:+ b), k')
      | (None, k') => (None, k')
      end
  | (None, k) => (None, k)
  end.

Definition macroPass (state : State) (on : string) (k : Cache) : Result :=
  match hasMacros hooks.macroPass on (macros state) with
  | Some hook => (Some hook, k)
  | None =>
      andThen (andThen (andThen (macroValues state "" k) (macroOutput state ""))
                 (macroSamples state "")) (macroTaps state "")
  end.

End Macros.

(** ** State set-up: [state.js]

  The [api] is taken to make a resource at each call of [api.texture] and
  of [api.framebuffer]; a resource is named by the number of those of its
  kind made before it.

  The numbers of channels are those of maps that hold each texture and each
  value they name.  Where a texture names a value that is missing, the sum
  of the source is no number ([NaN]), and it goes on with textures of such
  channels; where a pass names a texture that is missing, there is no list
  to reduce.  In both cases the functions here give nothing: what [getState]
  sets up is followed for the maps whose numbers of channels are numbers. *)

Module State.

(** How [state.maps.values] are grouped per texture per pass; [channelsMin]
  when given. *)
Record Maps : Type := {
  values : option (list nat);
  channelsMin : option nat;
  textures : list (list nat);
  passes : list (list nat)
}.

(** [state.steps]: how many steps of state to track, or the list of states
  if already set up, of which an entry holds the passes given for the step
  (here a name for them) or nothing. *)
Inductive Steps : Type :=
  | StepsCount (n : nat)
  | StepsList (given : list (option nat)).

(** [state.merge]: false-y; or truthy, with whether [merge.all] and
  [merge.next] are given. *)
Inductive Merge : Type :=
  | MergeOff
  | MergeOn (all next : bool).

(** The parts of [state] that decide which resources are made; the size and
  format settings are handed on to each resource unchanged and left out. *)
Record Args : Type := {
  steps : option Steps;
  merge : option Merge;
  maps : Maps
}.

(** The color attachments of a pass: [false]; a list of its own; or the one
  list [colorPool], shared by each pass that merging sets up. *)
Inductive Color : Type :=
  | ColorNone
  | ColorOwn (color : list nat)
  | ColorPool.

(** A [texture] and its meta info.  [texture] names the texture made by
  [api.texture], numbered as made; [entry] is as in the source. *)
Record Texture : Type := {
  channels : nat;
  texture : nat;
  entry : nat;
  step : option nat;
  color : option nat;
  pass : option nat;
  index : option nat;
  map : option (list nat)
}.

(** A pass and its meta info, [framebuffer] numbered as made. *)
Record Pass : Type := {
  passColor : Color;
  framebuffer : nat;
  passEntry : nat;
  passMap : option (list nat);
  passPass : option nat;
  passStep : option nat;
  passIndex : option nat
}.

(** The counts of [to.size] that set-up changes. *)
Record Size : Type := {
  sizePasses : nat;
  sizeFramebuffers : nat;
  sizeTextures : nat;
  sizeColors : nat
}.

(** The state being set up: the counts, [to.textures] and [to.passes] by
  step and index, the textures bound to the next pass and reused if merging
  ([colorPool]), and the channels of each texture that [api.texture] was
  asked for, in the order asked. *)
Record Build : Type := {
  size : Size;
  texturesMade : gmap (nat * nat) Texture;
  passesMade : gmap (nat * nat) Pass;
  colorPool : option (list nat);
  created : list nat
}.

Definition start : Build := {|
  size := {| sizePasses := 0; sizeFramebuffers := 0; sizeTextures := 0;
             sizeColors := 0 |};
  texturesMade := ∅;
  passesMade := ∅;
  colorPool := None;
  created := []
|}.

(** [reduce((sum, v) => sum+values[v], texturesMap[t], 0)]: the channels
  that the values of a texture take; no number ([NaN]) where a value is
  missing. *)
Definition packed (values : list nat) (group : list nat) : option nat :=
  FnLists.reduce (λ sum v _, s ← sum; w ← values !! v; Some (s + w)) group (Some 0).

(** All [framebuffer] attachments need the same number of channels; enough
  to hold all values a pass holds.  No number where a texture or a value of
  the pass is missing. *)
Definition passChannels (values : list nat) (texturesMap : list (list nat))
    (pass : list nat) (min : option nat) : option nat :=
  FnLists.reduce (λ min t _,
      m ← min; group ← texturesMap !! t; w ← packed values group; Some (m `max` w))
    pass min.

(** The minimum channels for a reusable pool of [texture] attachments that
  can hold any pass's values. *)
Definition mergeChannels (values : list nat) (texturesMap : list (list nat))
    (passes : list (list nat)) (channelsMin : nat) : option nat :=
  FnLists.reduce (λ min p _, passChannels values texturesMap p min) passes
    (Some channelsMin).

(** [out[i] = x], for an [i] up to the length of [out]. *)
Definition setAt (i x : nat) (out : list nat) : list nat :=
  if decide (i < length out) then <[i := x]> out else out ++ [x].

Section Resources.
Variable texturesMap : list (list nat).

(** [addTexture(channels, w, h, step, pass)(index, c, _, color)] for a
  texture of the render flow: the texture to bind, new or reused. *)
Definition addTexture (channels step pass index c : nat) (color : list nat)
    (b : Build) : nat * Build :=
  let '(t, entry, b) :=
    match color !! c with
    | Some t => (t, c, b)
    | None =>
        (length (created b), sizeTextures (size b),
         {| size := {| sizePasses := sizePasses (size b);
                       sizeFramebuffers := sizeFramebuffers (size b);
                       sizeTextures := S (sizeTextures (size b));
                       sizeColors := sizeColors (size b) |};
            texturesMade := texturesMade b;
            passesMade := passesMade b;
            colorPool := colorPool b;
            created := created b ++ [channels] |})
    end in
  let to := {| channels := channels; texture := t; entry := entry;
               step := Some step; color := Some (sizeColors (size b));
               pass := Some pass; index := Some index;
               map := texturesMap !! index |} in
  (t,
   {| size := {| sizePasses := sizePasses (size b);
                 sizeFramebuffers := sizeFramebuffers (size b);
                 sizeTextures := sizeTextures (size b);
                 sizeColors := S (sizeColors (size b)) |};
      texturesMade := <[(step, index) := to]> (texturesMade b);
      passesMade := passesMade b;
      colorPool := colorPool b;
      created := created b |}).

(** [map(addTexture(channels, width, height, step, index), pass, color)] *)
Definition addTextures (channels step index : nat) (pass color : list nat)
    (b : Build) : list nat * Build :=
  FnLists.reduce (λ '(out, b) t c,
      let '(made, b) := addTexture channels step index t c out b in
      (setAt c made out, b))
    pass (color, b).

(** The settings of [getState] after their defaults: the [values], the
  minimum channels, the channels of the pool if merging ([null] if not). *)
Variable values : list nat.
Variable channelsMin : nat.
Variable merging : bool.
Variable pool : option nat.

(** [mergeChannels ?? passChannels(pass, channelsMin)]: the channels of the
  attachments of a pass. *)
Definition channelsOf (pass : list nat) : option nat :=
  match pool with
  | Some c => Some c
  | None => passChannels values texturesMap pass (Some channelsMin)
  end.

(** [addPass(step)(pass, index)] for a pass of the render flow: the
  [framebuffer] made for it.  Nothing where the channels of the pass are no
  number: the textures that the source then asks for are not followed. *)
Definition addPass (step : nat) (pass : list nat) (index : nat) (b : Build)
    : option (nat * Build) :=
  channels ← channelsOf pass;
  let '(color, b) :=
    addTextures channels step index pass
      (if merging then default [] (colorPool b) else []) b in
  let to := {| passColor := if merging then ColorPool else ColorOwn color;
               framebuffer := sizeFramebuffers (size b);
               passEntry := sizeFramebuffers (size b);
               passMap := Some pass;
               passPass := Some (sizePasses (size b));
               passStep := Some step;
               passIndex := Some index |} in
  Some (framebuffer to,
        {| size := {| sizePasses := S (sizePasses (size b));
                      sizeFramebuffers := S (sizeFramebuffers (size b));
                      sizeTextures := sizeTextures (size b);
                      sizeColors := sizeColors (size b) |};
           texturesMade := texturesMade b;
           passesMade := <[(step, index) := to]> (passesMade b);
           colorPool := if merging then Some color else colorPool b;
           created := created b |}).

(** [map(addPass(step), maps.passes)]: the [framebuffer]s of a step. *)
Definition addPasses (step : nat) (passes : list (list nat)) (b : Build)
    : option (list nat * Build) :=
  FnLists.reduce (λ acc pass index,
      '(out, b) ← acc;
      '(made, b) ← addPass step pass index b;
      Some (out ++ [made], b))
    passes (Some ([], b)).

(** A step of [to.steps]: the passes given for it, or the [framebuffer]s
  made for its passes. *)
Inductive Step : Type :=
  | StepGiven (passes : nat)
  | StepMade (framebuffers : list nat).

(** [map((passes, step) => passes || map(addPass(step), maps.passes), ...)] *)
Definition addSteps (steps : list (option nat)) (passes : list (list nat))
    (b : Build) : option (list Step * Build) :=
  FnLists.reduce (λ acc given step,
      '(out, b) ← acc;
      match given with
      | Some g => Some (out ++ [StepGiven g], b)
      | None =>
          '(made, b) ← addPasses step passes b;
          Some (out ++ [StepMade made], b)
      end)
    steps (Some ([], b)).

(** [addTexture(mergeChannels, mw, mh)()]: the texture for states to be
  merged into, not part of the render flow. *)
Definition addMerged (channels : nat) (b : Build) : Texture * Build :=
  ({| channels := channels; texture := length (created b);
      entry := sizeTextures (size b);
      step := None; color := None; pass := None; index := None; map := None |},
   {| size := {| sizePasses := sizePasses (size b);
                 sizeFramebuffers := sizeFramebuffers (size b);
                 sizeTextures := S (sizeTextures (size b));
                 sizeColors := sizeColors (size b) |};
      texturesMade := texturesMade b;
      passesMade := passesMade b;
      colorPool := colorPool b;
      created := created b ++ [channels] |}).

(** [addPass(null, false)()]: an empty [framebuffer], to copy data from each
  texture of each pass. *)
Definition addNext (b : Build) : Pass * Build :=
  ({| passColor := ColorNone;
      framebuffer := sizeFramebuffers (size b);
      passEntry := sizeFramebuffers (size b);
      passMap := None; passPass := None; passStep := None; passIndex := None |},
   {| size := {| sizePasses := sizePasses (size b);
                 sizeFramebuffers := S (sizeFramebuffers (size b));
                 sizeTextures := sizeTextures (size b);
                 sizeColors := sizeColors (size b) |};
      texturesMade := texturesMade b;
      passesMade := passesMade b;
      colorPool := colorPool b;
      created := created b |}).

End Resources.

(** What [getState] sets up: the state built; [to.steps]; the channels in
  [to.size.channelsMin] and the number of steps in [to.size.steps]; and,
  if merging made them here, [to.merge.all] and [to.merge.next]. *)
Record Made : Type := {
  built : Build;
  stepsMade : list Step;
  sizeChannelsMin : nat;
  sizeSteps : nat;
  mergeAll : option Texture;
  mergeNext : option Pass
}.

(** [steps = stepsDef], then [isInteger(steps)? range(steps) : steps] *)
Definition stepsOf (steps : option Steps) : list (option nat) :=
  match default (StepsCount Const.stepsDef) steps with
  | StepsCount n => FnLists.range n
  | StepsList given => given
  end.

(** [merge = mergeDef] *)
Definition mergeOf (merge : option Merge) : Merge :=
  default (if Const.mergeDef then MergeOn false false else MergeOff) merge.

(** [getState]: what it sets up where each number of channels it needs is a
  number; nothing where one is not, as a texture or a value that the maps
  refer to is missing, which is where the state that the source sets up is
  not followed. *)
Definition getState (state : Args) : option Made :=
  let values := default Const.valuesDef (values (maps state)) in
  let channelsMin := default Const.channelsMinDef (channelsMin (maps state)) in
  let texturesMap := textures (maps state) in
  let steps := stepsOf (steps state) in
  match mergeOf (merge state) with
  | MergeOff =>
      '(made, b) ← addSteps texturesMap values channelsMin false None steps
                     (passes (maps state)) start;
      Some {| built := b; stepsMade := made; sizeChannelsMin := channelsMin;
              sizeSteps := length steps; mergeAll := None; mergeNext := None |}
  | MergeOn all next =>
      channels ← mergeChannels values texturesMap (passes (maps state)) channelsMin;
      '(made, b) ← addSteps texturesMap values channelsMin true (Some channels)
                     steps (passes (maps state)) start;
      let '(mergedAll, b) :=
        if all then (None, b) else prod_map Some id (addMerged channels b) in
      let '(mergedNext, b) :=
        if next then (None, b) else prod_map Some id (addNext b) in
      Some {| built := b; stepsMade := made; sizeChannelsMin := channels;
              sizeSteps := length steps; mergeAll := mergedAll;
              mergeNext := mergedNext |}
  end.

End State.

(** ** The update step: [step.js] *)

Module Step.

(** The properties that [run] reads and writes: the active step and pass,
  if any, and the passes of [maps]. *)
Record Props : Type := {
  stepNow : option Z;
  passNow : option nat;
  passes : list (list nat)
}.

(** What a callback upon each step gives, besides nothing: the properties
  that it was given, themselves; or other properties. *)
Inductive Given : Type :=
  | GivenSame
  | GivenOther (stepProps : Props).

(** What a step is run with, besides: the callbacks upon each step and each
  pass, which give the properties to go on with or nothing, and are taken to
  leave the properties that they are given as they are; and whether a merged
  texture has an [update] to call upon each pass. *)
Record Hooks : Type := {
  onStep : option (Props → option Given);
  onPass : option (Props → list nat → option Props);
  mergeUpdate : bool
}.

(** A call made by [run]: the [pass] draw command of the step, or the update
  of the merged texture, with the properties handed to it; a draw call is
  marked with the entry of the passes it is made for and its index. *)
Inductive Call : Type :=
  | Draw (i : nat) (p : list nat) (passProps : Props)
  | Update (passProps : Props).

(** [props.stepNow+1 || 0] *)
Definition nextStep (stepNow : option Z) : Z :=
  match stepNow with
  | Some s => if decide (s + 1 = 0)%Z then 0%Z else (s + 1)%Z
  | None => 0%Z
  end.

(** [onStep?.(props, ...) ?? props]: the properties of the step, and whether
  they are [props] itself, as they are if the callback gives nothing or
  gives [props] back. *)
Definition stepPropsOf (hooks : Hooks) (props : Props) : Props * bool :=
  match onStep hooks ≫= (λ hook, hook props) with
  | Some (GivenOther stepProps) => (stepProps, false)
  | Some GivenSame | None => (props, true)
  end.

(** The callback of [each], upon the pass [p] at index [i]. *)
Definition onEach (hooks : Hooks) (acc : Props * list Call) (p : list nat)
    (i : nat) : Props * list Call :=
  let '(stepProps, calls) := acc in
  let stepProps := {| stepNow := stepNow stepProps; passNow := Some i;
                      passes := passes stepProps |} in
  let passProps :=
    default stepProps (onPass hooks ≫= (λ hook, hook stepProps p)) in
  (stepProps,
   calls ++ [Draw i p passProps] ++
     (if mergeUpdate hooks then [Update passProps] else [])).

(** [to.run]: executes the next step and all its passes; gives [props] as
  they are left, and the calls made in order.  [each] calls its callback
  upon each pass in order; what the callback writes is handed on from one
  call to the next, and is written into [props] where the properties of the
  step are [props] itself. *)
Definition run (hooks : Hooks) (props : Props) : Props * list Call :=
  let props := {| stepNow := Some (nextStep (stepNow props));
                  passNow := passNow props; passes := passes props |} in
  let '(stepProps, same) := stepPropsOf hooks props in
  let '(stepProps', calls) :=
    FnLists.reduce (onEach hooks) (passes stepProps) (stepProps, []) in
  (if same then stepProps' else props, calls).

(** The draw calls among the calls made, as the entry of the passes and the
  index each is made for. *)
Definition draws (calls : list Call) : list (nat * list nat) :=
  omap (λ call, match call with
                | Draw i p _ => Some (i, p)
                | Update _ => None
                end) calls.

End Step.

(** ** Setting up a [gpgpu] process: [index.js] *)

Module Main.

(** [maps.buffersMax = (buffersMax ?? maxDrawbuffers)]: the limit handed to
  [mapFlow], given the [buffersMax] of [state.maps] and the
  [maxDrawbuffers] of the limits of the [api]. *)
Definition buffersMax (buffersMax maxDrawbuffers : option nat) : option nat :=
  match buffersMax with
  | Some given => Some given
  | None => maxDrawbuffers
  end.

End Main.

(** ** The planner: [maps.js]

  The source of the planner ([mapGroups], [mapSamples], [mapFlow]) is not
  among the files at hand; its parts are modelled from the specification,
  section 4: the Channel Packer ([pack]), the Pass Grouper ([group]), the
  Dependency Sampler ([resolveSamples]) and the Flow Orchestrator ([plan]). *)

Module Maps.

(** Modelled from the spec: the derive edge, missing with [maps.js]; either
  [(stepOffset, valueIndex)], or the wildcard for all values at a step
  offset. *)
Inductive Derive : Type :=
  | DeriveValue (stepOffset valueIndex : nat)
  | DeriveAll (stepOffset : nat).

(** Modelled from the spec: the limits given to [plan], missing with
  [maps.js]; each may be left out, but for the [packed] flag. *)
Record Limits : Type := {
  channelMax : option nat;
  channelMin : option nat;
  attachMax : option nat;
  packed : bool
}.

(** Modelled from the spec: the error taxonomy of section 7, missing with
  [maps.js]; a configuration error tells what is wrong and the index of the
  offending value or derive. *)
Inductive Error : Type :=
  | ConfigurationError (what : string) (index : nat)
  | UnsatisfiableDependencyError.

(** Modelled from the spec: a texture of the plan, missing with [maps.js];
  the values packed in it, in order, and its allocated channel count. *)
Record Texture : Type := {
  members : list nat;
  channels : nat
}.

(** Modelled from the spec: the plan, missing with [maps.js]; per pass, the
  samples as [(stepOffset, textureIndex)] and, for each value written in the
  pass, its read indexes. *)
Record Plan : Type := {
  values : list nat;
  textures : list Texture;
  passes : list (list nat);
  samples : list (list (nat * nat));
  reads : list (list (nat * list nat))
}.

(** Modelled from the spec: the default of [channelMax], missing with
  [maps.js]; the defaults are [channelMax] 4, [channelMin] 4, [attachMax] 1. *)
Definition channelMaxOf (limits : Limits) : nat :=
  default Const.channelsMaxDef (channelMax limits).
(** Modelled from the spec: the default of [channelMin], missing with
  [maps.js]. *)
Definition channelMinOf (limits : Limits) : nat :=
  default Const.channelsMinDef (channelMin limits).
(** Modelled from the spec: the default of [attachMax], missing with
  [maps.js]: 1 texture attachment per draw pass. *)
Definition attachMaxOf (limits : Limits) : nat :=
  default Const.buffersMaxDef (attachMax limits).

(** Modelled from the spec: the check of the values, missing with
  [maps.js]: a value wider than [channelMax] is a configuration error, told
  with the index of the first such value. *)
Definition checkValues (channelMax : nat) (values : list nat) : option Error :=
  (λ found, ConfigurationError "value" found.1) <$>
    list_find (λ w, channelMax < w) values.

(** Modelled from the spec: whether a derive references a value index
  outside the declared range, missing with [maps.js]. *)
Definition derivesOutside (count : nat) (derive : Derive) : bool :=
  match derive with
  | DeriveValue _ v => bool_decide (count ≤ v)
  | DeriveAll _ => false
  end.

(** Modelled from the spec: the check of the derives, missing with
  [maps.js]: a derive of a value index outside the declared range is a
  configuration error, told with the index of the first such list. *)
Definition checkDerives (count : nat) (derives : list (list Derive)) : option Error :=
  (λ found, ConfigurationError "derive" found.1) <$>
    list_find (λ entries, existsb (derivesOutside count) entries = true) derives.

(** Modelled from the spec: the eager checks of section 7, missing with
  [maps.js]: a non-positive [channelMax] or [attachMax], a value wider than
  [channelMax], a derive of a value index outside the declared range. *)
Definition check (values : list nat) (derives : list (list Derive))
    (limits : Limits) : option Error :=
  if decide (channelMaxOf limits < 1) then Some (ConfigurationError "channelMax" 0)
  else if decide (attachMaxOf limits < 1) then Some (ConfigurationError "attachMax" 0)
  else match checkValues (channelMaxOf limits) values with
       | Some error => Some error
       | None => checkDerives (length values) derives
       end.

(** Modelled from the spec: the pre-sorting by descending width of the
  Channel Packer, missing with [maps.js]: a value, as its index and width,
  goes before the first of a lesser width. *)
Fixpoint byWidth (value : nat * nat) (sorted : list (nat * nat)) : list (nat * nat) :=
  match sorted with
  | [] => [value]
  | other :: rest =>
      if decide (other.2 < value.2) then value :: sorted
      else other :: byWidth value rest
  end.

(** Modelled from the spec: the placing of the Channel Packer, missing with
  [maps.js]: a value goes into the first open bin whose remaining capacity
  accommodates its width; if none, a new bin is opened. *)
Fixpoint place (channelMax : nat) (value : nat * nat) (bins : list (list nat * nat))
    : list (list nat * nat) :=
  match bins with
  | [] => [([value.1], value.2)]
  | bin :: rest =>
      if decide (bin.2 + value.2 ≤ channelMax)
      then (bin.1 ++ [value.1], bin.2 + value.2) :: rest
      else bin :: place channelMax value rest
  end.

(** Modelled from the spec: the Channel Packer of section 4.1, missing with
  [maps.js]: values by descending width, each placed into the first open
  bin whose remaining capacity accommodates its width, or a new bin; when
  packing is disabled, each value in its own texture; each bin raised to at
  least [channelMin]. *)
Definition pack (values : list nat) (channelMax channelMin : nat) (packed : bool)
    : list Texture :=
  let indexed := imap pair values in
  let bins :=
    if packed
    then foldl (λ bins value, place channelMax value bins) []
           (foldl (λ sorted value, byWidth value sorted) [] indexed)
    else (λ value, ([value.1], value.2)) <$> indexed in
  (λ bin, {| members := bin.1; channels := bin.2 `max` channelMin |}) <$> bins.

(** Modelled from the spec: the Pass Grouper of section 4.2, missing with
  [maps.js]: textures are accumulated into the current pass until adding
  the next would exceed [attachMax], then a new pass starts. *)
Fixpoint groupInto (attachMax : nat) (current : list nat) (textures : list nat)
    : list (list nat) :=
  match textures with
  | [] => match current with [] => [] | _ :: _ => [current] end
  | t :: rest =>
      if decide (length current + 1 ≤ attachMax)
      then groupInto attachMax (current ++ [t]) rest
      else current :: groupInto attachMax [t] rest
  end.

(** Modelled from the spec: the Pass Grouper over the textures of a plan,
  missing with [maps.js]; textures are named by their index. *)
Definition group (textures : list Texture) (attachMax : nat) : list (list nat) :=
  groupInto attachMax [] (seq 0 (length textures)).

(** Modelled from the spec: the texture that a value is packed in, missing
  with [maps.js]. *)
Definition textureOf (textures : list Texture) (v : nat) : option nat :=
  fst <$> list_find (λ texture, v ∈ members texture) textures.

(** Modelled from the spec: the coordinates a derive entry requires in the
  Dependency Sampler of section 4.3, missing with [maps.js]: the texture of
  its value at its step offset, or for the wildcard one coordinate per
  texture at that offset, in the order of the textures. *)
Definition coordinates (textures : list Texture) (derive : Derive)
    : option (list (nat * nat)) :=
  match derive with
  | DeriveValue k v => t ← textureOf textures v; Some [(k, t)]
  | DeriveAll k => Some ((λ t, (k, t)) <$> seq 0 (length textures))
  end.

(** Modelled from the spec: the values written in a pass, missing with
  [maps.js]: those of each texture of the pass, in order. *)
Definition valuesOf (textures : list Texture) (pass : list nat) : list nat :=
  t ← pass; default [] (members <$> textures !! t).

(** Modelled from the spec: the coordinates that a value requires, missing
  with [maps.js]: those of each entry of its derive list, in order; none
  for a value with no derive entries. *)
Definition required (textures : list Texture) (derives : list (list Derive))
    (v : nat) : option (list (nat * nat)) :=
  (λ parts, concat parts) <$> mapM (coordinates textures) (default [] (derives !! v)).

(** Modelled from the spec: the coordinates that each value written in a
  pass requires, missing with [maps.js], in the order of the textures of
  the pass and of the values in each. *)
Definition requirements (textures : list Texture) (derives : list (list Derive))
    (pass : list nat) : option (list (nat * list (nat * nat))) :=
  mapM (λ v, pair v <$> required textures derives v) (valuesOf textures pass).

(** Modelled from the spec: the deduplication of the Dependency Sampler,
  missing with [maps.js]: a coordinate is looked up in the sample list of
  the pass, and added at its end if it is not there; its index there is the
  read index. *)
Definition addSample (samples : list (nat * nat)) (coordinate : nat * nat)
    : list (nat * nat) * nat :=
  match list_find (λ sample, sample = coordinate) samples with
  | Some found => (samples, found.1)
  | None => (samples ++ [coordinate], length samples)
  end.

(** Modelled from the spec: the read indexes of the coordinates that a value
  requires, missing with [maps.js], one for each in order. *)
Definition addReads (samples : list (nat * nat)) (needs : list (nat * nat))
    : list (nat * nat) * list nat :=
  foldl (λ '(samples, reads) coordinate,
      let '(samples, i) := addSample samples coordinate in
      (samples, reads ++ [i]))
    (samples, []) needs.

(** Modelled from the spec: the samples and the reads of a pass, missing with
  [maps.js], from the coordinates that each of its values requires. *)
Definition resolvePass (needs : list (nat * list (nat * nat)))
    : list (nat * nat) * list (nat * list nat) :=
  foldl (λ '(samples, reads) need,
      let '(samples, indexes) := addReads samples need.2 in
      (samples, reads ++ [(need.1, indexes)]))
    ([], []) needs.

(** Modelled from the spec: the Dependency Sampler of section 4.3, missing
  with [maps.js]: one result per pass; none where a derive cannot be
  resolved to a coordinate. *)
Definition resolveSamples (textures : list Texture) (passes : list (list nat))
    (derives : list (list Derive))
    : option (list (list (nat * nat) * list (nat * list nat))) :=
  mapM (λ pass, resolvePass <$> requirements textures derives pass) passes.

(** Modelled from the spec: the Flow Orchestrator of section 4.4, missing
  with [maps.js]: the checks, then packing, grouping and sampling. *)
Definition plan (values : list nat) (derives : list (list Derive))
    (limits : Limits) : Error + Plan :=
  match check values derives limits with
  | Some error => inl error
  | None =>
      let textures :=
        pack values (channelMaxOf limits) (channelMinOf limits) (packed limits) in
      let passes := group textures (attachMaxOf limits) in
      match resolveSamples textures passes derives with
      | None => inl UnsatisfiableDependencyError
      | Some resolved =>
          inr {| values := values; textures := textures; passes := passes;
                 samples := fst <$> resolved; reads := snd <$> resolved |}
      end
  end.

(** Modelled from the spec: the step offset that a derive references,
  missing with [maps.js]. *)
Definition stepOffsetOf (derive : Derive) : nat :=
  match derive with
  | DeriveValue k _ => k
  | DeriveAll k => k
  end.

(** Modelled from the spec: the past steps needed, missing with [maps.js]:
  the maximum step offset referenced across all derives. *)
Definition pastSteps (derives : list (list Derive)) : nat :=
  max_list (stepOffsetOf <$> concat derives).

End Maps.

(** ** The shaders of a step: [getStep] of [step.js] *)

Module Shaders.

(** [shaders[p] = text], for the shaders kept per pass, [verts] or [frags],
  of which an entry that is not set is [None]: the list grows to hold the
  entry. *)
Definition keepAt (p : nat) (text : string) (shaders : list (option string))
    : list (option string) :=
  if decide (p < length shaders) then <[p := Some text]> shaders
  else shaders ++ replicate (p - length shaders) None ++ [Some text].

(** [macroPass(state, on)+shader]: nothing where [macroPass] throws. *)
Definition shaderOf (state : Macros.State) (on shader : string)
    (k : Macros.Cache) : Macros.Result :=
  match Macros.macroPass state on k with
  | (Some macros, k) => (Some (macros +:+ shader), k)
  | (None, k) => (None, k)
  end.

(** [(shaders && (shaders[p] ??= macroPass(state, on)+shader))]: the shaders
  kept after it, if any were given; nothing where [macroPass] throws. *)
Definition process (state : Macros.State) (on shader : string) (p : nat)
    (shaders : option (list (option string))) (k : Macros.Cache)
    : option (option (list (option string))) * Macros.Cache :=
  match shaders with
  | None => (Some None, k)
  | Some kept =>
      match mjoin (kept !! p) with
      | Some _ => (Some (Some kept), k)
      | None =>
          match shaderOf state on shader k with
          | (Some text, k) => (Some (Some (keepAt p text kept)), k)
          | (None, k) => (None, k)
          end
      end
  end.

(** [state.passNow = p] *)
Definition withPass (state : Macros.State) (p : option nat) : Macros.State :=
  {| Macros.macros := Macros.macros state; Macros.pre := Macros.pre state;
     Macros.bound := Macros.bound state; Macros.steps := Macros.steps state;
     Macros.count := Macros.count state; Macros.passNow := p;
     Macros.glsl := Macros.glsl state; Macros.merge := Macros.merge state;
     Macros.maps := Macros.maps state |}.

(** What the pre-processing goes on with: the state, [verts] and [frags]. *)
Definition Processed : Type :=
  Macros.State * option (list (option string)) * option (list (option string)).

(** The callback of [each], upon the pass at index [p]: the macros of the
  pass are made in advance, for each shader type. *)
Definition onEach (vert frag : string)
    (acc : option Processed * Macros.Cache) (p : nat)
    : option Processed * Macros.Cache :=
  match acc with
  | (Some (state, verts, frags), k) =>
      let state := withPass state (Some p) in
      match process state "vert" vert p verts k with
      | (Some verts, k) =>
          match process state "frag" frag p frags k with
          | (Some frags, k) => (Some (state, verts, frags), k)
          | (None, k) => (None, k)
          end
      | (None, k) => (None, k)
      end
  | (None, k) => (None, k)
  end.

(** Whether to pre-process and keep the shaders for all passes in advance:
  if so, upon each pass of the maps, and the pass is set back to what it
  was. *)
Definition preprocess (state : Macros.State) (vert frag : string)
    (verts frags : option (list (option string))) (k : Macros.Cache)
    : option Processed * Macros.Cache :=
  match verts, frags with
  | None, None => (Some (state, verts, frags), k)
  | _, _ =>
      let passNow := Macros.passNow state in
      match FnLists.reduce (λ acc (_ : list nat) p, onEach vert frag acc p)
              (Macros.passes (Macros.maps state)) (Some (state, verts, frags), k) with
      | (Some (state, verts, frags), k) =>
          (Some (withPass state passNow, verts, frags), k)
      | (None, k) => (None, k)
      end
  end.

(** The [vert] and [frag] hooks of the command of a pass, for the shader
  type [on]: [shaders?.[p] ?? macroPass(props, on)+shader], given the
  shaders kept, if any, and the shader of the step of the properties. *)
Definition hook (shaders : option (list (option string))) (on shader : string)
    (props : Macros.State) (k : Macros.Cache) : Macros.Result :=
  match kept ← shaders; p ← Macros.passNow props; mjoin (kept !! p) with
  | Some text => (Some text, k)
  | None => shaderOf props on shader k
  end.

End Shaders.

(** ** Updating the merged texture: [merge.update] of [step.js] *)

Module Merged.

(** A copy into the merged texture: the attachment copied from, and the
  offsets on the [x] and [y] axes in the merged texture, where they are a
  number. *)
Record Copy : Type := {
  from : nat;
  x : option Z;
  y : option Z
}.

(** [(stepNow%steps)*h]: the remainder has the sign of the step, and is no
  number if no step is active or there are no steps. *)
Definition row (stepNow : option Z) (steps h : nat) : option Z :=
  now ← stepNow;
  if decide (steps = 0) then None
  else Some (Z.rem now (Z.of_nat steps) * Z.of_nat h)%Z.

(** [p[i]*w] *)
Definition column (p : list nat) (i w : nat) : option Z :=
  t ← p !! i; Some (Z.of_nat t * Z.of_nat w)%Z.

(** The update of the merged texture upon a pass, given the attachments
  [color] and the textures [p] of the active pass: where there is a merged
  texture [to], a [framebuffer] to copy with and attachments, each attachment
  is copied in order into the merged texture. *)
Definition update (to copier : bool) (color : option (list nat)) (p : list nat)
    (stepNow : option Z) (steps w h : nat) : list Copy :=
  if to && copier then
    match color with
    | Some color =>
        FnLists.map (λ c i, {| from := c; x := column p i w;
                               y := row stepNow steps h |}) color
    | None => []
    end
  else [].

(** The shape of the merged texture that [getState] sets up, if no size is
  given for it: the textures side by side, the steps one upon the other. *)
Definition shape (textures steps w h : nat) : Z * Z :=
  (Z.of_nat textures * Z.of_nat w, Z.of_nat steps * Z.of_nat h)%Z.

End Merged.

(** ** Notions used to state the properties *)

(** Runs of macro calls: any of the macro functions called with any state
  and specifier, one after another, on the cache the calls before left. *)
Module Calls.

Inductive Call : Type :=
  | CallValues (state : Macros.State) (on : string)
  | CallOutput (state : Macros.State) (on : string)
  | CallSamples (state : Macros.State) (on : string)
  | CallTaps (state : Macros.State) (on : string)
  | CallPass (state : Macros.State) (on : string).

Definition call (c : Call) (k : Macros.Cache) : Macros.Result :=
  match c with
  | CallValues state on => Macros.macroValues state on k
  | CallOutput state on => Macros.macroOutput state on k
  | CallSamples state on => Macros.macroSamples state on k
  | CallTaps state on => Macros.macroTaps state on k
  | CallPass state on => Macros.macroPass state on k
  end.

(** The cache that a run of calls leaves. *)
Definition after (calls : list Call) (k : Macros.Cache) : Macros.Cache :=
  foldl (λ k c, (call c k).2) k calls.

(** A cache keeps what another holds: each macro kept by key is still there. *)
Definition keeps (k k' : Macros.Cache) : Prop :=
  ∀ c text, Macros.entries k !! c = Some text → Macros.entries k' !! c = Some text.

(** A macro function only adds to the cache. *)
Definition growing (macro : Macros.Cache → Macros.Result) : Prop :=
  ∀ k, keeps k (macro k).2.

(** A macro function gives again the text it gave, on any cache that keeps
  what the cache it left holds. *)
Definition settled (macro : Macros.Cache → Macros.Result) : Prop :=
  ∀ k k' text, (macro k).1 = Some text → keeps (macro k).2 k' →
    (macro k').1 = Some text.

End Calls.

(** What holds of a state being set up. *)
Module Built.

(** Each texture of [to.textures] is kept under its index, is bound in a
  pass of the maps that holds this index, and has the channels of the
  attachments of this pass. *)
Definition bound (texturesMap : list (list nat)) (values : list nat)
    (channelsMin : nat) (pool : option nat) (passes : list (list nat))
    (b : State.Build) : Prop :=
  ∀ key made, State.texturesMade b !! key = Some made →
    ∃ p pass,
      State.pass made = Some p ∧ passes !! p = Some pass ∧
      State.index made = Some key.2 ∧ key.2 ∈ pass ∧
      State.channelsOf texturesMap values channelsMin pool pass =
        Some (State.channels made).

(** Merging: as many textures were made as the list [color] of reused
  attachments holds, all of the same channels. *)
Definition pooled (channels : nat) (color : list nat) (b : State.Build) : Prop :=
  length (State.created b) = length color ∧
  State.sizeTextures (State.size b) = length color ∧
  Forall (λ c, c = channels) (State.created b).

(** Merging: each pass of [to.passes] has the shared list as its color
  attachments. *)
Definition shared (b : State.Build) : Prop :=
  ∀ key made, State.passesMade b !! key = Some made →
    State.passColor made = State.ColorPool.

End Built.

(** The coordinates of a list in the order they are first seen, each once. *)
Fixpoint firstSeen (coordinates : list (nat * nat)) : list (nat * nat) :=
  match coordinates with
  | [] => []
  | c :: rest => c :: filter (λ other, other ≠ c) (firstSeen rest)
  end.

(** The channels that the values of each texture of a list take, for those
  that take a number of them. *)
Definition widths (values : list nat) (texturesMap : list (list nat))
    (among : list nat) : list nat :=
  omap (λ t, group ← texturesMap !! t; State.packed values group) among.

(** The channels taken in a texture by the values before a value. *)
Definition taken (values : list nat) (before : list nat) : nat :=
  sum_list (omap (λ v, values !! v) before).

(** The macros of [macroValues] for the value [v] of the texture [t], given
  the channels assigned to it. *)
Definition valueLines (n : string) (v t : nat) (channels : string) : string :=
  "#define " +:+ n +:+ "texture_" +:+ pretty v +:+ " " +:+ pretty t +:+ Macros.nl +:+
  "#define " +:+ n +:+ "channels_" +:+ pretty v +:+ " " +:+ channels +:+
  Macros.nl +:+ Macros.nl.

(** The macros of [macroOutput] for the value [v] of the texture [texture]
  bound as the attachment [bound], given the channels assigned to it. *)
Definition outputLines (n : string) (v texture bound : nat) (channels : string)
    : string :=
  Macros.nl +:+
  "#define " +:+ n +:+ "bound_" +:+ pretty v +:+ " " +:+ pretty texture +:+ Macros.nl +:+
  "#define " +:+ n +:+ "attach_" +:+ pretty v +:+ " " +:+ pretty bound +:+ Macros.nl +:+
  "#define " +:+ n +:+ "output_" +:+ pretty v +:+ " gl_FragData[" +:+ n +:+
    "attach_" +:+ pretty v +:+ "]." +:+ channels +:+ Macros.nl.

(** The state of the examples in the documentation of the macros: the values
  [[2, 4, 1]] packed, with the passes and the active pass given; the samples
  and reads are those of the example of [macroSamples]. *)
Definition documented (passes : list (list nat)) (passNow : nat) : Macros.State :=
  {| Macros.macros := Macros.HookDefault; Macros.pre := Some "";
     Macros.bound := None; Macros.steps := 2; Macros.count := None;
     Macros.passNow := Some passNow; Macros.glsl := None;
     Macros.merge := false;
     Macros.maps :=
       {| Macros.values := [2; 4; 1]; Macros.textures := [[1]; [0; 2]];
          Macros.passes := passes;
          Macros.samples := Some [Some [(0, 1); (1, 1); (0, 0)]];
          Macros.reads :=
            Some [Some [Macros.ReadsOf [0]; Macros.ReadsHole;
                        Macros.ReadsOf [1; 0; 2; 0]]] |} |}.

(** The text of lines, one for each value of a list in order. *)
Definition linesOf (line : nat → string) (l : list nat) : string :=
  foldr (λ u rest, line u +:+ rest) "" l.

(** How the keys of the cache are read back. *)
Module Keys.

(** A decimal digit, and a text of digits only. *)
Definition digit (c : ascii) : bool :=
  (48 <=? nat_of_ascii c) && (nat_of_ascii c <=? 57).

Fixpoint digits (s : string) : bool :=
  match s with
  | "" => true
  | String c rest => digit c && digits rest
  end.

(** A text that a number before it ends at: it does not start with a digit. *)
Definition stops (r : string) : Prop :=
  match r with
  | "" => True
  | String c _ => digit c = false
  end.

(** A text that an entry of a list before it ends at: it starts with the
  comma before the next entry, or with the bracket that closes the list. *)
Definition closes (r : string) : Prop :=
  ∃ rest, r = "," +:+ rest ∨ r = "]" +:+ rest.

(** A text with no comma in it. *)
Fixpoint commaFree (s : string) : bool :=
  match s with
  | "" => true
  | String c rest => negb (Ascii.eqb c ",") && commaFree rest
  end.

(** A way to write values that can be read back: from a text written for a
  value and followed by a text that is [ok], the value and the text that
  follows are known. *)
Definition reads {A : Type} (ok : string → Prop) (write : A → string) : Prop :=
  ∀ a a' r r', ok r → ok r' → write a +:+ r = write a' +:+ r' → a = a' ∧ r = r'.

(** A way to write values that never starts as the character does. *)
Definition apart {A : Type} (c : ascii) (write : A → string) : Prop :=
  ∀ a, ∃ c' rest, write a = String c' rest ∧ c' ≠ c.

(** The entries of a list that follow its first, each after a comma. *)
Definition items {A : Type} (item : A → string) (l : list A) : string :=
  foldr (λ a rest, "," +:+ item a +:+ rest) "" l.

(** The list that an entry of the reads holds, if it holds one; and how an
  entry is written in a key, which goes by this list alone. *)
Definition listOf (reads : Macros.Reads) : option (list nat) :=
  match reads with
  | Macros.ReadsOf r => Some r
  | Macros.ReadsHole | Macros.ReadsNull => None
  end.

Definition idListed (listed : option (list nat)) : string :=
  match listed with
  | Some r => Macros.idNats r
  | None => "null"
  end.

End Keys.

(** The text of the taps that [macroTaps] makes for a state. *)
Definition tapsTextOf (state : Macros.State) : string :=
  Macros.tapsText (Macros.prefix state) (Macros.glsl state)
    (default [] (Macros.passSamplesOf state)) (negb (Macros.merge state)).

(** The reads of the active pass of a state hold no entry that is set to no
  list: each is the list of the reads of a value, or is left out. *)
Definition readsSet (state : Macros.State) : bool :=
  forallb (λ reads, match reads with
                    | Macros.ReadsNull => false
                    | _ => true
                    end)
    (default [] (Macros.passReadsOf state)).

(** The texts that the macro functions make are kept under keys that tell
  them apart: what a cache holds under the key of a state, of a prefix with
  no comma and of reads that are set, is the text made for this state. *)
Definition sound (k : Macros.Cache) : Prop :=
  ∀ state text, Keys.commaFree (Macros.prefix state) = true →
    (Macros.entries k !! Macros.macroValuesKey state = Some text →
       text = Macros.macroValuesText state) ∧
    (Macros.entries k !! Macros.macroOutputKey state = Some text →
       Macros.macroOutputText state = Some text) ∧
    (Macros.entries k !! Macros.macroSamplesKey state = Some text →
       readsSet state = true → Macros.macroSamplesText state = Some text) ∧
    (Macros.entries k !! Macros.macroTapsKey state = Some text →
       text = tapsTextOf state).



(** The state that a call is made with. *)
Definition stateOf (c : Calls.Call) : Macros.State :=
  match c with
  | Calls.CallValues state _ | Calls.CallOutput state _
  | Calls.CallSamples state _ | Calls.CallTaps state _
  | Calls.CallPass state _ => state
  end.

(** The expression of the index macro of a list in [GLSL] 1: the name of an
  entry; or the test of the index against that of an entry, with the name of
  this entry if they are equal, and an expression for the entries before it
  if not. *)
Inductive Pick : Type :=
  | PickName (i : nat)
  | PickIf (i : nat) (rest : Pick).

(** The expression written out, for a list of a name. *)
Fixpoint showPick (name : string) (e : Pick) : string :=
  match e with
  | PickName i => name +:+ "_" +:+ pretty i
  | PickIf i rest =>
      "((i == " +:+ pretty i +:+ ")? " +:+ name +:+ "_" +:+ pretty i +:+ " : " +:+
        showPick name rest +:+ ")"
  end.

(** The entry that the expression names, for an index [j]. *)
Fixpoint pick (e : Pick) (j : nat) : nat :=
  match e with
  | PickName i => i
  | PickIf i rest => if decide (j = i) then i else pick rest j
  end.

(** The expression that tests the index against each entry from the entry
  [n] down to the second, and names the first if none is equal. *)
Fixpoint picks (n : nat) : Pick :=
  match n with
  | 0 => PickName 0
  | S m => PickIf (S m) (picks m)
  end.

(** The steps that [getState] sets up, among the steps of a list: those not
  given. *)
Definition stepsToMake (steps : list (option nat)) : nat :=
  length (filter (λ given, given = None) steps).

(** How [getState] lays out what it sets up. *)
Module Laid.

Section Layout.
Variable texturesMap : list (list nat).
Variable merging : bool.
Variable steps : list (option nat).
Variable passes : list (list nat).

(** The textures made so far are those counted; if merging, they are the
  shared attachments, numbered as made. *)
Definition tidy (b : State.Build) : Prop :=
  State.sizeTextures (State.size b) = length (State.created b) ∧
  (merging = true →
     default [] (State.colorPool b) = seq 0 (length (State.created b))).

(** The passes set up before the pass [i] of the step [s], and the
  attachments bound in them. *)
Definition passesBefore (s i : nat) : nat :=
  stepsToMake (take s steps) * length passes + i.

Definition colorsBefore (s i : nat) : nat :=
  stepsToMake (take s steps) * length (concat passes) +
  length (concat (take i passes)).

(** The pass [i] of the step [s], as it is set up. *)
Definition passAt (s i : nat) (pass : list nat) : State.Pass :=
  {| State.passColor :=
       if merging then State.ColorPool
       else State.ColorOwn (seq (colorsBefore s i) (length pass));
     State.framebuffer := passesBefore s i;
     State.passEntry := passesBefore s i;
     State.passMap := Some pass;
     State.passPass := Some (passesBefore s i);
     State.passStep := Some s;
     State.passIndex := Some i |}.

(** The pass [i] of the step [s] is set up before the pass [i0] of the
  step [s0] is. *)
Definition before (s0 i0 s i : nat) : Prop := s < s0 ∨ (s = s0 ∧ i < i0).

(** The texture kept for the texture [t] of the maps at the step [s] is the
  attachment [c] of a pass [p] of this step that holds [t] there. *)
Definition textureAt (s0 i0 s t : nat) (tex : State.Texture) : Prop :=
  State.step tex = Some s ∧ State.index tex = Some t ∧
  State.map tex = texturesMap !! t ∧
  State.entry tex = State.texture tex ∧
  ∃ p pass c,
    steps !! s = Some None ∧ before s0 i0 s p ∧
    passes !! p = Some pass ∧ pass !! c = Some t ∧
    State.pass tex = Some p ∧
    State.color tex = Some (colorsBefore s p + c) ∧
    State.texture tex = if merging then c else colorsBefore s p + c.

(** What is set up before the pass [i0] of the step [s0]. *)
Definition laid (s0 i0 : nat) (b : State.Build) : Prop :=
  tidy b ∧
  State.sizePasses (State.size b) = passesBefore s0 i0 ∧
  State.sizeFramebuffers (State.size b) = passesBefore s0 i0 ∧
  State.sizeColors (State.size b) = colorsBefore s0 i0 ∧
  (merging = false → length (State.created b) = colorsBefore s0 i0) ∧
  (∀ s i pass, steps !! s = Some None → passes !! i = Some pass →
     before s0 i0 s i →
     State.passesMade b !! (s, i) = Some (passAt s i pass)) ∧
  (∀ s i to, State.passesMade b !! (s, i) = Some to →
     steps !! s = Some None ∧ i < length passes ∧ before s0 i0 s i) ∧
  (∀ s t tex, State.texturesMade b !! (s, t) = Some tex →
     textureAt s0 i0 s t tex) ∧
  (∀ s p pass t, steps !! s = Some None → passes !! p = Some pass → t ∈ pass →
     before s0 i0 s p → is_Some (State.texturesMade b !! (s, t))).

(** [to.steps], for the first steps of the list. *)
Definition stepsAt (s0 : nat) : list State.Step :=
  imap (λ s given,
      match given with
      | Some g => State.StepGiven g
      | None => State.StepMade (seq (passesBefore s 0) (length passes))
      end)
    (take s0 steps).

End Layout.

End Laid.

(** The maps name only textures and values that they hold: each texture of
  a pass is one of the textures, and each of its values one of the values. *)
Definition complete (values : list nat) (texturesMap : list (list nat))
    (among : list nat) : Prop :=
  Forall (λ t, ∃ group, texturesMap !! t = Some group ∧
                 Forall (λ v, is_Some (values !! v)) group) among.

(** Whether [getState] is to merge the states, [merge = mergeDef]. *)
Definition merges (state : State.Args) : bool :=
  match State.mergeOf (State.merge state) with
  | State.MergeOff => false
  | State.MergeOn _ _ => true
  end.

(** The step function run a number of times, each time with the properties
  that the run before left; the calls made, in order. *)
Fixpoint runs (n : nat) (hooks : Step.Hooks) (props : Step.Props)
    : Step.Props * list Step.Call :=
  match n with
  | 0 => (props, [])
  | S n =>
      let '(props, calls) := Step.run hooks props in
      let '(props, calls') := runs n hooks props in
      (props, calls ++ calls')
  end.

(** The properties at a pass of a step: those of the step, with the pass
  as the active one. *)
Definition atPass (stepProps : Step.Props) (i : nat) : Step.Props :=
  {| Step.stepNow := Step.stepNow stepProps; Step.passNow := Some i;
     Step.passes := Step.passes stepProps |}.

(** The properties that [run] steps to: those given, at the next step. *)
Definition stepped (props : Step.Props) : Step.Props :=
  {| Step.stepNow := Some (Step.nextStep (Step.stepNow props));
     Step.passNow := Step.passNow props; Step.passes := Step.passes props |}.

(** The shaders of a type [on] kept once the first passes, as many as
  [upTo], are pre-processed with the [state], given those kept before, if
  any.  A shader is kept for each of these passes, and it is what the hook
  of the command gives with the shaders kept, for any properties with the
  pass as the active one, on any cache.  It is the shader given for the
  pass, if one was; or else the macros that [macroPass] makes for the pass,
  on any cache that keeps what the cache [k] holds, followed by the shader
  of the step: this is what the hook of a command with no shaders kept makes
  just in time.  The other entries are as given. *)
Definition processed (state : Macros.State) (on shader : string) (upTo : nat)
    (k : Macros.Cache) (given now : option (list (option string))) : Prop :=
  match given with
  | None => now = None
  | Some kept =>
      ∃ kept',
        now = Some kept' ∧
        (∀ p, upTo ≤ p → mjoin (kept' !! p) = mjoin (kept !! p)) ∧
        ∀ p, p < upTo →
          ∃ text,
            mjoin (kept' !! p) = Some text ∧
            (∀ props k', Macros.passNow props = Some p →
               Shaders.hook now on shader props k' = (Some text, k')) ∧
            match mjoin (kept !! p) with
            | Some given => text = given
            | None =>
                ∃ macros,
                  text = macros +:+ shader ∧
                  ∀ k', Calls.keeps k k' →
                    (Macros.macroPass (Shaders.withPass state (Some p)) on k').1 =
                      Some macros ∧
                    (Shaders.hook None on shader
                       (Shaders.withPass state (Some p)) k').1 = Some text
            end
  end.

(** ** Properties of the list helpers *)

Section ReduceFacts.
Context {A B : Type}.
Implicit Types (f : B → A → nat → B) (xs : list A).

Lemma reduceFrom_app f i xs ys acc :
  FnLists.reduceFrom f i (xs ++ ys) acc =
  FnLists.reduceFrom f (i + length xs) ys (FnLists.reduceFrom f i xs acc).
Proof.
  revert i acc. induction xs as [|x xs IH]; intros i acc; simpl.
  - by rewrite Nat.add_0_r.
  - rewrite IH. f_equal. lia.
Qed.

Lemma reduceFrom_ext f g i xs acc :
  (∀ b a j, f b a j = g b a j) →
  FnLists.reduceFrom f i xs acc = FnLists.reduceFrom g i xs acc.
Proof.
  intros Hfg. revert i acc. induction xs as [|x xs IH]; intros i acc; simpl; [done|].
  by rewrite Hfg, IH.
Qed.

(** A fold that does not look at the index is the fold of the library. *)
Lemma reduceFrom_foldl (h : B → A → B) i xs acc :
  FnLists.reduceFrom (λ b a _, h b a) i xs acc = foldl h acc xs.
Proof. revert i acc. induction xs as [|x xs IH]; intros i acc; simpl; [done|]. apply IH. Qed.

(** An invariant of the accumulator, kept by each call, holds at the end. *)
Lemma reduceFrom_invariant (P : nat → B → Prop) f i xs acc :
  P i acc →
  (∀ j b a, xs !! (j - i) = Some a → i ≤ j → P j b → P (S j) (f b a j)) →
  P (i + length xs) (FnLists.reduceFrom f i xs acc).
Proof.
  revert i acc. induction xs as [|x xs IH]; intros i acc Hacc Hstep; simpl.
  - by rewrite Nat.add_0_r.
  - replace (i + S (length xs)) with (S i + length xs) by lia.
    apply IH.
    + apply Hstep; [by rewrite Nat.sub_diag | lia | done].
    + intros j b a Hj Hle Hb. apply Hstep; [|lia|done].
      replace (j - i) with (S (j - S i)) by lia. done.
Qed.

End ReduceFacts.

Lemma map_as_imap {A B : Type} (f : A → nat → B) (xs : list A) :
  FnLists.map f xs = imap (λ i v, f v i) xs.
Proof.
  unfold FnLists.map, FnLists.reduce.
  enough (H : ∀ i out, FnLists.reduceFrom (λ out v i, out ++ [f v i]) i xs out
                       = out ++ imap (λ j v, f v (i + j)) xs) by apply (H 0 []).
  induction xs as [|x xs IH]; intros i out; simpl.
  - by rewrite app_nil_r.
  - rewrite IH, <-app_assoc. simpl. rewrite Nat.add_0_r. do 2 f_equal.
    apply imap_ext. intros j y _. simpl. f_equal. lia.
Qed.

(** ** Properties of the macros: the cache *)

Section CacheFacts.
Import Macros Calls.

Lemma keeps_refl k : keeps k k.
Proof. by intros c text. Qed.

Lemma keeps_trans k1 k2 k3 : keeps k1 k2 → keeps k2 k3 → keeps k1 k3.
Proof. intros H12 H23 c text Hc. by apply H23, H12. Qed.

Lemma cached_growing c value : growing (cached c value).
Proof.
  intros k c' text Hc'. unfold cached.
  destruct (entries k !! c) as [kept|] eqn:Hc; [done|].
  destruct value as [v|]; [|done]. simpl.
  destruct (decide (c = c')) as [->|Hne]; [congruence|].
  by rewrite lookup_insert_ne.
Qed.

Lemma cached_settled c value : settled (cached c value).
Proof.
  intros k k' text. unfold cached.
  destruct (entries k !! c) as [kept|] eqn:Hc; simpl.
  - intros [= <-] Hkeeps. by rewrite (Hkeeps _ _ Hc).
  - destruct value as [v|]; simpl; [|done].
    intros [= <-] Hkeeps.
    by rewrite (Hkeeps c v) by (simpl; apply lookup_insert_eq).
Qed.

(** A hook, or else the macro kept or made: both only add to the cache and
  are settled. *)
Lemma hooked_growing (hook : option string) macro :
  growing macro →
  growing (λ k, match hook with Some text => (Some text, k) | None => macro k end).
Proof. intros Hmacro k. destruct hook; [apply keeps_refl | apply Hmacro]. Qed.

Lemma hooked_settled (hook : option string) macro :
  settled macro →
  settled (λ k, match hook with Some text => (Some text, k) | None => macro k end).
Proof. intros Hmacro k k' text. destruct hook; [done | apply Hmacro]. Qed.

Lemma macroValues_growing state on : growing (macroValues state on).
Proof. apply hooked_growing, cached_growing. Qed.

Lemma macroValues_settled state on : settled (macroValues state on).
Proof. apply hooked_settled, cached_settled. Qed.

Lemma macroOutput_growing state on : growing (macroOutput state on).
Proof. apply hooked_growing, cached_growing. Qed.

Lemma macroOutput_settled state on : settled (macroOutput state on).
Proof. apply hooked_settled, cached_settled. Qed.

Lemma macroSamples_growing state on : growing (macroSamples state on).
Proof. apply hooked_growing, cached_growing. Qed.

Lemma macroSamples_settled state on : settled (macroSamples state on).
Proof. apply hooked_settled, cached_settled. Qed.

Lemma macroTaps_growing state on : growing (macroTaps state on).
Proof.
  apply hooked_growing. intros k c' text Hc'.
  destruct (entries k !! macroTapsKey state) as [kept|] eqn:Hc; [done|]. simpl.
  destruct (decide (macroTapsKey state = c')) as [<-|Hne]; [congruence|].
  by rewrite lookup_insert_ne.
Qed.

Lemma macroTaps_settled state on : settled (macroTaps state on).
Proof.
  apply hooked_settled. intros k k' text.
  destruct (entries k !! macroTapsKey state) as [kept|] eqn:Hc; simpl.
  - intros [= <-] Hkeeps. by rewrite (Hkeeps _ _ Hc).
  - intros [= <-] Hkeeps.
    by rewrite (Hkeeps (macroTapsKey state) _) by (simpl; apply lookup_insert_eq).
Qed.

(** One macro after another. *)
Lemma andThen_growing first next :
  growing first → growing next → growing (λ k, andThen (first k) next).
Proof.
  intros Hfirst Hnext k. unfold andThen.
  pose proof (Hfirst k) as G1.
  destruct (first k) as [[a|] k1]; simpl in *; [|done].
  pose proof (Hnext k1) as G2.
  destruct (next k1) as [[b|] k2]; simpl in *; by apply keeps_trans with k1.
Qed.

Lemma andThen_settled first next :
  growing first → growing next → settled first → settled next →
  settled (λ k, andThen (first k) next).
Proof.
  intros Gfirst Gnext Sfirst Snext k k' text. unfold andThen.
  pose proof (Sfirst k k') as S1. pose proof (Gfirst k') as G1'.
  destruct (first k) as [[a|] k1]; simpl in *; [|intros; discriminate].
  pose proof (Snext k1) as S2. pose proof (Gnext k1) as G2.
  destruct (next k1) as [[b|] k2]; simpl in *; [|intros; discriminate].
  intros [= <-] Hkeeps.
  specialize (S1 a eq_refl (keeps_trans _ _ _ G2 Hkeeps)).
  destruct (first k') as [a' k1']. simpl in *. subst a'.
  specialize (S2 k1' b eq_refl (keeps_trans _ _ _ Hkeeps G1')).
  destruct (next k1') as [b' k2']. simpl in *. by subst b'.
Qed.

Lemma macroPass_growing state on : growing (macroPass state on).
Proof.
  unfold macroPass. apply hooked_growing.
  apply (andThen_growing
           (λ k, andThen (andThen (macroValues state "" k) (macroOutput state ""))
                   (macroSamples state "")));
    [|apply macroTaps_growing].
  apply (andThen_growing
           (λ k, andThen (macroValues state "" k) (macroOutput state "")));
    [|apply macroSamples_growing].
  apply (andThen_growing (macroValues state ""));
    [apply macroValues_growing | apply macroOutput_growing].
Qed.

Lemma macroPass_settled state on : settled (macroPass state on).
Proof.
  unfold macroPass. apply hooked_settled.
  assert (G1 := macroValues_growing state ""). assert (G2 := macroOutput_growing state "").
  assert (G3 := macroSamples_growing state ""). assert (G4 := macroTaps_growing state "").
  assert (G12 := andThen_growing _ _ G1 G2). assert (G123 := andThen_growing _ _ G12 G3).
  apply (andThen_settled _ _ G123 G4); [|apply macroTaps_settled].
  apply (andThen_settled _ _ G12 G3); [|apply macroSamples_settled].
  apply (andThen_settled _ _ G1 G2);
    [apply macroValues_settled | apply macroOutput_settled].
Qed.

Lemma call_growing c : growing (call c).
Proof.
  destruct c; simpl;
    [apply macroValues_growing | apply macroOutput_growing
    | apply macroSamples_growing | apply macroTaps_growing | apply macroPass_growing].
Qed.

Lemma after_keeps calls k : keeps k (after calls k).
Proof.
  revert k. induction calls as [|c calls IH]; intros k; simpl; [apply keeps_refl|].
  eapply keeps_trans; [apply call_growing | apply IH].
Qed.

End CacheFacts.

(** C1: a macro text is the same for the same inputs.  When [macroPass] has
  returned a text for a state and specifier, then after any run of calls of
  the macro functions, with any states, a call of [macroPass] with the same
  state and specifier returns the identical text: what the cache keeps of
  the first call is never replaced. *)
Theorem macroPass_identical state on k between text :
  (Macros.macroPass state on k).1 = Some text →
  (Macros.macroPass state on
     (Calls.after between (Macros.macroPass state on k).2)).1 = Some text.
Proof.
  intros Hfirst. apply (macroPass_settled state on k); [done|].
  apply after_keeps.
Qed.

(** ** Properties of the macros: the channels of each value *)

Section ChannelFacts.
Import Macros.

Lemma append_assoc (a b c : string) : (a +:+ b) +:+ c = a +:+ b +:+ c.
Proof.
  induction a as [|x a IH]; [done|].
  change (String x ((a +:+ b) +:+ c) = String x (a +:+ b +:+ c)). by f_equal.
Qed.

Lemma append_empty (s : string) : s +:+ "" = s.
Proof.
  induction s as [|c s IH]; [done|].
  change (String c (s +:+ "") = String c s). by f_equal.
Qed.

(** The channels of a text from an offset: as many as asked for, or those
  left in the text if fewer; and the ones that follow the offset. *)
Lemma substring_length offset w (s : string) :
  String.length (String.substring offset w s) = w `min` (String.length s - offset).
Proof.
  revert offset w. induction s as [|c s IH]; intros offset w.
  - destruct offset, w; simpl; lia.
  - destruct offset as [|offset]; simpl.
    + destruct w as [|w]; simpl; [done|]. rewrite IH. simpl. lia.
    + apply IH.
Qed.

Lemma substring_get offset w (s : string) i :
  i < String.length (String.substring offset w s) →
  String.get i (String.substring offset w s) = String.get (offset + i) s.
Proof.
  revert offset w i. induction s as [|c s IH]; intros offset w i.
  - destruct offset, w; simpl; lia.
  - destruct offset as [|offset]; simpl.
    + destruct w as [|w]; simpl; [lia|]. destruct i as [|i]; [done|].
      intros Hi. apply (IH 0 w i). lia.
    + apply IH.
Qed.

Lemma slice_rgba offset w :
  slice rgba (Some offset) (Some (offset + w)) = String.substring offset w rgba.
Proof. simpl. by replace (offset + w - offset) with w by lia. Qed.

Lemma channelsEnd_declared values offset v w :
  values !! v = Some w → channelsEnd values (Some offset) v = Some (offset + w).
Proof. intros Hv. unfold channelsEnd. simpl. by rewrite Hv. Qed.

Lemma sum_list_append (l k : list nat) :
  sum_list (l ++ k) = sum_list l + sum_list k.
Proof. induction l as [|x l IH]; simpl; [done|]. rewrite IH. lia. Qed.

Lemma taken_snoc values before v w :
  values !! v = Some w → taken values (before ++ [v]) = taken values before + w.
Proof.
  intros Hv. unfold taken. rewrite omap_app, sum_list_append. simpl.
  rewrite Hv. simpl. lia.
Qed.

(** After the values before it, all declared, a value starts at the sum of
  their channels. *)
Lemma valueMacros_taken n values t s before :
  Forall (λ u, is_Some (values !! u)) before →
  (foldl (valueMacros n values t) (s, Some 0) before).2 = Some (taken values before).
Proof.
  induction before as [|u before IH] using rev_ind; intros Hall; [done|].
  rewrite Forall_app, Forall_singleton in Hall.
  destruct Hall as [Hbefore [w Hu]]. rewrite foldl_snoc.
  specialize (IH Hbefore).
  destruct (foldl _ _ before) as [text i]. simpl in IH. subst i.
  unfold valueMacros. cbn [snd].
  by rewrite (channelsEnd_declared _ _ _ _ Hu), (taken_snoc _ _ _ _ Hu).
Qed.

Lemma outputMacros_taken n values texture bound s before :
  Forall (λ u, is_Some (values !! u)) before →
  (foldl (outputMacros n values texture bound) (s, Some 0) before).2 =
  Some (taken values before).
Proof.
  induction before as [|u before IH] using rev_ind; intros Hall; [done|].
  rewrite Forall_app, Forall_singleton in Hall.
  destruct Hall as [Hbefore [w Hu]]. rewrite foldl_snoc.
  specialize (IH Hbefore).
  destruct (foldl _ _ before) as [text i]. simpl in IH. subst i.
  unfold outputMacros. cbn [snd].
  by rewrite (channelsEnd_declared _ _ _ _ Hu), (taken_snoc _ _ _ _ Hu).
Qed.

Lemma textureMacros_foldl n values s group t :
  textureMacros n values s group t =
  (foldl (valueMacros n values t) (s, Some 0) group).1.
Proof. unfold textureMacros, FnLists.reduce. by rewrite reduceFrom_foldl. Qed.

End ChannelFacts.

Section PlacedFacts.
Import Macros.

(** The macros of the values of a texture come after the text before them,
  and do not go by it. *)
Lemma valueMacros_after n values t s i l :
  foldl (valueMacros n values t) (s, i) l =
  (s +:+ (foldl (valueMacros n values t) ("", i) l).1,
   (foldl (valueMacros n values t) ("", i) l).2).
Proof.
  revert s i. induction l as [|v l IH]; intros s i.
  - simpl. by rewrite append_empty.
  - cbn [foldl]. unfold valueMacros at 2 4 6. cbv zeta.
    rewrite IH. rewrite (IH ("" +:+ _)). cbn [fst snd].
    by rewrite !append_assoc.
Qed.

Lemma outputMacros_after n values texture bound s i l :
  foldl (outputMacros n values texture bound) (s, i) l =
  (s +:+ (foldl (outputMacros n values texture bound) ("", i) l).1,
   (foldl (outputMacros n values texture bound) ("", i) l).2).
Proof.
  revert s i. induction l as [|v l IH]; intros s i.
  - simpl. by rewrite append_empty.
  - cbn [foldl]. unfold outputMacros at 2 4 6. cbv zeta.
    rewrite IH. rewrite (IH ("" +:+ _)). cbn [fst snd].
    by rewrite !append_assoc.
Qed.

Lemma textureMacros_after n values s group t :
  textureMacros n values s group t = s +:+ textureMacros n values "" group t.
Proof. rewrite !textureMacros_foldl. by rewrite valueMacros_after. Qed.

Lemma textures_after n values i l s :
  FnLists.reduceFrom (textureMacros n values) i l s =
  s +:+ FnLists.reduceFrom (textureMacros n values) i l "".
Proof.
  revert i s. induction l as [|group l IH]; intros i s.
  - simpl. by rewrite append_empty.
  - cbn [FnLists.reduceFrom]. rewrite IH, (IH _ (textureMacros _ _ "" _ _)).
    by rewrite textureMacros_after, append_assoc.
Qed.

Lemma attachMacros_foldl n values textures s texture bound group :
  textures !! texture = Some group →
  attachMacros n values textures (Some s) texture bound =
  Some (foldl (outputMacros n values texture bound) (s, Some 0) group).1.
Proof.
  intros Hgroup. unfold attachMacros. simpl. rewrite Hgroup. simpl.
  unfold FnLists.reduce.
  by rewrite (reduceFrom_foldl (outputMacros n values texture bound)).
Qed.

(** The macros of the textures of a pass, all of them textures of the maps:
  they are made, come after the text before them, and do not go by it. *)
Lemma attached_after n values textures i l s :
  Forall (λ u, is_Some (textures !! u)) l →
  ∃ rest,
    FnLists.reduceFrom (attachMacros n values textures) i l (Some "") = Some rest ∧
    FnLists.reduceFrom (attachMacros n values textures) i l (Some s) =
      Some (s +:+ rest).
Proof.
  intros Hl. revert i s. induction Hl as [|t l [group Ht] _ IH]; intros i s.
  - exists "". simpl. by rewrite append_empty.
  - cbn [FnLists.reduceFrom].
    rewrite !(attachMacros_foldl _ _ _ _ _ _ _ Ht).
    rewrite (outputMacros_after _ _ _ _ s). cbn [fst].
    destruct (IH (S i) (foldl (outputMacros n values t i) ("", Some 0) group).1)
      as (rest & Hrest & Hfirst).
    destruct (IH (S i) (s +:+ (foldl (outputMacros n values t i) ("", Some 0) group).1))
      as (rest' & Hrest' & Hafter).
    rewrite Hrest in Hrest'. injection Hrest' as <-.
    eexists. split; [exact Hfirst|]. rewrite Hafter. by rewrite !append_assoc.
Qed.

(** The channels of a value, after the values before it: where its macros
  are in those of its texture. *)
Lemma valueMacros_placed n values t s before v after w :
  Forall (λ u, is_Some (values !! u)) before →
  values !! v = Some w →
  let channels := String.substring (taken values before) w rgba in
  ∃ rest,
    (foldl (valueMacros n values t) (s, Some 0) (before ++ v :: after)).1 =
    (foldl (valueMacros n values t) (s, Some 0) before).1 +:+
      valueLines n v t channels +:+ rest.
Proof.
  intros Hbefore Hv channels. rewrite foldl_app. cbn [foldl].
  pose proof (valueMacros_taken n values t s before Hbefore) as Htaken.
  destruct (foldl _ _ before) as [text i]. simpl in Htaken. subst i.
  unfold valueMacros at 2.
  rewrite (channelsEnd_declared _ _ _ _ Hv), slice_rgba.
  rewrite valueMacros_after. cbn [fst]. eexists.
  unfold valueLines. by rewrite !append_assoc.
Qed.

Lemma outputMacros_placed n values t b s before v after w :
  Forall (λ u, is_Some (values !! u)) before →
  values !! v = Some w →
  let channels := String.substring (taken values before) w rgba in
  ∃ rest,
    (foldl (outputMacros n values t b) (s, Some 0) (before ++ v :: after)).1 =
    (foldl (outputMacros n values t b) (s, Some 0) before).1 +:+
      outputLines n v t b channels +:+ rest.
Proof.
  intros Hbefore Hv channels. rewrite foldl_app. cbn [foldl].
  pose proof (outputMacros_taken n values t b s before Hbefore) as Htaken.
  destruct (foldl _ _ before) as [text i]. simpl in Htaken. subst i.
  unfold outputMacros at 2.
  rewrite (channelsEnd_declared _ _ _ _ Hv), slice_rgba.
  rewrite outputMacros_after. cbn [fst]. eexists.
  unfold outputLines. by rewrite !append_assoc.
Qed.

(** The macros of a texture among those of the textures, and of a texture
  of a pass among those of the pass. *)
Lemma textures_placed n values textures t group :
  textures !! t = Some group →
  FnLists.reduce (textureMacros n values) textures "" =
  textureMacros n values
    (FnLists.reduce (textureMacros n values) (take t textures) "") group t +:+
  FnLists.reduceFrom (textureMacros n values) (S t) (drop (S t) textures) "".
Proof.
  intros Ht. rewrite <-(take_drop_middle textures t _ Ht) at 1.
  unfold FnLists.reduce. rewrite reduceFrom_app. cbn [FnLists.reduceFrom].
  rewrite textures_after, Nat.add_0_l.
  by rewrite length_take_le by (apply Nat.lt_le_incl, (lookup_lt_Some _ _ _ Ht)).
Qed.

Lemma attached_placed n values textures pass b t group :
  pass !! b = Some t → textures !! t = Some group →
  Forall (λ u, is_Some (textures !! u)) pass →
  ∃ bound rest,
    FnLists.reduce (attachMacros n values textures) (take b pass) (Some "") =
      Some bound ∧
    FnLists.reduce (attachMacros n values textures) pass (Some "") =
      Some ((foldl (outputMacros n values t b) (bound, Some 0) group).1 +:+ rest).
Proof.
  intros Hb Ht Hall.
  assert (Forall (λ u, is_Some (textures !! u)) (take b pass) ∧
          Forall (λ u, is_Some (textures !! u)) (drop (S b) pass)) as [Htake Hdrop].
  { rewrite <-(take_drop_middle pass b _ Hb) in Hall.
    apply Forall_app in Hall as [Htake Hdrop].
    by apply Forall_cons in Hdrop as [_ Hdrop]. }
  destruct (attached_after n values textures 0 (take b pass) "" Htake)
    as (bound & Hbound & _).
  destruct (attached_after n values textures (S b) (drop (S b) pass)
              (foldl (outputMacros n values t b) (bound, Some 0) group).1 Hdrop)
    as (rest & _ & Hrest).
  exists bound, rest. split; [done|].
  rewrite <-(take_drop_middle pass b _ Hb) at 1.
  unfold FnLists.reduce in *. rewrite reduceFrom_app. cbn [FnLists.reduceFrom].
  rewrite Nat.add_0_l.
  rewrite length_take_le by (apply Nat.lt_le_incl, (lookup_lt_Some _ _ _ Hb)).
  by rewrite Hbound, (attachMacros_foldl _ _ _ _ _ _ _ Ht).
Qed.

End PlacedFacts.

(** C7, as the code has it: the channels of a value in its texture.  A
  value [v] of [w] channels, after the values [before] it in its texture
  [t] (all declared), is assigned the channels of [rgba] that start at the
  sum of the channels of the values before it (at 0 for the first value) and
  go on, one after the other, no further than the fourth: [w] of them where
  those of the value and of the values before it are 4 at most, as many as
  are left where they are more.  These are the channels in the macros of the
  value that the text of [macroValues] holds, after the macros of the
  textures and values before it; and, for each pass that binds the texture,
  in the macros of the value that the text of [macroOutput] holds, after
  those of the textures bound before it and of the values before it. *)
Theorem channels_assigned state t before v after w :
  let n := Macros.prefix state in
  let values := Macros.values (Macros.maps state) in
  let textures := Macros.textures (Macros.maps state) in
  textures !! t = Some (before ++ v :: after) →
  Forall (λ u, is_Some (values !! u)) before →
  values !! v = Some w →
  let offset := taken values before in
  let channels := String.substring offset w Macros.rgba in
  taken values [] = 0 ∧
  String.length channels = w `min` (4 - offset) ∧
  (offset + w ≤ 4 → String.length channels = w) ∧
  (∀ i, i < String.length channels →
     String.get i channels = String.get (offset + i) Macros.rgba) ∧
  (∃ rest,
     Macros.macroValuesText state =
       Macros.textureMacros n values
         (FnLists.reduce (Macros.textureMacros n values) (take t textures) "")
         before t +:+
       valueLines n v t channels +:+ rest) ∧
  (∀ p pass b,
     Macros.passNow state = Some p →
     Macros.passes (Macros.maps state) !! p = Some pass →
     pass !! b = Some t →
     Forall (λ u, is_Some (textures !! u)) pass →
     ∃ bound rest,
       FnLists.reduce (Macros.attachMacros n values textures) (take b pass)
         (Some "") = Some bound ∧
       Macros.macroOutputText state =
         Some ("#define " +:+ n +:+ "passNow " +:+ pretty p +:+ Macros.nl +:+
               (foldl (Macros.outputMacros n values t b) (bound, Some 0) before).1 +:+
               outputLines n v t b channels +:+ rest)).
Proof.
  intros n values textures Ht Hbefore Hv offset channels.
  split; [done|]. split; [apply substring_length|].
  split; [intros Hfit; subst channels; rewrite substring_length; simpl; lia|].
  split; [apply substring_get|]. subst n values textures offset channels. split.
  - unfold Macros.macroValuesText.
    rewrite (textures_placed _ _ _ _ _ Ht), textureMacros_foldl.
    destruct (valueMacros_placed (Macros.prefix state)
                (Macros.values (Macros.maps state)) t
                (FnLists.reduce
                   (Macros.textureMacros (Macros.prefix state)
                      (Macros.values (Macros.maps state)))
                   (take t (Macros.textures (Macros.maps state))) "")
                before v after w Hbefore Hv)
      as (rest & ->).
    rewrite textureMacros_foldl. eexists. by rewrite !append_assoc.
  - intros p pass b Hp Hpass Hb Hall.
    unfold Macros.macroOutputText.
    rewrite Hp. cbn [mbind option_bind Macros.orUndefined]. rewrite Hpass.
    cbn [mbind option_bind].
    destruct (attached_placed (Macros.prefix state)
                (Macros.values (Macros.maps state))
                (Macros.textures (Macros.maps state)) pass b t _
                Hb Ht Hall) as (bound & rest & Hbound & ->).
    destruct (outputMacros_placed (Macros.prefix state)
                (Macros.values (Macros.maps state)) t b bound
                before v after w Hbefore Hv) as (rest' & ->).
    cbn [mbind option_bind]. exists bound. eexists. split; [done|].
    by rewrite !append_assoc.
Qed.

(** C7, as the claim has it, fails: the values [[3, 2]], planned with up to
  5 channels in a texture, are packed into one texture; the second value, of
  2 channels, is assigned the one channel [a] left after the 3 of the first,
  in the macros of [macroValues] and in those of [macroOutput] alike. *)
Lemma channels_not_whole :
  let limits :=
    {| Maps.channelMax := Some 5; Maps.channelMin := None;
       Maps.attachMax := None; Maps.packed := true |} in
  let state :=
    {| Macros.macros := Macros.HookDefault; Macros.pre := Some "";
       Macros.bound := None; Macros.steps := 2; Macros.count := None;
       Macros.passNow := Some 0; Macros.glsl := None; Macros.merge := false;
       Macros.maps :=
         {| Macros.values := [3; 2]; Macros.textures := [[0; 1]];
            Macros.passes := [[0]]; Macros.samples := None;
            Macros.reads := None |} |} in
  sum_map id (λ made, Maps.members <$> Maps.textures made)
    (Maps.plan [3; 2] [] limits) = inr [[0; 1]] ∧
  sum_map id Maps.passes (Maps.plan [3; 2] [] limits) = inr [[0]] ∧
  (Macros.macroValues state "" Macros.cacheEmpty).1 =
    Some ("#define texture_0 0" +:+ Macros.nl +:+
          "#define channels_0 rgb" +:+ Macros.nl +:+ Macros.nl +:+
          "#define texture_1 0" +:+ Macros.nl +:+
          "#define channels_1 a" +:+ Macros.nl +:+ Macros.nl +:+
          "#define textures 1" +:+ Macros.nl +:+
          "#define passes 1" +:+ Macros.nl +:+
          "#define stepsPast 1" +:+ Macros.nl +:+
          "#define steps 2" +:+ Macros.nl +:+
          "#define bound 1" +:+ Macros.nl +:+ Macros.nl) ∧
  (Macros.macroOutput state "" Macros.cacheEmpty).1 =
    Some ("#define passNow 0" +:+ Macros.nl +:+ Macros.nl +:+
          "#define bound_0 0" +:+ Macros.nl +:+
          "#define attach_0 0" +:+ Macros.nl +:+
          "#define output_0 gl_FragData[attach_0].rgb" +:+ Macros.nl +:+
          Macros.nl +:+
          "#define bound_1 0" +:+ Macros.nl +:+
          "#define attach_1 0" +:+ Macros.nl +:+
          "#define output_1 gl_FragData[attach_1].a" +:+ Macros.nl +:+
          Macros.nl) ∧
  [3; 2] !! 1 = Some 2 ∧
  String.length "a" ≠ 2.
Proof. by vm_compute. Qed.

(** ** Properties of the macros: the steps past *)

(** C5, as the code has it: the count of steps past that [macroValues]
  defines is the number of steps less the steps bound as outputs (1 if not
  given); no derive takes part in it.  The macros handled here are the text
  before, this definition, and the text after. *)
Theorem stepsPast_defined state :
  Macros.stepsPast state =
    (Z.of_nat (Macros.steps state) -
     Z.of_nat (default Const.boundDef (Macros.bound state)))%Z ∧
  Macros.macroValuesText state =
    (FnLists.reduce
       (Macros.textureMacros (Macros.prefix state)
          (Macros.values (Macros.maps state)))
       (Macros.textures (Macros.maps state)) "" +:+
     match Macros.count state with
     | Some (S c) => "#define count " +:+ pretty (S c) +:+ Macros.nl
     | _ => ""
     end +:+
     "#define " +:+ Macros.prefix state +:+ "textures " +:+
       pretty (length (Macros.textures (Macros.maps state))) +:+ Macros.nl +:+
     "#define " +:+ Macros.prefix state +:+ "passes " +:+
       pretty (length (Macros.passes (Macros.maps state))) +:+ Macros.nl) +:+
    ("#define " +:+ Macros.prefix state +:+ "stepsPast " +:+
       pretty (Z.of_nat (Macros.steps state) -
               Z.of_nat (default Const.boundDef (Macros.bound state)))%Z +:+
       Macros.nl) +:+
    ("#define " +:+ Macros.prefix state +:+ "steps " +:+
       pretty (Macros.steps state) +:+ Macros.nl +:+
     "#define " +:+ Macros.prefix state +:+ "bound " +:+
       pretty (default Const.boundDef (Macros.bound state)) +:+ Macros.nl +:+
       Macros.nl).
Proof.
  split; [done|]. unfold Macros.macroValuesText, Macros.stepsPast, Macros.boundOf.
  by rewrite !append_assoc.
Qed.

(** C5, as the claim has it, fails: with the values and derives of the
  example of [macroPass] and 3 steps, the derives refer to 1 step past at
  most, and the count of steps past defined is 2. *)
Lemma stepsPast_not_derived :
  let derives :=
    [[Maps.DeriveValue 0 2]; []; [Maps.DeriveValue 1 0; Maps.DeriveAll 0]] in
  let state :=
    {| Macros.macros := Macros.HookDefault; Macros.pre := Some "";
       Macros.bound := None; Macros.steps := 3; Macros.count := Some 32;
       Macros.passNow := Some 1; Macros.glsl := None; Macros.merge := false;
       Macros.maps :=
         {| Macros.values := [2; 4; 1]; Macros.textures := [[1]; [0; 2]];
            Macros.passes := [[0]; [1]]; Macros.samples := None;
            Macros.reads := None |} |} in
  Maps.pastSteps derives = 1 ∧
  Macros.stepsPast state = 2%Z ∧
  Macros.stepsPast state ≠ Z.of_nat (Maps.pastSteps derives) ∧
  (Macros.macroValues state "" Macros.cacheEmpty).1 =
    Some ("#define texture_1 0" +:+ Macros.nl +:+
          "#define channels_1 rgba" +:+ Macros.nl +:+ Macros.nl +:+
          "#define texture_0 1" +:+ Macros.nl +:+
          "#define channels_0 rg" +:+ Macros.nl +:+ Macros.nl +:+
          "#define texture_2 1" +:+ Macros.nl +:+
          "#define channels_2 b" +:+ Macros.nl +:+ Macros.nl +:+
          "#define count 32" +:+ Macros.nl +:+
          "#define textures 2" +:+ Macros.nl +:+
          "#define passes 2" +:+ Macros.nl +:+
          "#define stepsPast 2" +:+ Macros.nl +:+
          "#define steps 3" +:+ Macros.nl +:+
          "#define bound 1" +:+ Macros.nl +:+ Macros.nl).
Proof. by vm_compute. Qed.

(** ** Properties of [gpgpu]: the attachments limit *)

(** C6, as the code has it: when the caller leaves out [buffersMax], the
  limit that planning goes by is the [maxDrawbuffers] of the [api], and 1
  only if that is left out as well; a [buffersMax] given is used as it is. *)
Theorem buffersMax_default channelMax channelMin packed maxDrawbuffers given :
  Maps.attachMaxOf
    {| Maps.channelMax := channelMax; Maps.channelMin := channelMin;
       Maps.attachMax := Main.buffersMax None maxDrawbuffers;
       Maps.packed := packed |} = default 1 maxDrawbuffers ∧
  Maps.attachMaxOf
    {| Maps.channelMax := channelMax; Maps.channelMin := channelMin;
       Maps.attachMax := Main.buffersMax None None;
       Maps.packed := packed |} = Const.buffersMaxDef ∧
  Maps.attachMaxOf
    {| Maps.channelMax := channelMax; Maps.channelMin := channelMin;
       Maps.attachMax := Main.buffersMax (Some given) maxDrawbuffers;
       Maps.packed := packed |} = given.
Proof. by destruct maxDrawbuffers. Qed.

(** C6, as the claim has it, fails: with no [buffersMax] given and an [api]
  that can bind 4 textures in a draw call, planning goes by 4 attachments,
  and the 2 textures of the values [[2, 4, 1]] are bound in one pass. *)
Lemma buffersMax_not_1 :
  let limits :=
    {| Maps.channelMax := None; Maps.channelMin := None;
       Maps.attachMax := Main.buffersMax None (Some 4); Maps.packed := true |} in
  Maps.attachMaxOf limits = 4 ∧
  Maps.attachMaxOf limits ≠ 1 ∧
  sum_map id Maps.passes (Maps.plan [2; 4; 1] [] limits) = inr [[0; 1]].
Proof. by vm_compute. Qed.

(** ** Properties of the update step *)

Section StepFacts.
Import Step.

Lemma nextStep_increments stepNow :
  nextStep stepNow = match stepNow with Some s => (s + 1)%Z | None => 0%Z end.
Proof. destruct stepNow as [s|]; simpl; [|done]. case_decide; lia. Qed.

Lemma draws_app calls calls' : draws (calls ++ calls') = draws calls ++ draws calls'.
Proof. apply omap_app. Qed.

(** Upon a pass: the step and passes of the properties stay, and one draw
  call is made. *)
Lemma onEach_draw hooks acc p i :
  stepNow (onEach hooks acc p i).1 = stepNow acc.1 ∧
  passes (onEach hooks acc p i).1 = passes acc.1 ∧
  draws (onEach hooks acc p i).2 = draws acc.2 ++ [(i, p)].
Proof.
  destruct acc as [stepProps calls]. unfold onEach. simpl.
  split; [done|]. split; [done|].
  rewrite draws_app. f_equal. by destruct (mergeUpdate hooks).
Qed.

(** The passes from an index on: one draw call for each, in order. *)
Lemma onEach_draws hooks ps i acc :
  let made := FnLists.reduceFrom (onEach hooks) i ps acc in
  stepNow made.1 = stepNow acc.1 ∧
  passes made.1 = passes acc.1 ∧
  draws made.2 = draws acc.2 ++ imap (λ j p, (i + j, p)) ps.
Proof.
  revert i acc. induction ps as [|p ps IH]; intros i acc; simpl.
  - by rewrite app_nil_r.
  - destruct (IH (S i) (onEach hooks acc p i)) as (Hstep & Hpasses & Hdraws).
    destruct (onEach_draw hooks acc p i) as (Hstep' & Hpasses' & Hdraws').
    split; [congruence|]. split; [congruence|].
    rewrite Hdraws, Hdraws', Nat.add_0_r, <-app_assoc. simpl. do 2 f_equal.
    apply imap_ext. intros j q _. simpl. f_equal. lia.
Qed.

End StepFacts.

(** C9: a call of the step function.  It sets [stepNow] to one more than it
  was, or to 0 if it was not set, and then makes one draw call for each
  entry of the passes of the properties of the step, in their order; these
  are the properties given, unless a callback upon the step gives others.
  With no callbacks, the calls made are, for each pass in order, the draw
  call with the new step and the index of the pass as the active ones, and
  after it the update of the merged texture, if any. *)
Theorem run_draws hooks props :
  let next := match Step.stepNow props with Some s => (s + 1)%Z | None => 0%Z end in
  let stepped :=
    {| Step.stepNow := Some next; Step.passNow := Step.passNow props;
       Step.passes := Step.passes props |} in
  Step.stepNow (Step.run hooks props).1 = Some next ∧
  Step.draws (Step.run hooks props).2 =
    imap (λ i p, (i, p)) (Step.passes (Step.stepPropsOf hooks stepped).1) ∧
  Step.stepPropsOf
    {| Step.onStep := None; Step.onPass := Step.onPass hooks;
       Step.mergeUpdate := Step.mergeUpdate hooks |} stepped = (stepped, true) ∧
  (Step.run
     {| Step.onStep := None; Step.onPass := None;
        Step.mergeUpdate := Step.mergeUpdate hooks |} props).2 =
    mjoin (imap (λ i p,
        let passProps :=
          {| Step.stepNow := Some next; Step.passNow := Some i;
             Step.passes := Step.passes props |} in
        Step.Draw i p passProps ::
          (if Step.mergeUpdate hooks then [Step.Update passProps] else []))
      (Step.passes props)).
Proof.
  intros next stepped.
  assert (Step.nextStep (Step.stepNow props) = next) as Hnext
    by apply nextStep_increments.
  split; [|split; [|split; [done|]]].
  - unfold Step.run. rewrite Hnext. fold stepped.
    destruct (Step.stepPropsOf hooks stepped) as [stepProps same] eqn:Hprops.
    pose proof (onEach_draws hooks (Step.passes stepProps) 0 (stepProps, []))
      as (Hstep & _ & _).
    unfold FnLists.reduce.
    destruct (FnLists.reduceFrom _ _ _ _) as [stepProps' calls]. simpl in *.
    destruct same; [|done]. rewrite Hstep.
    unfold Step.stepPropsOf in Hprops.
    destruct (Step.onStep hooks ≫= _) as [[|other]|]; by inversion Hprops.
  - unfold Step.run. rewrite Hnext. fold stepped.
    destruct (Step.stepPropsOf hooks stepped) as [stepProps same].
    pose proof (onEach_draws hooks (Step.passes stepProps) 0 (stepProps, []))
      as (_ & _ & Hdraws).
    unfold FnLists.reduce.
    by destruct (FnLists.reduceFrom _ _ _ _) as [stepProps' calls].
  - unfold Step.run. rewrite Hnext. fold stepped. simpl.
    unfold FnLists.reduce.
    enough (H : ∀ ps i passNow calls,
      (FnLists.reduceFrom
         (Step.onEach {| Step.onStep := None; Step.onPass := None;
                         Step.mergeUpdate := Step.mergeUpdate hooks |})
         i ps ({| Step.stepNow := Some next; Step.passNow := passNow;
                  Step.passes := Step.passes props |}, calls)).2 =
      calls ++ mjoin (imap (λ j p,
        Step.Draw (i + j) p
          {| Step.stepNow := Some next; Step.passNow := Some (i + j);
             Step.passes := Step.passes props |} ::
          (if Step.mergeUpdate hooks
           then [Step.Update
                   {| Step.stepNow := Some next; Step.passNow := Some (i + j);
                      Step.passes := Step.passes props |}]
           else [])) ps)).
    { specialize (H (Step.passes props) 0 (Step.passNow props) []).
      destruct (FnLists.reduceFrom _ _ _ _) as [stepProps' calls].
      simpl in *. by rewrite H. }
    induction ps as [|p ps IH]; intros i passNow calls; simpl.
    + by rewrite app_nil_r.
    + rewrite IH, Nat.add_0_r, <-!app_assoc. simpl. do 4 f_equal.
      apply imap_ext. intros j q _. simpl.
      by replace (i + S j) with (S (i + j)) by lia.
Qed.

(** ** Properties of the planner *)

Section GroupFacts.
Import Maps.

Lemma groupInto_concat attachMax current textures :
  concat (groupInto attachMax current textures) = current ++ textures.
Proof.
  revert current. induction textures as [|t rest IH]; intros current; simpl.
  - destruct current; simpl; by rewrite ?app_nil_r.
  - case_decide; simpl; rewrite IH; [by rewrite <-app_assoc | done].
Qed.

Lemma groupInto_bound attachMax current textures :
  1 ≤ attachMax → length current ≤ attachMax →
  Forall (λ pass, length pass ≤ attachMax) (groupInto attachMax current textures).
Proof.
  intros Hmax. revert current.
  induction textures as [|t rest IH]; intros current Hcurrent; simpl.
  - destruct current; [constructor | by repeat constructor].
  - case_decide.
    + apply IH. rewrite length_app. simpl. lia.
    + constructor; [done|]. apply IH. simpl. lia.
Qed.

Lemma check_attachMax values derives limits :
  check values derives limits = None → 1 ≤ attachMaxOf limits.
Proof. unfold check. repeat case_decide; try done. lia. Qed.

Lemma check_configuration values derives limits error :
  check values derives limits = Some error →
  ∃ what index, error = ConfigurationError what index.
Proof.
  unfold check, checkValues, checkDerives.
  repeat case_decide; try (intros [= <-]; eauto; fail).
  destruct (list_find _ values) as [found|]; simpl; [intros [= <-]; eauto|].
  destruct (list_find _ derives) as [found|]; simpl; [intros [= <-]; eauto|done].
Qed.

Lemma check_wide values derives limits i w :
  values !! i = Some w → channelMaxOf limits < w →
  is_Some (check values derives limits).
Proof.
  intros Hi Hwide. unfold check, checkValues.
  repeat case_decide; try by eexists.
  destruct (list_find (λ w, channelMaxOf limits < w) values) as [found|] eqn:Hfind;
    simpl; [by eexists|].
  apply list_find_None in Hfind.
  rewrite Forall_lookup in Hfind. by destruct (Hfind _ _ Hi).
Qed.

End GroupFacts.

(** C4: the passes of a plan.  When planning gives a plan, each of its
  passes has at most [attachMax] textures, and its passes one after another
  are the textures of the plan in their order, each index once. *)
Theorem passes_grouped values derives limits p :
  Maps.plan values derives limits = inr p →
  Forall (λ pass, length pass ≤ Maps.attachMaxOf limits) (Maps.passes p) ∧
  concat (Maps.passes p) = seq 0 (length (Maps.textures p)) ∧
  NoDup (concat (Maps.passes p)).
Proof.
  unfold Maps.plan.
  destruct (Maps.check values derives limits) as [error|] eqn:Hcheck; [done|].
  destruct (Maps.resolveSamples _ _ derives) as [resolved|]; [|done].
  intros [= <-]. simpl. unfold Maps.group.
  split; [|split].
  - apply groupInto_bound; [by eapply check_attachMax | simpl; lia].
  - by rewrite groupInto_concat.
  - rewrite groupInto_concat. apply NoDup_seq.
Qed.

(** C8: a value wider than [channelMax].  Planning then gives a
  configuration error, and no plan. *)
Theorem wide_value_rejected values derives limits i w :
  values !! i = Some w → Maps.channelMaxOf limits < w →
  (∃ what index,
     Maps.plan values derives limits = inl (Maps.ConfigurationError what index)) ∧
  ∀ p, Maps.plan values derives limits ≠ inr p.
Proof.
  intros Hi Hwide.
  destruct (check_wide values derives limits i w Hi Hwide) as [error Hcheck].
  destruct (check_configuration _ _ _ _ Hcheck) as (what & index & ->).
  unfold Maps.plan. rewrite Hcheck. split; [by eexists _, _ | done].
Qed.

Section SampleFacts.
Import Maps.
Implicit Types (samples seen needs : list (nat * nat)) (c : nat * nat).

Lemma firstSeen_elem_of c seen : c ∈ firstSeen seen ↔ c ∈ seen.
Proof.
  induction seen as [|x seen IH]; simpl; [done|].
  rewrite !elem_of_cons, list_elem_of_filter, IH.
  destruct (decide (c = x)); tauto.
Qed.

Lemma firstSeen_NoDup seen : NoDup (firstSeen seen).
Proof.
  induction seen as [|x seen IH]; simpl; [constructor|].
  constructor; [|by apply NoDup_filter].
  rewrite list_elem_of_filter. tauto.
Qed.

(** A coordinate seen after others: one seen before changes nothing, a new
  one goes last. *)
Lemma firstSeen_snoc seen c :
  firstSeen (seen ++ [c]) =
  if decide (c ∈ seen) then firstSeen seen else firstSeen seen ++ [c].
Proof.
  induction seen as [|x seen IH]; simpl.
  - destruct (decide (c ∈ [])) as [Hin|_]; [by apply elem_of_nil in Hin | done].
  - rewrite IH. destruct (decide (c = x)) as [->|Hne].
    + rewrite (decide_True (P := x ∈ x :: seen)) by constructor.
      destruct (decide (x ∈ seen)); [done|]. rewrite filter_app, filter_cons.
      rewrite decide_False by tauto. by rewrite filter_nil, app_nil_r.
    + destruct (decide (c ∈ seen)) as [Hin|Hout].
      * by rewrite (decide_True (P := c ∈ x :: seen)) by (by constructor).
      * rewrite (decide_False (P := c ∈ x :: seen))
          by (rewrite elem_of_cons; tauto).
        rewrite filter_app, filter_cons. by rewrite decide_True by done.
Qed.

(** Looking a coordinate up, and adding it if it is not there, keeps the
  samples as the coordinates first seen, and gives the index it is at. *)
Lemma addSample_seen seen c :
  let added := addSample (firstSeen seen) c in
  added.1 = firstSeen (seen ++ [c]) ∧
  firstSeen seen `prefix_of` added.1 ∧
  added.1 !! added.2 = Some c.
Proof.
  unfold addSample. rewrite firstSeen_snoc.
  destruct (list_find _ (firstSeen seen)) as [[i found]|] eqn:Hfind; simpl.
  - apply list_find_Some in Hfind as (Hi & -> & _).
    rewrite decide_True
      by (by eapply firstSeen_elem_of, list_elem_of_lookup_2).
    done.
  - apply list_find_None in Hfind.
    rewrite decide_False.
    + split; [done|]. split; [by apply prefix_app_r|].
      by rewrite lookup_app_r, Nat.sub_diag.
    + intros Hin%firstSeen_elem_of.
      rewrite Forall_forall in Hfind. by apply (Hfind c).
Qed.

(** The reads of the coordinates a value needs. *)
Lemma addReads_seen seen needs :
  let added := addReads (firstSeen seen) needs in
  added.1 = firstSeen (seen ++ needs) ∧
  firstSeen seen `prefix_of` added.1 ∧
  Forall2 (λ c i, added.1 !! i = Some c) needs added.2.
Proof.
  unfold addReads.
  induction needs as [|c needs IH] using rev_ind; simpl.
  - rewrite app_nil_r. split; [done|]. split; [done|]. constructor.
  - rewrite foldl_snoc.
    destruct (foldl _ _ needs) as [samples reads]. simpl in IH.
    destruct IH as (-> & Hprefix & Hreads).
    pose proof (addSample_seen (seen ++ needs) c) as Hadd.
    destruct (addSample _ c) as [samples i]. simpl in *.
    destruct Hadd as (-> & Hprefix' & Hi).
    split; [by rewrite app_assoc|]. split; [by etrans|].
    apply Forall2_app; [|by repeat constructor].
    eapply Forall2_impl; [done|]. intros c' j Hj. simpl in Hj.
    destruct Hprefix' as [more ->]. by apply lookup_app_l_Some.
Qed.

(** The samples and reads of a pass, from what its values need. *)
Lemma resolvePass_seen (required : list (nat * list (nat * nat))) :
  let resolved := resolvePass required in
  resolved.1 = firstSeen (concat required.*2) ∧
  Forall2 (λ need read,
      read.1 = need.1 ∧
      Forall2 (λ c i, resolved.1 !! i = Some c) need.2 read.2)
    required resolved.2.
Proof.
  unfold resolvePass.
  induction required as [|need required IH] using rev_ind; simpl.
  - split; [done|]. constructor.
  - rewrite foldl_snoc.
    destruct (foldl _ _ required) as [samples reads]. simpl in IH.
    destruct IH as (-> & Hreads).
    pose proof (addReads_seen (concat required.*2) need.2) as Hadd.
    destruct (addReads _ need.2) as [samples indexes]. simpl in *.
    destruct Hadd as (-> & [more Hmore] & Hindexes).
    split; [by rewrite fmap_app, concat_app; simpl; rewrite app_nil_r|].
    apply Forall2_app; [|by repeat constructor].
    eapply Forall2_impl; [done|]. intros need' read [Hvalue Hread].
    split; [done|]. eapply Forall2_impl; [done|]. intros c' j Hj. simpl in Hj.
    rewrite Hmore. by apply lookup_app_l_Some.
Qed.

End SampleFacts.

(** C3: the samples of a pass.  When planning gives a plan, then for each of
  its passes: what each value written in the pass requires resolves to
  coordinates; the samples of the pass are these coordinates in the order
  they are first seen, none twice; and each coordinate required has a read
  index, at which the samples hold it, and they hold it nowhere else. *)
Theorem samples_resolved values derives limits p k pass :
  Maps.plan values derives limits = inr p →
  Maps.passes p !! k = Some pass →
  ∃ required samples reads,
    Maps.requirements (Maps.textures p) derives pass = Some required ∧
    Maps.samples p !! k = Some samples ∧
    Maps.reads p !! k = Some reads ∧
    NoDup samples ∧
    samples = firstSeen (concat required.*2) ∧
    Forall2 (λ need read,
        read.1 = need.1 ∧
        Forall2 (λ c i,
            samples !! i = Some c ∧ ∀ j, samples !! j = Some c → j = i)
          need.2 read.2)
      required reads.
Proof.
  unfold Maps.plan.
  destruct (Maps.check values derives limits) as [error|]; [done|].
  destruct (Maps.resolveSamples _ _ derives) as [resolved|] eqn:Hresolved; [|done].
  intros [= <-]. simpl. intros Hpass.
  apply mapM_Some in Hresolved.
  destruct (Forall2_lookup_l _ _ _ _ _ Hresolved Hpass) as ([samples reads] & Hk & Hmade).
  destruct (Maps.requirements _ derives pass) as [required|]; [|done].
  simpl in Hmade. injection Hmade as Hmade.
  pose proof (resolvePass_seen required) as Hseen. rewrite Hmade in Hseen.
  simpl in Hseen. destruct Hseen as [Hsamples Hreads].
  assert (NoDup samples) as Hnodup by (rewrite Hsamples; apply firstSeen_NoDup).
  exists required, samples, reads.
  rewrite !list_lookup_fmap, Hk. simpl.
  do 5 (split; [done|]).
  eapply Forall2_impl; [done|]. intros need read [Hvalue Hread].
  split; [done|]. eapply Forall2_impl; [done|]. intros c i Hi. simpl in Hi.
  split; [done|]. intros j Hj. by eapply NoDup_lookup.
Qed.

(** ** Properties of the state set-up: the channels *)

Section ChannelsFacts.
Import State.
Implicit Types (values pass among : list nat) (texturesMap passes : list (list nat)).

Lemma max_list_append (l k : list nat) :
  max_list (l ++ k) = max_list l `max` max_list k.
Proof. induction l as [|x l IH]; simpl; [done|]. rewrite IH. lia. Qed.

Lemma widths_app values texturesMap among among' :
  widths values texturesMap (among ++ among') =
  widths values texturesMap among ++ widths values texturesMap among'.
Proof. apply omap_app. Qed.

Lemma widths_cons values texturesMap t among :
  widths values texturesMap (t :: among) =
  match texturesMap !! t ≫= packed values with
  | Some w => w :: widths values texturesMap among
  | None => widths values texturesMap among
  end.
Proof. done. Qed.

(** The channels of a pass, as a fold over its textures. *)
Lemma passChannels_cons values texturesMap t pass min :
  passChannels values texturesMap (t :: pass) min =
  passChannels values texturesMap pass
    (m ← min; w ← texturesMap !! t ≫= packed values; Some (m `max` w)).
Proof.
  unfold passChannels, FnLists.reduce. simpl.
  rewrite !(reduceFrom_foldl (λ min t,
    m ← min; group ← texturesMap !! t; w ← packed values group; Some (m `max` w))).
  f_equal. destruct min as [m|]; simpl; [|done]. by destruct (texturesMap !! t).
Qed.

Lemma passChannels_None values texturesMap pass :
  passChannels values texturesMap pass None = None.
Proof.
  induction pass as [|t pass IH]; [done|]. by rewrite passChannels_cons.
Qed.

(** When they are a number, each texture of the pass takes a number of
  channels, and they are the most that any takes, or the minimum. *)
Lemma passChannels_Some values texturesMap pass m c :
  passChannels values texturesMap pass (Some m) = Some c →
  Forall (λ t, is_Some (texturesMap !! t ≫= packed values)) pass ∧
  c = m `max` max_list (widths values texturesMap pass).
Proof.
  revert m. induction pass as [|t pass IH]; intros m.
  - intros [= <-]. split; [constructor|]. simpl. lia.
  - rewrite passChannels_cons, widths_cons.
    destruct (texturesMap !! t ≫= packed values) as [w|] eqn:Hw; simpl.
    + intros [Hall ->]%IH. split; [constructor; [by rewrite Hw|done]|]. lia.
    + by rewrite passChannels_None.
Qed.

Lemma mergeChannels_cons values texturesMap pass passes min :
  FnLists.reduceFrom (λ min p (_ : nat), passChannels values texturesMap p min)
    0 (pass :: passes) min =
  FnLists.reduceFrom (λ min p (_ : nat), passChannels values texturesMap p min)
    0 passes (passChannels values texturesMap pass min).
Proof.
  by rewrite !(reduceFrom_foldl (λ min p, passChannels values texturesMap p min)).
Qed.

Lemma mergeChannels_Some values texturesMap passes channelsMin c :
  mergeChannels values texturesMap passes channelsMin = Some c →
  Forall (λ t, is_Some (texturesMap !! t ≫= packed values)) (concat passes) ∧
  c = channelsMin `max` max_list (widths values texturesMap (concat passes)).
Proof.
  unfold mergeChannels, FnLists.reduce. generalize channelsMin as m.
  induction passes as [|pass passes IH]; intros m.
  - intros [= <-]. split; [constructor|]. simpl. lia.
  - rewrite mergeChannels_cons.
    destruct (passChannels values texturesMap pass (Some m)) as [m'|] eqn:Hpass.
    + apply passChannels_Some in Hpass as [Hpass ->].
      intros [Hall ->]%IH. simpl. split; [by apply Forall_app|].
      rewrite widths_app, max_list_append. lia.
    + intros Hnone. exfalso. revert Hnone. clear.
      induction passes as [|p passes IH]; [done|].
      by rewrite mergeChannels_cons, passChannels_None.
Qed.

End ChannelsFacts.

(** ** Properties of the state set-up: the textures of the passes *)

Section BoundFacts.
Import State.
Variable texturesMap : list (list nat).
Variable values : list nat.
Variable channelsMin : nat.
Variable merging : bool.
Variable pool : option nat.
Variable passes : list (list nat).

Implicit Type b : Build.

Lemma addTexture_bound channels step p pass index c color b :
  passes !! p = Some pass → index ∈ pass →
  channelsOf texturesMap values channelsMin pool pass = Some channels →
  Built.bound texturesMap values channelsMin pool passes b →
  Built.bound texturesMap values channelsMin pool passes
    (addTexture texturesMap channels step p index c color b).2.
Proof.
  intros Hp Hindex Hchannels Hb key made. unfold addTexture.
  destruct (color !! c) as [t|]; simpl;
    (rewrite lookup_insert_Some; intros [[<- <-]|[_ Hkey]];
     [by exists p, pass | by apply Hb]).
Qed.

Lemma addTextures_bound channels step p pass among i out b :
  passes !! p = Some pass → among ⊆ pass →
  channelsOf texturesMap values channelsMin pool pass = Some channels →
  Built.bound texturesMap values channelsMin pool passes b →
  Built.bound texturesMap values channelsMin pool passes
    (FnLists.reduceFrom (λ '(out, b) t c,
           let '(made, b) := addTexture texturesMap channels step p t c out b in
           (setAt c made out, b)) i among (out, b)).2.
Proof.
  intros Hp Hamong Hchannels. revert i out b.
  induction among as [|t among IH]; intros i out b Hb; simpl; [done|].
  pose proof (addTexture_bound channels step p pass t i out b Hp) as Hadd.
  destruct (addTexture _ _ _ _ _ _ _ _) as [made b']. simpl in Hadd.
  apply IH; [set_solver|]. apply Hadd; [set_solver|done..].
Qed.

Lemma addPass_bound step pass index b made b' :
  passes !! index = Some pass →
  addPass texturesMap values channelsMin merging pool step pass index b
    = Some (made, b') →
  Built.bound texturesMap values channelsMin pool passes b →
  Built.bound texturesMap values channelsMin pool passes b'.
Proof.
  intros Hindex. unfold addPass.
  destruct (channelsOf _ _ _ _ pass) as [channels|] eqn:Hchannels; [|done]. simpl.
  pose proof (addTextures_bound channels step index pass pass 0
                (if merging then default [] (colorPool b) else []) b
                Hindex (reflexivity _) Hchannels) as Hadd.
  unfold addTextures, FnLists.reduce.
  destruct (FnLists.reduceFrom _ _ _ _) as [color b1]. simpl in Hadd.
  intros [= _ <-] Hb key tex Hkey. by apply (Hadd Hb key tex).
Qed.

Lemma addPasses_bound step among i out b made b' :
  (∀ j pass, among !! j = Some pass → passes !! (i + j) = Some pass) →
  FnLists.reduceFrom (λ acc pass index,
      '(out, b) ← acc;
      '(made, b) ← addPass texturesMap values channelsMin merging pool
                     step pass index b;
      Some (out ++ [made], b))
    i among (Some (out, b)) = Some (made, b') →
  Built.bound texturesMap values channelsMin pool passes b →
  Built.bound texturesMap values channelsMin pool passes b'.
Proof.
  revert i out b. induction among as [|pass among IH]; intros i out b Hamong; simpl.
  - by intros [= _ <-].
  - destruct (addPass _ _ _ _ _ step pass i b) as [[fb b1]|] eqn:Hpass; simpl.
    + intros Hrest Hb. eapply (IH (S i)); [|done|].
      * intros j q Hj. replace (S i + j) with (i + S j) by lia. by apply Hamong.
      * eapply addPass_bound; [|done..].
        specialize (Hamong 0 pass eq_refl). by rewrite Nat.add_0_r in Hamong.
    + intros Hnone. exfalso. revert Hnone. clear. generalize (S i).
      induction among as [|q among IH]; intros j; [done|]. apply IH.
Qed.

Lemma addSteps_bound steps i out b made b' :
  FnLists.reduceFrom (λ acc given step,
      '(out, b) ← acc;
      match given with
      | Some g => Some (out ++ [StepGiven g], b)
      | None =>
          '(made, b) ← addPasses texturesMap values channelsMin merging pool
                         step passes b;
          Some (out ++ [StepMade made], b)
      end)
    i steps (Some (out, b)) = Some (made, b') →
  Built.bound texturesMap values channelsMin pool passes b →
  Built.bound texturesMap values channelsMin pool passes b'.
Proof.
  revert i out b. induction steps as [|given steps IH]; intros i out b; simpl.
  - by intros [= _ <-].
  - destruct given as [g|]; [apply IH|].
    destruct (addPasses _ _ _ _ _ i passes b) as [[fbs b1]|] eqn:Hpasses; simpl.
    + intros Hrest Hb. eapply IH; [done|].
      eapply (addPasses_bound i passes 0 [] b); [done|done|done].
    + intros Hnone. exfalso. revert Hnone. clear. generalize (S i).
      induction steps as [|q steps IH]; intros j; [done|]. apply IH.
Qed.

End BoundFacts.

(** ** Properties of the state set-up: the shared attachments *)

Section PoolFacts.
Import State.
Variable texturesMap : list (list nat).
Variable values : list nat.
Variable channelsMin : nat.
Variable channels : nat.

Lemma length_setAt i x out :
  i ≤ length out → length (setAt i x out) = length out `max` S i.
Proof.
  intros Hi. unfold setAt. case_decide.
  - rewrite length_insert. lia.
  - rewrite length_app. simpl. lia.
Qed.

(** A texture of a pass: one is made only past the end of those to reuse. *)
Lemma addTexture_pooled step p index c out b :
  c ≤ length out → Built.pooled channels out b →
  let added := addTexture texturesMap channels step p index c out b in
  Built.pooled channels (setAt c added.1 out) added.2.
Proof.
  intros Hc (Hcreated & Hsize & Hall). unfold addTexture.
  destruct (out !! c) as [t|] eqn:Hout; simpl.
  - apply lookup_lt_Some in Hout.
    unfold Built.pooled. simpl. unfold setAt.
    rewrite decide_True by done. by rewrite length_insert.
  - apply lookup_ge_None in Hout.
    unfold Built.pooled. simpl. unfold setAt.
    rewrite decide_False by lia. rewrite !length_app. simpl.
    split; [lia|]. split; [lia|]. apply Forall_app. by repeat constructor.
Qed.

Lemma addTextures_pooled step p among i out b :
  i ≤ length out → Built.pooled channels out b →
  let added := FnLists.reduceFrom (λ '(out, b) t c,
      let '(made, b) := addTexture texturesMap channels step p t c out b in
      (setAt c made out, b)) i among (out, b) in
  Built.pooled channels added.1 added.2 ∧
  length added.1 = length out `max` (i + length among) ∧
  passesMade added.2 = passesMade b.
Proof.
  revert i out b. induction among as [|t among IH]; intros i out b Hi Hb; simpl.
  - split; [done|]. split; [lia|done].
  - pose proof (addTexture_pooled step p t i out b Hi Hb) as Hadd.
    assert (passesMade (addTexture texturesMap channels step p t i out b).2
            = passesMade b) as Hpasses
      by (unfold addTexture; by destruct (out !! i)).
    destruct (addTexture _ _ _ _ _ _ _ _) as [made b1]. simpl in Hadd, Hpasses.
    pose proof (length_setAt i made out Hi) as Hlength.
    destruct (IH (S i) (setAt i made out) b1) as (Hpooled & Hlength' & Hpasses');
      [lia|done|].
    split; [done|]. split; [lia|congruence].
Qed.

(** A pass, merging: the shared list grows to the textures of the pass, if
  these are more. *)
Lemma addPass_pooled step pass index b made b' :
  addPass texturesMap values channelsMin true (Some channels) step pass index b
    = Some (made, b') →
  Built.pooled channels (default [] (colorPool b)) b → Built.shared b →
  Built.pooled channels (default [] (colorPool b')) b' ∧ Built.shared b' ∧
  length (default [] (colorPool b')) =
    length (default [] (colorPool b)) `max` length pass.
Proof.
  unfold addPass. simpl. intros Hmade Hb Hshared.
  pose proof (addTextures_pooled step index pass 0 (default [] (colorPool b)) b
                (Nat.le_0_l _) Hb) as Hadd.
  unfold addTextures, FnLists.reduce in Hmade.
  destruct (FnLists.reduceFrom _ _ _ _) as [color b1]. simpl in Hadd.
  destruct Hadd as ((Hcreated & Hsize & Hall) & Hlength & Hpasses).
  injection Hmade as _ <-. simpl. split; [done|]. split; [|done].
  intros key q. simpl. rewrite lookup_insert_Some, Hpasses.
  intros [[_ <-]|[_ Hkey]]; [done | by apply (Hshared key)].
Qed.

Lemma addPasses_pooled step among i out b made b' :
  FnLists.reduceFrom (λ acc pass index,
      '(out, b) ← acc;
      '(made, b) ← addPass texturesMap values channelsMin true (Some channels)
                     step pass index b;
      Some (out ++ [made], b))
    i among (Some (out, b)) = Some (made, b') →
  Built.pooled channels (default [] (colorPool b)) b → Built.shared b →
  Built.pooled channels (default [] (colorPool b')) b' ∧ Built.shared b' ∧
  length (default [] (colorPool b')) =
    length (default [] (colorPool b)) `max` max_list (length <$> among).
Proof.
  revert i out b. induction among as [|pass among IH]; intros i out b; simpl.
  - intros [= _ <-] Hb Hshared. split; [done|]. split; [done|lia].
  - destruct (addPass _ _ _ _ _ step pass i b) as [[fb b1]|] eqn:Hpass; simpl.
    + intros Hrest Hb Hshared.
      destruct (addPass_pooled _ _ _ _ _ _ Hpass Hb Hshared)
        as (Hb1 & Hshared1 & Hlength1).
      destruct (IH _ _ _ Hrest Hb1 Hshared1) as (Hb' & Hshared' & Hlength').
      split; [done|]. split; [done|]. rewrite Hlength', Hlength1. change (list_fmap _ _ length among) with (length <$> among). lia.
    + intros Hnone. exfalso. revert Hnone. clear. generalize (S i).
      induction among as [|q among IH]; intros j; [done|]. apply IH.
Qed.

Lemma addSteps_pooled passes steps i out b made b' :
  FnLists.reduceFrom (λ acc given step,
      '(out, b) ← acc;
      match given with
      | Some g => Some (out ++ [StepGiven g], b)
      | None =>
          '(made, b) ← addPasses texturesMap values channelsMin true
                         (Some channels) step passes b;
          Some (out ++ [StepMade made], b)
      end)
    i steps (Some (out, b)) = Some (made, b') →
  Built.pooled channels (default [] (colorPool b)) b → Built.shared b →
  Built.pooled channels (default [] (colorPool b')) b' ∧ Built.shared b' ∧
  length (default [] (colorPool b')) =
    length (default [] (colorPool b)) `max`
      (if decide (None ∈ steps) then max_list (length <$> passes) else 0).
Proof.
  revert i out b. induction steps as [|given steps IH]; intros i out b.
  - intros [= _ <-] Hb Hshared. split; [done|]. split; [done|].
    rewrite decide_False by apply not_elem_of_nil. lia.
  - cbn [FnLists.reduceFrom mbind option_bind]. destruct given as [g|].
    + intros Hrest Hb Hshared.
      destruct (IH _ _ _ Hrest Hb Hshared) as (Hb' & Hshared' & Hlength').
      split; [done|]. split; [done|]. rewrite Hlength'.
      destruct (decide (None ∈ steps)) as [Hin|Hout].
      * by rewrite decide_True by (by constructor).
      * rewrite decide_False; [done|]. rewrite elem_of_cons.
        by intros [Heq|Hin].
    + destruct (addPasses _ _ _ _ _ i passes b) as [[fbs b1]|] eqn:Hpasses;
        cbn [mbind option_bind].
      * intros Hrest Hb Hshared.
        destruct (addPasses_pooled i passes 0 [] b _ _ Hpasses Hb Hshared)
          as (Hb1 & Hshared1 & Hlength1).
        destruct (IH _ _ _ Hrest Hb1 Hshared1) as (Hb' & Hshared' & Hlength').
        split; [done|]. split; [done|].
        rewrite decide_True by constructor. rewrite Hlength', Hlength1.
        destruct (decide (None ∈ steps)); lia.
      * intros Hnone. exfalso. revert Hnone. clear. generalize (S i).
        induction steps as [|q steps IH]; intros j; [done|]. apply IH.
Qed.

End PoolFacts.

Section SetUpFacts.
Import State.

Lemma start_bound texturesMap values channelsMin pool passes :
  Built.bound texturesMap values channelsMin pool passes start.
Proof. intros key made. unfold start. simpl. by rewrite lookup_empty. Qed.

Lemma start_pooled channels : Built.pooled channels [] start.
Proof. repeat split. constructor. Qed.

Lemma start_shared : Built.shared start.
Proof. intros key made. unfold start. simpl. by rewrite lookup_empty. Qed.

Lemma widths_elem_of values texturesMap among w :
  w ∈ widths values texturesMap among ↔
  ∃ t, t ∈ among ∧ texturesMap !! t ≫= packed values = Some w.
Proof. apply list_elem_of_omap. Qed.

Lemma elem_of_concat {A : Type} (x : A) (l : list A) (ls : list (list A)) :
  x ∈ l → l ∈ ls → x ∈ concat ls.
Proof.
  intros Hx. induction 1 as [|l' ls Hl IH]; simpl; rewrite elem_of_app; eauto.
Qed.

Lemma max_list_least (l : list nat) n : (∀ w, w ∈ l → w ≤ n) → max_list l ≤ n.
Proof.
  induction l as [|x l IH]; intros Hall; simpl; [lia|].
  apply Nat.max_lub; [apply Hall; by constructor|].
  apply IH. intros w Hw. apply Hall. by constructor.
Qed.

(** The most channels among textures, or the minimum: the least number that
  is no less than the minimum nor than the channels any of them takes. *)
Lemma channels_least values texturesMap among channelsMin :
  let channels := channelsMin `max` max_list (widths values texturesMap among) in
  channelsMin ≤ channels ∧
  (∀ t w, t ∈ among → texturesMap !! t ≫= packed values = Some w → w ≤ channels) ∧
  (∀ n, channelsMin ≤ n →
     (∀ t w, t ∈ among → texturesMap !! t ≫= packed values = Some w → w ≤ n) →
     channels ≤ n).
Proof.
  intros channels. split; [lia|]. split.
  - intros t w Ht Hw.
    assert (w ≤ max_list (widths values texturesMap among)); [|lia].
    apply max_list_elem_of_le, widths_elem_of. eauto.
  - intros n Hmin Hall. apply Nat.max_lub; [done|].
    apply max_list_least. intros w (t & Ht & Hw)%widths_elem_of. eauto.
Qed.

End SetUpFacts.

(** C2, as the code has it: the channels of a texture set up.  Each texture
  of [to.textures] is bound in a pass of the maps and has the channels of all
  the attachments of this pass, or of the attachments of all passes when
  merging (the default): the least number that is no less than the minimum
  [channelsMin] nor than the channels that the values of any texture among
  these take.  So it is no less than [channelsMin], nor than the channels
  that its own values take. *)
Theorem textures_channels state made key tex :
  State.getState state = Some made →
  State.texturesMade (State.built made) !! key = Some tex →
  let values := default Const.valuesDef (State.values (State.maps state)) in
  let channelsMin :=
    default Const.channelsMinDef (State.channelsMin (State.maps state)) in
  let texturesMap := State.textures (State.maps state) in
  ∃ p pass own,
    State.pass tex = Some p ∧
    State.passes (State.maps state) !! p = Some pass ∧
    State.index tex = Some key.2 ∧ key.2 ∈ pass ∧
    texturesMap !! key.2 ≫= State.packed values = Some own ∧
    let among :=
      match State.mergeOf (State.merge state) with
      | State.MergeOff => pass
      | State.MergeOn _ _ => concat (State.passes (State.maps state))
      end in
    State.channels tex =
      channelsMin `max` max_list (widths values texturesMap among) ∧
    channelsMin ≤ State.channels tex ∧
    own ≤ State.channels tex ∧
    (∀ t w, t ∈ among → texturesMap !! t ≫= State.packed values = Some w →
       w ≤ State.channels tex) ∧
    (∀ n, channelsMin ≤ n →
       (∀ t w, t ∈ among → texturesMap !! t ≫= State.packed values = Some w →
          w ≤ n) →
       State.channels tex ≤ n).
Proof.
  intros Hstate Hkey values channelsMin texturesMap.
  assert (∃ pool b,
    State.built made = b ∧
    Built.bound texturesMap values channelsMin pool
      (State.passes (State.maps state)) b ∧
    match State.mergeOf (State.merge state) with
    | State.MergeOff => pool = None
    | State.MergeOn _ _ =>
        ∃ c, pool = Some c ∧
          State.mergeChannels values texturesMap
            (State.passes (State.maps state)) channelsMin = Some c
    end) as (pool & b & <- & Hbound & Hpool).
  { unfold State.getState in Hstate. fold values channelsMin texturesMap in Hstate.
    destruct (State.mergeOf (State.merge state)) as [|all next].
    - destruct (State.addSteps _ _ _ _ _ _ _ _) as [[steps b]|] eqn:Hsteps;
        [|done].
      injection Hstate as <-. exists None, b. split; [done|]. split; [|done].
      eapply (addSteps_bound _ _ _ _ _ _ _ 0 []); [done|]. apply start_bound.
    - destruct (State.mergeChannels _ _ _ _) as [c|] eqn:Hmerge; [|done].
      simpl in Hstate.
      destruct (State.addSteps _ _ _ _ _ _ _ _) as [[steps b]|] eqn:Hsteps;
        [|done].
      simpl in Hstate. exists (Some c).
      assert (Built.bound texturesMap values channelsMin (Some c)
                (State.passes (State.maps state)) b) as Hb.
      { eapply (addSteps_bound _ _ _ _ _ _ _ 0 []); [done|]. apply start_bound. }
      destruct all, next; simpl in Hstate; injection Hstate as <-; simpl;
        eexists; (split; [done|]); (split; [done|]); by exists c. }
  destruct (Hbound key tex Hkey) as (p & pass & Hp & Hpass & Hindex & Hin & Hchannels).
  assert (let among :=
            match State.mergeOf (State.merge state) with
            | State.MergeOff => pass
            | State.MergeOn _ _ => concat (State.passes (State.maps state))
            end in
          key.2 ∈ among ∧
          Forall (λ t, is_Some (texturesMap !! t ≫= State.packed values)) among ∧
          State.channels tex =
            channelsMin `max` max_list (widths values texturesMap among))
    as (Hamong & Hall & Hmax).
  { destruct (State.mergeOf (State.merge state)) as [|all next]; simpl.
    - subst pool. simpl in Hchannels.
      apply passChannels_Some in Hchannels as [Hall ->]. done.
    - destruct Hpool as (c & -> & Hmerge). simpl in Hchannels.
      injection Hchannels as <-.
      apply mergeChannels_Some in Hmerge as [Hall ->].
      split; [|done]. apply (elem_of_concat _ pass); [done|].
      by eapply list_elem_of_lookup_2. }
  rewrite Forall_forall in Hall. destruct (Hall _ Hamong) as [own Hown].
  exists p, pass, own. do 5 (split; [done|]). intros among.
  destruct (channels_least values texturesMap among channelsMin)
    as (Hmin & Hmost & Hleast).
  fold among in Hmax. rewrite Hmax. split; [done|]. split; [done|].
  split; [by eapply Hmost|]. split; done.
Qed.

(** C10, as the code has it: merging (the default), with some step to set
  up.  One list of attachments is shared by each pass of each step; it holds
  as many textures as the largest pass.  These are the textures made, with
  one more, the texture that the states are merged into, unless it is given.
  Each texture made has the same channels: the most that the values of any
  texture of any pass take, or the minimum [channelsMin] if that is more;
  this is also the [channelsMin] of [to.size]. *)
Theorem attachments_shared state made all next :
  State.getState state = Some made →
  State.mergeOf (State.merge state) = State.MergeOn all next →
  None ∈ State.stepsOf (State.steps state) →
  let values := default Const.valuesDef (State.values (State.maps state)) in
  let channelsMin :=
    default Const.channelsMinDef (State.channelsMin (State.maps state)) in
  let texturesMap := State.textures (State.maps state) in
  let largest := max_list (length <$> State.passes (State.maps state)) in
  let channels :=
    channelsMin `max`
      max_list (widths values texturesMap (concat (State.passes (State.maps state)))) in
  length (default [] (State.colorPool (State.built made))) = largest ∧
  Built.shared (State.built made) ∧
  length (State.created (State.built made)) = largest + (if all then 0 else 1) ∧
  State.sizeTextures (State.size (State.built made)) =
    largest + (if all then 0 else 1) ∧
  Forall (λ c, c = channels) (State.created (State.built made)) ∧
  State.sizeChannelsMin made = channels.
Proof.
  intros Hstate Hmerge Hsteps values channelsMin texturesMap largest channels.
  unfold State.getState in Hstate. rewrite Hmerge in Hstate.
  fold values channelsMin texturesMap in Hstate.
  destruct (State.mergeChannels _ _ _ _) as [c|] eqn:Hchannels; [|done].
  apply mergeChannels_Some in Hchannels as [_ Hc]. fold channels in Hc. subst c.
  simpl in Hstate.
  destruct (State.addSteps _ _ _ _ _ _ _ _) as [[steps b]|] eqn:Hmade; [|done].
  simpl in Hstate.
  destruct (addSteps_pooled texturesMap values channelsMin channels
              (State.passes (State.maps state)) _ 0 [] State.start steps b Hmade
              (start_pooled channels) start_shared)
    as ((Hcreated & Hsize & Hall) & Hshared & Hlength).
  rewrite decide_True in Hlength by done. simpl in Hlength. fold largest in Hlength.
  rewrite Hlength in Hcreated, Hsize.
  destruct all, next; simpl in Hstate; injection Hstate as <-; simpl;
    rewrite ?length_app, ?Hcreated, ?Hsize; simpl;
    repeat split; try done; try lia;
    apply Forall_app; by repeat constructor.
Qed.

(** C10, as the claim has it, fails: with one texture in one pass and all
  else left out, two textures are made, of 4 channels each: the one
  attachment that the passes of the two steps share, and the texture that
  the states are merged into; the largest pass has one attachment. *)
Lemma textures_not_all_merged :
  let state :=
    {| State.steps := None; State.merge := None;
       State.maps := {| State.values := None; State.channelsMin := None;
                        State.textures := [[0]]; State.passes := [[0]] |} |} in
  (λ made, (State.created (State.built made),
            State.sizeTextures (State.size (State.built made))))
    <$> State.getState state = Some ([4; 4], 2) ∧
  max_list (length <$> State.passes (State.maps state)) = 1 ∧
  length [4; 4] ≠ max_list (length <$> State.passes (State.maps state)).
Proof. by vm_compute. Qed.

(** C2, as the claim has it, fails: with values of 1 and 2 channels, each in
  its own texture and pass, and a minimum of 1 channel, the texture of the
  first value is set up with 2 channels, as the other is; its value takes 1
  channel, and the least number no less than that and the minimum is 1. *)
Lemma channels_not_own_width :
  let state :=
    {| State.steps := None; State.merge := None;
       State.maps := {| State.values := Some [1; 2]; State.channelsMin := Some 1;
                        State.textures := [[0]; [1]];
                        State.passes := [[0]; [1]] |} |} in
  (made ← State.getState state;
   tex ← State.texturesMade (State.built made) !! (0, 0);
   Some (State.map tex, State.channels tex)) = Some (Some [0], 2) ∧
  State.packed [1; 2] [0] = Some 1 ∧
  2 ≠ 1 `max` 1.
Proof. by vm_compute. Qed.

(** ** More on the cache of the macros: its keys *)

Section KeyFacts.
Import Macros.

Lemma macroValuesKey_head state : String.get 0 (macroValuesKey state) = Some "v"%char.
Proof. reflexivity. Qed.

Lemma macroOutputKey_head state : String.get 0 (macroOutputKey state) = Some "o"%char.
Proof. reflexivity. Qed.

Lemma macroSamplesKey_head state : String.get 0 (macroSamplesKey state) = Some "s"%char.
Proof. reflexivity. Qed.

Lemma macroTapsKey_head state : String.get 0 (macroTapsKey state) = Some "t"%char.
Proof. reflexivity. Qed.

Lemma macroTapsKey_colon state : String.get 4 (macroTapsKey state) = Some ":"%char.
Proof. reflexivity. Qed.

Lemma values_output_apart s s' : macroValuesKey s ≠ macroOutputKey s'.
Proof.
  intros H%(f_equal (String.get 0)).
  by rewrite macroValuesKey_head, macroOutputKey_head in H.
Qed.

Lemma values_samples_apart s s' : macroValuesKey s ≠ macroSamplesKey s'.
Proof.
  intros H%(f_equal (String.get 0)).
  by rewrite macroValuesKey_head, macroSamplesKey_head in H.
Qed.

Lemma values_taps_apart s s' : macroValuesKey s ≠ macroTapsKey s'.
Proof.
  intros H%(f_equal (String.get 0)).
  by rewrite macroValuesKey_head, macroTapsKey_head in H.
Qed.

Lemma output_samples_apart s s' : macroOutputKey s ≠ macroSamplesKey s'.
Proof.
  intros H%(f_equal (String.get 0)).
  by rewrite macroOutputKey_head, macroSamplesKey_head in H.
Qed.

Lemma output_taps_apart s s' : macroOutputKey s ≠ macroTapsKey s'.
Proof.
  intros H%(f_equal (String.get 0)).
  by rewrite macroOutputKey_head, macroTapsKey_head in H.
Qed.

Lemma samples_taps_apart s s' : macroSamplesKey s ≠ macroTapsKey s'.
Proof.
  intros H%(f_equal (String.get 0)).
  by rewrite macroSamplesKey_head, macroTapsKey_head in H.
Qed.

End KeyFacts.

(** X1: the keys of the cache.  Whatever the states, the keys under which the
  four macro functions keep their macros differ from one another, and the
  key of [macroTaps] differs from the name under which its list is kept. *)
Theorem keys_apart s1 s2 s3 s4 :
  Macros.macroValuesKey s1 ≠ Macros.macroOutputKey s2 ∧
  Macros.macroValuesKey s1 ≠ Macros.macroSamplesKey s3 ∧
  Macros.macroValuesKey s1 ≠ Macros.macroTapsKey s4 ∧
  Macros.macroOutputKey s2 ≠ Macros.macroSamplesKey s3 ∧
  Macros.macroOutputKey s2 ≠ Macros.macroTapsKey s4 ∧
  Macros.macroSamplesKey s3 ≠ Macros.macroTapsKey s4 ∧
  Macros.macroTapsKey s4 ≠ Macros.hooks.macroTaps +:+ "Samples".
Proof.
  repeat split;
    [apply values_output_apart | apply values_samples_apart
    | apply values_taps_apart | apply output_samples_apart
    | apply output_taps_apart | apply samples_taps_apart |].
  intros H%(f_equal (String.get 4)). by rewrite macroTapsKey_colon in H.
Qed.

Section TouchFacts.
Import Macros Calls.


















End TouchFacts.


(** X3: [macroPass] on a cache that holds none of its parts.  With no
  hooks set, and a pass to make the output of, the text of [macroPass] is
  the macros of the values, of the output, of the samples and of the taps,
  in this order; and each is kept under its own key for the calls to come.
  Where the macros of the samples throw, [macroPass] throws, with the macros
  of the values and of the output kept. *)
Theorem macroPass_fresh state on k output :
  Macros.macros state = Macros.HookDefault →
  Macros.entries k !! Macros.macroValuesKey state = None →
  Macros.entries k !! Macros.macroOutputKey state = None →
  Macros.entries k !! Macros.macroSamplesKey state = None →
  Macros.entries k !! Macros.macroTapsKey state = None →
  Macros.macroOutputText state = Some output →
  let taps :=
    Macros.tapsText (Macros.prefix state) (Macros.glsl state)
      (default [] (Macros.passSamplesOf state)) (negb (Macros.merge state)) in
  (Macros.macroPass state on k).1 =
    (samples ← Macros.macroSamplesText state;
     Some (Macros.macroValuesText state +:+ output +:+ samples +:+ taps)) ∧
  Macros.entries (Macros.macroPass state on k).2 =
    match Macros.macroSamplesText state with
    | Some samples =>
        <[Macros.macroTapsKey state := taps]>
          (<[Macros.macroSamplesKey state := samples]>
             (<[Macros.macroOutputKey state := output]>
                (<[Macros.macroValuesKey state := Macros.macroValuesText state]>
                   (Macros.entries k))))
    | None =>
        <[Macros.macroOutputKey state := output]>
          (<[Macros.macroValuesKey state := Macros.macroValuesText state]>
             (Macros.entries k))
    end.
Proof.
  intros Hhooks Hvalues Houtput Hsamples Htaps Htext taps.
  unfold Macros.macroPass, Macros.macroValues, Macros.macroOutput,
    Macros.macroSamples, Macros.macroTaps, Macros.cached.
  rewrite Hhooks. cbn [Macros.hasMacros]. rewrite Hvalues. cbn [Macros.andThen Macros.entries].
  rewrite lookup_insert_ne by apply values_output_apart.
  rewrite Houtput, Htext. cbn [Macros.andThen Macros.entries].
  rewrite !lookup_insert_ne
    by (first [apply values_samples_apart | apply output_samples_apart]).
  rewrite Hsamples.
  destruct (Macros.macroSamplesText state) as [samples|]; [|done].
  cbn [Macros.andThen Macros.entries].
  rewrite !lookup_insert_ne
    by (first [apply values_taps_apart | apply output_taps_apart | apply samples_taps_apart]).
  rewrite Htaps. cbn [fst snd Macros.entries mbind option_bind]. split; [|done].
  by rewrite !append_assoc.
Qed.

(** ** More on the cache of the macros: reading the keys back *)

Section ReadFacts.
Import Keys.

Lemma append_cons c s r : String c s +:+ r = String c (s +:+ r).
Proof. done. Qed.

Lemma append_nil s : "" +:+ s = s.
Proof. done. Qed.

Lemma append_cancel s a b : s +:+ a = s +:+ b → a = b.
Proof. apply (inj (String.app s)). Qed.

Lemma reads_weaken {A : Type} (ok ok' : string → Prop) (write : A → string) :
  (∀ r, ok' r → ok r) → reads ok write → reads ok' write.
Proof. intros Hok Hreads a a' r r' Hr Hr'. apply Hreads; auto. Qed.

Lemma closes_stops r : closes r → stops r.
Proof. by intros [rest [-> | ->]]. Qed.

Lemma closes_comma r : closes ("," +:+ r).
Proof. exists r. by left. Qed.

Lemma closes_bracket r : closes ("]" +:+ r).
Proof. exists r. by right. Qed.

Lemma stops_comma r : stops ("," +:+ r).
Proof. done. Qed.

(** Texts of digits, each followed by a text that stops it. *)
Lemma digits_read d d' r r' :
  digits d = true → digits d' = true → stops r → stops r' →
  d +:+ r = d' +:+ r' → d = d' ∧ r = r'.
Proof.
  revert d'. induction d as [|c d IH]; intros [|c' d']; simpl;
    intros Hd Hd' Hr Hr' Heq.
  - done.
  - apply andb_true_iff in Hd' as [Hc' _]. rewrite append_cons in Heq.
    change ("" +:+ r) with r in Heq. subst r. simpl in Hr. congruence.
  - apply andb_true_iff in Hd as [Hc _]. rewrite append_cons in Heq.
    change ("" +:+ r') with r' in Heq. subst r'. simpl in Hr'. congruence.
  - apply andb_true_iff in Hd as [_ Hd]. apply andb_true_iff in Hd' as [_ Hd'].
    rewrite !append_cons in Heq. injection Heq as -> Heq.
    destruct (IH d' Hd Hd' Hr Hr' Heq) as [-> ->]. done.
Qed.

Lemma pretty_N_char_digit x : digit (pretty_N_char x) = true.
Proof. unfold pretty_N_char. by repeat case_match. Qed.

Lemma pretty_N_go_digits x s :
  ∃ d, pretty_N_go x s = d +:+ s ∧ digits d = true ∧ ((0 < x)%N → d ≠ "").
Proof.
  revert s. induction (N.lt_wf_0 x) as [x _ IH]; intros s.
  assert (x = 0 ∨ 0 < x)%N as [->|Hx] by lia.
  - exists "". rewrite pretty_N_go_0. split; [done|]. split; [done|]. lia.
  - rewrite pretty_N_go_step by done.
    destruct (IH (x `div` 10)%N (N.div_lt x 10 Hx eq_refl)
                (String (pretty_N_char (x `mod` 10)) s)) as (d & -> & Hd & _).
    exists (d +:+ String (pretty_N_char (x `mod` 10)) "").
    split; [by rewrite append_assoc|]. split.
    + clear -Hd. induction d as [|c d IHd]; simpl.
      * by rewrite pretty_N_char_digit.
      * simpl in Hd. apply andb_true_iff in Hd as [Hc Hd].
        rewrite Hc. by apply IHd.
    + intros _. by destruct d.
Qed.

Lemma pretty_nat_digits (n : nat) : digits (pretty n) = true ∧ pretty n ≠ "".
Proof.
  unfold pretty, pretty_nat, pretty, pretty_N.
  destruct (decide (N.of_nat n = 0%N)) as [_|Hn]; [done|].
  destruct (pretty_N_go_digits (N.of_nat n) "") as (d & -> & Hd & Hne).
  rewrite append_empty. split; [done|]. apply Hne. lia.
Qed.

(** A number, followed by a text that stops it. *)
Lemma pretty_reads : reads stops (pretty : nat → string).
Proof.
  intros a a' r r' Hr Hr' Heq.
  destruct (pretty_nat_digits a) as [Ha _], (pretty_nat_digits a') as [Ha' _].
  destruct (digits_read _ _ _ _ Ha Ha' Hr Hr' Heq) as [Hpretty ->].
  by apply (inj pretty) in Hpretty as ->.
Qed.

Lemma pretty_head (n : nat) :
  ∃ c rest, pretty n = String c rest ∧ digit c = true.
Proof.
  destruct (pretty_nat_digits n) as [Hd Hne].
  destruct (pretty n) as [|c rest]; [done|]. exists c, rest.
  simpl in Hd. apply andb_true_iff in Hd as [Hc _]. done.
Qed.

Lemma pretty_apart c : digit c = false → apart c (pretty : nat → string).
Proof.
  intros Hc n. destruct (pretty_head n) as (c' & rest & -> & Hc').
  exists c', rest. split; [done|]. congruence.
Qed.

(** A list: its entries between brackets, with commas between them. *)
Lemma concat_items {A : Type} (item : A → string) a l :
  String.concat "," (item <$> (a :: l)) = item a +:+ items item l.
Proof.
  revert a. induction l as [|b l IH]; intros a.
  - simpl. by rewrite append_empty.
  - change (item a +:+ "," +:+ String.concat "," (item <$> b :: l) =
            item a +:+ "," +:+ item b +:+ items item l).
    by rewrite IH.
Qed.

Lemma items_nil {A : Type} (item : A → string) : items item [] = "".
Proof. done. Qed.

Lemma items_cons {A : Type} (item : A → string) a l :
  items item (a :: l) = "," +:+ item a +:+ items item l.
Proof. done. Qed.

Lemma items_closes {A : Type} (item : A → string) l r :
  closes (items item l +:+ "]" +:+ r).
Proof.
  destruct l as [|a l]; [apply closes_bracket|].
  rewrite items_cons, append_assoc. apply closes_comma.
Qed.

Lemma items_read {A : Type} (item : A → string) l l' r r' :
  reads closes item →
  items item l +:+ "]" +:+ r = items item l' +:+ "]" +:+ r' → l = l' ∧ r = r'.
Proof.
  intros Hitem. revert l'. induction l as [|a l IH]; intros [|a' l'];
    rewrite ?items_cons, ?items_nil, ?append_assoc, ?append_cons, ?append_nil.
  - intros Heq. by injection Heq as ->.
  - intros Heq. discriminate Heq.
  - intros Heq. discriminate Heq.
  - intros Heq. injection Heq as Heq.
    rewrite ?append_assoc in Heq.
    destruct (Hitem a a' _ _ (items_closes item l r) (items_closes item l' r') Heq)
      as [-> Hrest].
    destruct (IH l' Hrest) as [-> ->]. done.
Qed.

Lemma idList_as_items {A : Type} (item : A → string) l r :
  Macros.idList item l +:+ r =
  match l with
  | [] => "[]" +:+ r
  | a :: rest => "[" +:+ item a +:+ items item rest +:+ "]" +:+ r
  end.
Proof.
  unfold Macros.idList. destruct l as [|a rest]; [done|].
  rewrite concat_items, !append_assoc. done.
Qed.

Lemma idList_reads {A : Type} (ok : string → Prop) (item : A → string) :
  reads closes item → apart "]" item → reads ok (Macros.idList item).
Proof.
  intros Hitem Hapart l l' r r' _ _. rewrite !idList_as_items.
  destruct l as [|a l], l' as [|a' l'].
  - intros Heq. by apply append_cancel in Heq as ->.
  - destruct (Hapart a') as (c & rest & -> & Hc). intros Heq.
    rewrite !append_cons in Heq. injection Heq as Heq. congruence.
  - destruct (Hapart a) as (c & rest & -> & Hc). intros Heq.
    rewrite !append_cons in Heq. injection Heq as Heq. congruence.
  - intros Heq. apply append_cancel in Heq.
    destruct (Hitem a a' _ _ (items_closes item l r) (items_closes item l' r') Heq)
      as [-> Hrest].
    destruct (items_read item l l' r r' Hitem Hrest) as [-> ->]. done.
Qed.

Lemma idList_apart {A : Type} c (item : A → string) :
  c ≠ "["%char → apart c (Macros.idList item).
Proof.
  intros Hc l. unfold Macros.idList. eexists _, _. split; [reflexivity|]. done.
Qed.

Lemma idNats_reads ok : reads ok Macros.idNats.
Proof.
  apply idList_reads.
  - apply (reads_weaken stops); [apply closes_stops | apply pretty_reads].
  - by apply pretty_apart.
Qed.

Lemma idNested_reads ok : reads ok Macros.idNested.
Proof.
  apply idList_reads; [apply idNats_reads | by apply idList_apart].
Qed.

Lemma idSample_reads ok : reads ok Macros.idSample.
Proof.
  intros [s t] [s' t'] r r' _ _ Heq. unfold Macros.idSample in Heq. simpl in Heq.
  destruct (idNats_reads (λ _, True) [s; t] [s'; t'] r r' I I Heq) as [Hst ->].
  by injection Hst as -> ->.
Qed.

Lemma idSamples_reads ok : reads ok (Macros.idList Macros.idSample).
Proof.
  apply idList_reads; [apply idSample_reads|].
  intros sample. by apply idList_apart.
Qed.

Lemma idListed_reads ok : reads ok idListed.
Proof.
  intros [a|] [a'|] r r' _ _; simpl.
  - intros Heq. by destruct (idNats_reads (λ _, True) a a' r r' I I Heq) as [-> ->].
  - unfold Macros.idNats. rewrite idList_as_items. intros Heq.
    destruct a; rewrite ?append_cons in Heq; discriminate Heq.
  - unfold Macros.idNats. rewrite idList_as_items. intros Heq.
    destruct a'; rewrite ?append_cons in Heq; discriminate Heq.
  - intros Heq. by apply append_cancel in Heq as ->.
Qed.

Lemma idListed_apart : apart "]" idListed.
Proof.
  intros [a|]; simpl; [by apply idList_apart|]. by eexists _, _.
Qed.

Lemma idAllListed_reads ok : reads ok (Macros.idList idListed).
Proof. apply idList_reads; [apply idListed_reads | apply idListed_apart]. Qed.

(** An entry of the reads is written by the list that it holds. *)
Lemma idReads_listed l :
  Macros.idList Macros.idReads l = Macros.idList idListed (listOf <$> l).
Proof.
  unfold Macros.idList. rewrite <-list_fmap_compose.
  assert (Macros.idReads <$> l = idListed ∘ listOf <$> l) as ->; [|done].
  apply list_fmap_ext. by intros i [| |r] _.
Qed.

Lemma orUndefined_listed (o : option (list Macros.Reads)) :
  Macros.orUndefined (Macros.idList Macros.idReads) o =
  Macros.orUndefined (Macros.idList idListed) (fmap (M := list) listOf <$> o).
Proof. destruct o as [l|]; [apply idReads_listed | done]. Qed.

(** Of entries that are all set, the lists that they hold tell which they
  are. *)
Lemma listOf_set l l' :
  forallb (λ reads, match reads with Macros.ReadsNull => false | _ => true end) l = true →
  forallb (λ reads, match reads with Macros.ReadsNull => false | _ => true end) l' = true →
  listOf <$> l = listOf <$> l' → l = l'.
Proof.
  revert l'. induction l as [|a l IH]; intros [|a' l']; simpl; try done.
  intros [Ha Hl]%andb_true_iff [Ha' Hl']%andb_true_iff [= Hhead Htail].
  f_equal; [|by apply IH]. destruct a, a'; simpl in *; congruence.
Qed.

(** A value that may be [undefined]. *)
Lemma orUndefined_reads {A : Type} ok (write : A → string) :
  reads ok write → apart "u" write → reads ok (Macros.orUndefined write).
Proof.
  intros Hwrite Hapart [a|] [a'|] r r' Hr Hr'; simpl.
  - intros Heq. by destruct (Hwrite a a' r r' Hr Hr' Heq) as [-> ->].
  - destruct (Hapart a) as (c & rest & -> & Hc). intros Heq.
    rewrite !append_cons in Heq. injection Heq as Heq. congruence.
  - destruct (Hapart a') as (c & rest & -> & Hc). intros Heq.
    rewrite !append_cons in Heq. injection Heq as Heq. congruence.
  - intros Heq. by apply append_cancel in Heq as ->.
Qed.

Lemma showBool_reads ok : reads ok Macros.showBool.
Proof.
  intros [] [] r r' _ _; simpl; intros Heq; try discriminate Heq.
  - by apply append_cancel in Heq as ->.
  - by apply append_cancel in Heq as ->.
Qed.

(** A prefix with no comma, followed by a comma. *)
Lemma prefix_reads n n' r r' :
  commaFree n = true → commaFree n' = true →
  n +:+ "," +:+ r = n' +:+ "," +:+ r' → n = n' ∧ r = r'.
Proof.
  revert n'. induction n as [|c n IH]; intros [|c' n'] Hn Hn';
    rewrite ?append_cons, ?append_nil; intros Heq.
  - by injection Heq as ->.
  - injection Heq as <- _. by simpl in Hn'.
  - injection Heq as -> _. by simpl in Hn.
  - injection Heq as -> Heq. simpl in Hn, Hn'.
    apply andb_true_iff in Hn as [_ Hn]. apply andb_true_iff in Hn' as [_ Hn'].
    destruct (IH n' Hn Hn' Heq) as [-> ->]. done.
Qed.

End ReadFacts.

Section KeyTexts.
Import Macros Keys.

Lemma reads_last {A : Type} (write : A → string) a a' :
  reads stops write → write a = write a' → a = a'.
Proof.
  intros Hreads Heq. rewrite <-(append_empty (write a)) in Heq.
  rewrite <-(append_empty (write a')) in Heq.
  by destruct (Hreads a a' "" "" I I Heq).
Qed.

Lemma count_reads : reads stops (orUndefined (pretty : nat → string)).
Proof. apply orUndefined_reads; [apply pretty_reads | by apply pretty_apart]. Qed.

Lemma samples_reads : reads stops (orUndefined (idList idSample)).
Proof.
  apply orUndefined_reads; [apply idSamples_reads | by apply idList_apart].
Qed.

Lemma allListed_reads : reads stops (orUndefined (idList idListed)).
Proof.
  apply orUndefined_reads; [apply idAllListed_reads | by apply idList_apart].
Qed.

(** [macroSamples] makes a text just for the states whose reads are set. *)
Lemma readsMacros_thrown n glsl i l :
  FnLists.reduceFrom (readsMacros n glsl) i l None = None.
Proof.
  revert i. induction l as [|a l IH]; intros i; [done|].
  cbn [FnLists.reduceFrom]. by destruct a; simpl; rewrite IH.
Qed.

Lemma readsMacros_set n glsl i l s :
  forallb (λ reads, match reads with ReadsNull => false | _ => true end) l = true ↔
  is_Some (FnLists.reduceFrom (readsMacros n glsl) i l (Some s)).
Proof.
  revert i s. induction l as [|a l IH]; intros i s; [done|].
  cbn [FnLists.reduceFrom forallb]. destruct a as [| |r]; simpl.
  - apply IH.
  - rewrite readsMacros_thrown. split; [done|]. by intros [? [=]].
  - apply IH.
Qed.

Lemma macroSamplesText_set state :
  readsSet state = true ↔ is_Some (macroSamplesText state).
Proof.
  unfold readsSet, macroSamplesText.
  destruct (passReadsOf state) as [passReads|]; simpl; [|done].
  unfold FnLists.reduce.
  rewrite (readsMacros_set (prefix state) (glsl state) 0 passReads "").
  by destruct (FnLists.reduceFrom _ _ _ _).
Qed.

Lemma macroValuesKey_text state state' :
  commaFree (prefix state) = true → commaFree (prefix state') = true →
  macroValuesKey state = macroValuesKey state' →
  macroValuesText state = macroValuesText state'.
Proof.
  intros Hn Hn' Hkey. unfold macroValuesKey in Hkey.
  do 2 apply append_cancel in Hkey.
  apply (prefix_reads _ _ _ _ Hn Hn') in Hkey as [Hprefix Hkey].
  destruct (pretty_reads _ _ _ _ (stops_comma _) (stops_comma _) Hkey) as [Hbound H1].
  apply append_cancel in H1.
  destruct (idNats_reads stops _ _ _ _ (stops_comma _) (stops_comma _) H1) as [Hvalues H2].
  apply append_cancel in H2.
  destruct (idNested_reads stops _ _ _ _ (stops_comma _) (stops_comma _) H2)
    as [Htextures H3].
  apply append_cancel in H3.
  destruct (pretty_reads _ _ _ _ (stops_comma _) (stops_comma _) H3) as [Hsteps H4].
  apply append_cancel in H4.
  destruct (pretty_reads _ _ _ _ (stops_comma _) (stops_comma _) H4) as [Hpasses H5].
  apply append_cancel in H5.
  apply (reads_last _ _ _ count_reads) in H5.
  unfold macroValuesText, stepsPast.
  by rewrite Hprefix, Hbound, Hvalues, Htextures, Hsteps, Hpasses, H5.
Qed.

Lemma macroOutputKey_text state state' :
  commaFree (prefix state) = true → commaFree (prefix state') = true →
  macroOutputKey state = macroOutputKey state' →
  macroOutputText state = macroOutputText state'.
Proof.
  intros Hn Hn' Hkey. unfold macroOutputKey in Hkey.
  do 2 apply append_cancel in Hkey.
  apply (prefix_reads _ _ _ _ Hn Hn') in Hkey as [Hprefix Hkey].
  destruct (count_reads _ _ _ _ (stops_comma _) (stops_comma _) Hkey) as [Hpass H1].
  apply append_cancel in H1.
  destruct (idNats_reads stops _ _ _ _ (stops_comma _) (stops_comma _) H1) as [Hvalues H2].
  apply append_cancel in H2.
  destruct (idNested_reads stops _ _ _ _ (stops_comma _) (stops_comma _) H2)
    as [Htextures H3].
  apply append_cancel in H3.
  apply (reads_last _ _ _ (idNested_reads stops)) in H3.
  unfold macroOutputText.
  by rewrite Hprefix, Hpass, Hvalues, Htextures, H3.
Qed.

Lemma macroSamplesKey_text state state' :
  commaFree (prefix state) = true → commaFree (prefix state') = true →
  readsSet state = true → readsSet state' = true →
  macroSamplesKey state = macroSamplesKey state' →
  macroSamplesText state = macroSamplesText state'.
Proof.
  intros Hn Hn' Hset Hset' Hkey. unfold macroSamplesKey in Hkey.
  rewrite !orUndefined_listed in Hkey.
  do 2 apply append_cancel in Hkey.
  apply (prefix_reads _ _ _ _ Hn Hn') in Hkey as [Hprefix Hkey].
  destruct (pretty_reads _ _ _ _ (stops_comma _) (stops_comma _) Hkey) as [Hpass H1].
  apply append_cancel in H1.
  destruct (samples_reads _ _ _ _ (stops_comma _) (stops_comma _) H1) as [Hsamples H2].
  apply append_cancel in H2.
  destruct (allListed_reads _ _ _ _ (stops_comma _) (stops_comma _) H2) as [Hreads H3].
  apply append_cancel in H3.
  apply (reads_last _ _ _ count_reads) in H3.
  assert (passReadsOf state = passReadsOf state') as Hsame.
  { unfold readsSet in Hset, Hset'.
    destruct (passReadsOf state) as [l|], (passReadsOf state') as [l'|];
      simpl in *; try done.
    injection Hreads as Hreads. f_equal. by apply listOf_set. }
  unfold macroSamplesText.
  by rewrite Hprefix, Hsamples, Hsame, H3.
Qed.

Lemma macroTapsKey_text state state' :
  commaFree (prefix state) = true → commaFree (prefix state') = true →
  macroTapsKey state = macroTapsKey state' →
  tapsTextOf state = tapsTextOf state'.
Proof.
  intros Hn Hn' Hkey. unfold macroTapsKey in Hkey.
  do 2 apply append_cancel in Hkey.
  apply (prefix_reads _ _ _ _ Hn Hn') in Hkey as [Hprefix Hkey].
  destruct (pretty_reads _ _ _ _ (stops_comma _) (stops_comma _) Hkey) as [Hpass H1].
  apply append_cancel in H1.
  destruct (samples_reads _ _ _ _ (stops_comma _) (stops_comma _) H1) as [Hsamples H2].
  apply append_cancel in H2.
  destruct (showBool_reads stops _ _ _ _ (stops_comma _) (stops_comma _) H2)
    as [Hindex H3].
  apply append_cancel in H3.
  apply (reads_last _ _ _ count_reads) in H3.
  unfold tapsTextOf.
  by rewrite Hprefix, Hsamples, Hindex, H3.
Qed.

End KeyTexts.

Section SoundFacts.
Import Macros Keys Calls.

Lemma cacheEmpty_sound : sound cacheEmpty.
Proof. intros state text _. unfold cacheEmpty. cbn [entries]. by rewrite !lookup_empty. Qed.

Lemma sound_values state k kept :
  commaFree (prefix state) = true → sound k →
  sound {| entries := <[macroValuesKey state := macroValuesText state]> (entries k);
           tapsSamples := kept |}.
Proof.
  intros Hn Hk state' text Hn'. destruct (Hk state' text Hn') as (Hv & Ho & Hs & Ht).
  cbn [entries]. repeat split.
  - destruct (decide (macroValuesKey state = macroValuesKey state')) as [Hkey|Hkey].
    + rewrite Hkey, lookup_insert_eq. intros [= <-].
      by apply macroValuesKey_text.
    + by rewrite lookup_insert_ne.
  - by rewrite lookup_insert_ne by apply values_output_apart.
  - by rewrite lookup_insert_ne by apply values_samples_apart.
  - by rewrite lookup_insert_ne by apply values_taps_apart.
Qed.

Lemma sound_output state k kept output :
  commaFree (prefix state) = true → macroOutputText state = Some output → sound k →
  sound {| entries := <[macroOutputKey state := output]> (entries k);
           tapsSamples := kept |}.
Proof.
  intros Hn Houtput Hk state' text Hn'.
  destruct (Hk state' text Hn') as (Hv & Ho & Hs & Ht).
  cbn [entries]. repeat split.
  - by rewrite lookup_insert_ne by apply not_eq_sym, values_output_apart.
  - destruct (decide (macroOutputKey state = macroOutputKey state')) as [Hkey|Hkey].
    + rewrite Hkey, lookup_insert_eq. intros [= <-].
      by rewrite <-(macroOutputKey_text state state').
    + by rewrite lookup_insert_ne.
  - by rewrite lookup_insert_ne by apply output_samples_apart.
  - by rewrite lookup_insert_ne by apply output_taps_apart.
Qed.

Lemma sound_samples state k kept samples :
  commaFree (prefix state) = true → macroSamplesText state = Some samples → sound k →
  sound {| entries := <[macroSamplesKey state := samples]> (entries k);
           tapsSamples := kept |}.
Proof.
  intros Hn Hsamples Hk state' text Hn'.
  destruct (Hk state' text Hn') as (Hv & Ho & Hs & Ht).
  cbn [entries]. split; [|split; [|split]].
  - by rewrite lookup_insert_ne by apply not_eq_sym, values_samples_apart.
  - by rewrite lookup_insert_ne by apply not_eq_sym, output_samples_apart.
  - destruct (decide (macroSamplesKey state = macroSamplesKey state')) as [Hkey|Hkey].
    + rewrite Hkey, lookup_insert_eq. intros [= <-] Hset'.
      rewrite <-(macroSamplesKey_text state state'); try done.
      apply macroSamplesText_set. by rewrite Hsamples.
    + by rewrite lookup_insert_ne.
  - by rewrite lookup_insert_ne by apply samples_taps_apart.
Qed.

Lemma sound_taps state k kept :
  commaFree (prefix state) = true → sound k →
  sound {| entries := <[macroTapsKey state := tapsTextOf state]> (entries k);
           tapsSamples := kept |}.
Proof.
  intros Hn Hk state' text Hn'. destruct (Hk state' text Hn') as (Hv & Ho & Hs & Ht).
  cbn [entries]. repeat split.
  - by rewrite lookup_insert_ne by apply not_eq_sym, values_taps_apart.
  - by rewrite lookup_insert_ne by apply not_eq_sym, output_taps_apart.
  - by rewrite lookup_insert_ne by apply not_eq_sym, samples_taps_apart.
  - destruct (decide (macroTapsKey state = macroTapsKey state')) as [Hkey|Hkey].
    + rewrite Hkey, lookup_insert_eq. intros [= <-].
      by apply macroTapsKey_text.
    + by rewrite lookup_insert_ne.
Qed.

(** On a sound cache, a macro function gives the text it makes with no
  cache at all, and leaves a sound cache. *)
Lemma macroValues_sound state on k :
  commaFree (prefix state) = true → sound k →
  (macroValues state on k).1 = (macroValues state on cacheEmpty).1 ∧
  sound (macroValues state on k).2.
Proof.
  intros Hn Hk. unfold macroValues. destruct (hasMacros _ _ _); [done|].
  unfold cached, cacheEmpty. cbn [entries]. rewrite lookup_empty.
  destruct (entries k !! macroValuesKey state) as [text|] eqn:Hkept; simpl.
  - split; [|done]. f_equal. by apply (Hk state text Hn).
  - split; [done|]. by apply sound_values.
Qed.

Lemma macroOutput_sound state on k :
  commaFree (prefix state) = true → sound k →
  (macroOutput state on k).1 = (macroOutput state on cacheEmpty).1 ∧
  sound (macroOutput state on k).2.
Proof.
  intros Hn Hk. unfold macroOutput. destruct (hasMacros _ _ _); [done|].
  unfold cached, cacheEmpty. cbn [entries]. rewrite lookup_empty.
  destruct (entries k !! macroOutputKey state) as [text|] eqn:Hkept; simpl.
  - split; [|done]. apply (Hk state text Hn) in Hkept. by rewrite Hkept.
  - destruct (macroOutputText state) as [output|] eqn:Houtput; simpl; [|done].
    split; [done|]. by apply sound_output.
Qed.

Lemma macroSamples_sound state on k :
  commaFree (prefix state) = true → readsSet state = true → sound k →
  (macroSamples state on k).1 = (macroSamples state on cacheEmpty).1 ∧
  sound (macroSamples state on k).2.
Proof.
  intros Hn Hset Hk. unfold macroSamples. destruct (hasMacros _ _ _); [done|].
  unfold cached, cacheEmpty. cbn [entries]. rewrite lookup_empty.
  destruct (entries k !! macroSamplesKey state) as [text|] eqn:Hkept; simpl.
  - split; [|done]. apply (Hk state text Hn) in Hkept; [|done]. by rewrite Hkept.
  - destruct (macroSamplesText state) as [samples|] eqn:Hsamples; simpl; [|done].
    split; [done|]. by apply sound_samples.
Qed.

Lemma macroTaps_sound state on k :
  commaFree (prefix state) = true → sound k →
  (macroTaps state on k).1 = (macroTaps state on cacheEmpty).1 ∧
  sound (macroTaps state on k).2.
Proof.
  intros Hn Hk. unfold macroTaps. destruct (hasMacros _ _ _); [done|].
  unfold cacheEmpty. cbn [entries]. rewrite lookup_empty.
  destruct (entries k !! macroTapsKey state) as [text|] eqn:Hkept; simpl.
  - split; [|done]. f_equal. by apply (Hk state text Hn).
  - split; [done|]. by apply sound_taps.
Qed.

Lemma andThen_sound first first' next :
  first.1 = first'.1 → sound first.2 → sound first'.2 →
  (∀ k, sound k → (next k).1 = (next cacheEmpty).1 ∧ sound (next k).2) →
  (andThen first next).1 = (andThen first' next).1 ∧
  sound (andThen first next).2 ∧ sound (andThen first' next).2.
Proof.
  intros Htext Hk Hk' Hnext.
  destruct first as [[a|] k1], first' as [[a'|] k1']; simpl in *; try done.
  injection Htext as ->.
  destruct (Hnext k1 Hk) as [Heq Hsound], (Hnext k1' Hk') as [Heq' Hsound'].
  rewrite <-Heq' in Heq.
  destruct (next k1) as [[b|] k2], (next k1') as [[b'|] k2']; simpl in *;
    try done.
  by injection Heq as ->.
Qed.

Lemma macroPass_sound state on k :
  commaFree (prefix state) = true → readsSet state = true → sound k →
  (macroPass state on k).1 = (macroPass state on cacheEmpty).1 ∧
  sound (macroPass state on k).2.
Proof.
  intros Hn Hset Hk. unfold macroPass. destruct (hasMacros _ _ _); [done|].
  destruct (macroValues_sound state "" k Hn Hk) as [Hvalues Hk1].
  destruct (macroValues_sound state "" cacheEmpty Hn cacheEmpty_sound) as [_ Hk1'].
  destruct (andThen_sound _ _ (macroOutput state "") Hvalues Hk1 Hk1'
              (λ k, macroOutput_sound state "" k Hn)) as (Houtput & Hk2 & Hk2').
  destruct (andThen_sound _ _ (macroSamples state "") Houtput Hk2 Hk2'
              (λ k, macroSamples_sound state "" k Hn Hset)) as (Hsamples & Hk3 & Hk3').
  destruct (andThen_sound _ _ (macroTaps state "") Hsamples Hk3 Hk3'
              (λ k, macroTaps_sound state "" k Hn)) as (Htaps & Hk4 & _).
  done.
Qed.

Lemma call_sound c k :
  commaFree (prefix (stateOf c)) = true → readsSet (stateOf c) = true → sound k →
  (call c k).1 = (call c cacheEmpty).1 ∧ sound (call c k).2.
Proof.
  destruct c as [state on|state on|state on|state on|state on]; simpl;
    intros Hn Hset.
  - by apply macroValues_sound.
  - by apply macroOutput_sound.
  - by apply macroSamples_sound.
  - by apply macroTaps_sound.
  - by apply macroPass_sound.
Qed.

Lemma after_sound calls k :
  Forall (λ c, commaFree (prefix (stateOf c)) = true ∧ readsSet (stateOf c) = true)
    calls →
  sound k → sound (after calls k).
Proof.
  intros Hcalls. revert k. induction Hcalls as [|c calls [Hc Hset] _ IH]; intros k Hk.
  - done.
  - simpl. apply IH. by apply call_sound.
Qed.

End SoundFacts.

(** X4: the keys of the cache tell the states apart.  Two states, of
  prefixes with no comma, that have the same key for one of the macro
  functions are given the same text by it, where it makes a text for both:
  as [macroValues] and [macroTaps] always do; [macroOutput] does for both or
  for neither; and [macroSamples] does for a state unless an entry of its
  reads is set to no list, which its key does not tell from an entry that
  is left out. *)
Theorem keys_tell state state' :
  Keys.commaFree (Macros.prefix state) = true →
  Keys.commaFree (Macros.prefix state') = true →
  (Macros.macroValuesKey state = Macros.macroValuesKey state' →
     Macros.macroValuesText state = Macros.macroValuesText state') ∧
  (Macros.macroOutputKey state = Macros.macroOutputKey state' →
     Macros.macroOutputText state = Macros.macroOutputText state') ∧
  (Macros.macroSamplesKey state = Macros.macroSamplesKey state' →
     (∀ text text',
        Macros.macroSamplesText state = Some text →
        Macros.macroSamplesText state' = Some text' → text = text') ∧
     (readsSet state = readsSet state' →
        Macros.macroSamplesText state = Macros.macroSamplesText state')) ∧
  (Macros.macroTapsKey state = Macros.macroTapsKey state' →
     tapsTextOf state = tapsTextOf state').
Proof.
  intros Hn Hn'. split; [|split; [|split]].
  - by apply macroValuesKey_text.
  - by apply macroOutputKey_text.
  - intros Hkey. split.
    + intros text text' Htext Htext'.
      assert (Macros.macroSamplesText state = Macros.macroSamplesText state') as Heq.
      { apply macroSamplesKey_text; try done; apply macroSamplesText_set; eauto. }
      congruence.
    + intros Hset. destruct (readsSet state) eqn:Hreads.
      * by apply macroSamplesKey_text.
      * pose proof (macroSamplesText_set state) as Hstate.
        pose proof (macroSamplesText_set state') as Hstate'.
        rewrite Hreads in Hstate. rewrite <-Hset in Hstate'.
        destruct (Macros.macroSamplesText state) as [text|];
          [destruct Hstate as [_ Hstate]; by specialize (Hstate (mk_is_Some _ _ eq_refl))|].
        destruct (Macros.macroSamplesText state') as [text'|]; [|done].
        destruct Hstate' as [_ Hstate']. by specialize (Hstate' (mk_is_Some _ _ eq_refl)).
  - by apply macroTapsKey_text.
Qed.

(** X5: the cache does not change what the macro functions give.  After
  any run of calls of the macro functions, with any hooks, and with states
  whose prefix holds no comma and whose reads hold no entry set to no list,
  a call gives what it gives when nothing is kept yet: the text made for its
  own state, never one kept for another; and it throws just when it would
  with nothing kept. *)
Theorem cache_unseen calls c :
  Forall (λ c, Keys.commaFree (Macros.prefix (stateOf c)) = true ∧
               readsSet (stateOf c) = true) (c :: calls) →
  (Calls.call c (Calls.after calls Macros.cacheEmpty)).1 =
  (Calls.call c Macros.cacheEmpty).1.
Proof.
  intros [[Hc Hset] Hcalls]%Forall_cons. apply call_sound; [done..|].
  apply after_sound; [done|]. apply cacheEmpty_sound.
Qed.

(** X23: what the key of [macroSamples] does not tell.  An entry of the
  reads that is set to no list is written in the key as one that is left
  out is.  So for two states of one key that [macroSamples] handles, where
  the reads of the first are set and those of the second are not: with
  nothing kept under the key, [macroSamples] throws for the second; after it
  made the text of the first, it gives this text for the second as well. *)
Theorem reads_unset_kept state state' on on' k :
  Macros.hasMacros Macros.hooks.macroSamples on (Macros.macros state) = None →
  Macros.hasMacros Macros.hooks.macroSamples on' (Macros.macros state') = None →
  Macros.macroSamplesKey state' = Macros.macroSamplesKey state →
  readsSet state = true → readsSet state' = false →
  Macros.entries k !! Macros.macroSamplesKey state = None →
  (Macros.macroSamples state' on' k).1 = None ∧
  ∃ text,
    Macros.macroSamplesText state = Some text ∧
    (Macros.macroSamples state on k).1 = Some text ∧
    (Macros.macroSamples state' on' (Macros.macroSamples state on k).2).1 =
      Some text.
Proof.
  intros Hhook Hhook' Hkey Hset Hunset Hkept.
  apply macroSamplesText_set in Hset as [text Htext].
  assert (Macros.macroSamplesText state' = None) as Hthrown.
  { destruct (Macros.macroSamplesText state') as [text'|] eqn:Htext'; [|done].
    assert (readsSet state' = true) as Hset'
      by (apply macroSamplesText_set; by rewrite Htext').
    congruence. }
  unfold Macros.macroSamples, Macros.cached. rewrite Hhook, Hhook', Hkey, Hkept.
  rewrite Htext, Hthrown. cbn [fst snd Macros.entries].
  rewrite lookup_insert_eq. split; [done|]. by exists text.
Qed.

(** ** More on the channels of each value *)

Section CutFacts.
Import Macros.

Lemma slice_undeclared s i : slice s i None = "".
Proof. by destruct i. Qed.

Lemma valueMacros_undeclared n values t s after :
  foldl (valueMacros n values t) (s, None) after =
  (s +:+ linesOf (λ u, valueLines n u t "") after, None).
Proof.
  revert s. induction after as [|u after IH]; intros s; simpl.
  - f_equal. induction s as [|c s IHs]; [done|].
    change (String c s = String c (s +:+ "")). by f_equal.
  - rewrite IH. f_equal. unfold valueLines. by rewrite !append_assoc.
Qed.

Lemma outputMacros_undeclared n values texture bound s after :
  foldl (outputMacros n values texture bound) (s, None) after =
  (s +:+ linesOf (λ u, outputLines n u texture bound "") after, None).
Proof.
  revert s. induction after as [|u after IH]; intros s; simpl.
  - f_equal. induction s as [|c s IHs]; [done|].
    change (String c s = String c (s +:+ "")). by f_equal.
  - rewrite IH. f_equal. unfold outputLines. by rewrite !append_assoc.
Qed.

Lemma channelsEnd_undeclared values i v : values !! v = None → channelsEnd values i v = None.
Proof. intros Hv. unfold channelsEnd. destruct i; simpl; [by rewrite Hv|done]. Qed.

End CutFacts.

(** X6: the channels of a value that does not fit.  A value [v] of [w]
  channels, after the values [before] it in its texture (all declared), is
  assigned the channels of [rgba] from the sum of the channels of the values
  before it, cut at the last of the four: [w] of them if they fit, those
  left if not, and none if the values before it took all four. *)
Theorem channels_cut n values textures t bound s before v after w :
  Forall (λ u, is_Some (values !! u)) before →
  values !! v = Some w →
  textures !! t = Some (before ++ v :: after) →
  let offset := taken values before in
  let channels := String.substring offset w Macros.rgba in
  String.length channels = w `min` (4 - offset) ∧
  (∀ i, i < String.length channels →
     String.get i channels = String.get (offset + i) Macros.rgba) ∧
  Macros.textureMacros n values s (before ++ v :: after) t =
    (foldl (Macros.valueMacros n values t)
       (Macros.textureMacros n values s before t +:+ valueLines n v t channels,
        Some (offset + w)) after).1 ∧
  Macros.attachMacros n values textures (Some s) t bound =
    Some (foldl (Macros.outputMacros n values t bound)
            ((foldl (Macros.outputMacros n values t bound) (s, Some 0) before).1
               +:+ outputLines n v t bound channels,
             Some (offset + w)) after).1.
Proof.
  intros Hbefore Hv Ht offset channels.
  split; [apply substring_length|]. split; [apply substring_get|]. split.
  - rewrite !textureMacros_foldl, foldl_app. simpl. f_equal. f_equal.
    pose proof (valueMacros_taken n values t s before Hbefore) as Htaken.
    destruct (foldl _ _ before) as [text i]. simpl in Htaken. subst i.
    unfold Macros.valueMacros at 1.
    rewrite (channelsEnd_declared _ _ _ _ Hv), slice_rgba.
    done.
  - unfold Macros.attachMacros. simpl. rewrite Ht. simpl.
    unfold FnLists.reduce.
    rewrite (reduceFrom_foldl (Macros.outputMacros n values t bound)), foldl_app.
    simpl. do 3 f_equal.
    pose proof (outputMacros_taken n values t bound s before Hbefore) as Htaken.
    destruct (foldl _ _ before) as [text i]. simpl in Htaken. subst i.
    unfold Macros.outputMacros at 1.
    rewrite (channelsEnd_declared _ _ _ _ Hv), slice_rgba.
    done.
Qed.

(** X7: a value that is not declared.  Where a value [v] of a texture has
  no entry in [values], that value and each value after it in the texture
  are assigned no channels at all, in the macros of [macroValues] and in the
  macros of [macroOutput] alike; the macros of the values before it are as
  they would be without it. *)
Theorem channels_undeclared n values textures t bound s before v after :
  values !! v = None →
  textures !! t = Some (before ++ v :: after) →
  Macros.textureMacros n values s (before ++ v :: after) t =
    Macros.textureMacros n values s before t +:+
    linesOf (λ u, valueLines n u t "") (v :: after) ∧
  Macros.attachMacros n values textures (Some s) t bound =
    Some ((foldl (Macros.outputMacros n values t bound) (s, Some 0) before).1 +:+
          linesOf (λ u, outputLines n u t bound "") (v :: after)).
Proof.
  intros Hv Ht. split.
  - rewrite !textureMacros_foldl, foldl_app. simpl.
    destruct (foldl _ _ before) as [text i].
    unfold Macros.valueMacros at 2.
    rewrite (channelsEnd_undeclared _ _ _ Hv), slice_undeclared.
    rewrite valueMacros_undeclared. simpl.
    unfold valueLines. by rewrite !append_assoc.
  - unfold Macros.attachMacros. simpl. rewrite Ht. simpl.
    unfold FnLists.reduce.
    rewrite (reduceFrom_foldl (Macros.outputMacros n values t bound)), foldl_app.
    simpl. f_equal.
    destruct (foldl _ _ before) as [text i].
    unfold Macros.outputMacros at 2.
    rewrite (channelsEnd_undeclared _ _ _ Hv), slice_undeclared.
    rewrite outputMacros_undeclared. simpl.
    unfold outputLines. by rewrite !append_assoc.
Qed.

(** ** Properties of the taps and of the lists of [GLSL] *)

Section TapsFacts.
Import Macros.

Lemma imap_by_length {A B : Type} (g : nat → B) (l l' : list A) :
  length l = length l' → imap (λ i _, g i) l = imap (λ i _, g i) l'.
Proof.
  revert g l'. induction l as [|x l IH]; intros g [|x' l'] Hlength; try done.
  simpl. f_equal. apply (IH (g ∘ S)). simpl in Hlength. lia.
Qed.

Lemma tapsOf_by_length (samples samples' : list (nat * nat)) lookup :
  length samples = length samples' →
  tapsOf samples lookup = tapsOf samples' lookup.
Proof.
  intros Hlength. unfold tapsOf. rewrite !map_as_imap.
  by apply (imap_by_length (λ i, Expr (lookup i))).
Qed.

Lemma tapsText_by_length n glsl (samples samples' : list (nat * nat)) index :
  length samples = length samples' →
  tapsText n glsl samples index = tapsText n glsl samples' index.
Proof.
  intros Hlength. unfold tapsText.
  destruct samples as [|c samples], samples' as [|c' samples']; try done.
  unfold tapsTextIndex, tapsText2, tapsText3, tapsAlias2,
    tapsIndex, tapsIndexBy, taps2, taps2By, taps3, taps3By.
  by rewrite !(tapsOf_by_length (c :: samples) (c' :: samples') _ Hlength).
Qed.

Lemma macroTaps_empty state on :
  macros state = HookDefault →
  (macroTaps state on cacheEmpty).1 = Some (tapsTextOf state).
Proof.
  intros Hhooks. unfold macroTaps. rewrite Hhooks. cbn [hasMacros]. cbv zeta.
  unfold cacheEmpty. cbn [entries]. by rewrite lookup_empty.
Qed.

End TapsFacts.

(** X8: the taps go by the number of samples.  With no hooks set and
  nothing kept, the texts that [macroTaps] makes for two states of the same
  prefix, version of [GLSL] and merging, whose active passes have as many
  samples, are the same text: the lookups are made by the index of each
  sample, whatever step and texture it names. *)
Theorem taps_by_count state state' on on' :
  Macros.macros state = Macros.HookDefault →
  Macros.macros state' = Macros.HookDefault →
  Macros.prefix state = Macros.prefix state' →
  Macros.glsl state = Macros.glsl state' →
  Macros.merge state = Macros.merge state' →
  length (default [] (Macros.passSamplesOf state)) =
    length (default [] (Macros.passSamplesOf state')) →
  (Macros.macroTaps state on Macros.cacheEmpty).1 =
  (Macros.macroTaps state' on' Macros.cacheEmpty).1.
Proof.
  intros Hhooks Hhooks' Hprefix Hglsl Hmerge Hlength.
  rewrite !macroTaps_empty by done. f_equal. unfold tapsTextOf.
  rewrite Hprefix, Hglsl, Hmerge. by apply tapsText_by_length.
Qed.

Section IndexFacts.
Import Macros.

Lemma index_macro_from name (x : Entry) rest i s :
  match i with 0 => True | S m => s = showPick name (picks m) end →
  FnLists.reduceFrom (λ s (_ : Entry) i,
      match i with
      | 0 => name +:+ "_" +:+ pretty i
      | S _ => "((i == " +:+ pretty i +:+ ")? " +:+ name +:+ "_" +:+
                 pretty i +:+ " : " +:+ s +:+ ")"
      end)
    i (x :: rest) s =
  showPick name (picks (i + length rest)).
Proof.
  revert x i s. induction rest as [|y rest IH]; intros x i s Hs.
  - cbn [FnLists.reduceFrom length]. rewrite Nat.add_0_r.
    destruct i as [|m]; [done|]. by rewrite Hs.
  - cbn [FnLists.reduceFrom]. cbn [FnLists.reduceFrom] in IH.
    rewrite (IH y (S i)).
    + cbn [length]. f_equal. f_equal. lia.
    + destruct i as [|m]; [done|]. by rewrite Hs.
Qed.

Lemma pick_picks n j : pick (picks n) j = if decide (j ≤ n) then j else 0.
Proof.
  induction n as [|m IH]; simpl.
  - destruct (decide (j ≤ 0)); lia.
  - destruct (decide (j = S m)) as [->|Hne].
    + by rewrite decide_True by lia.
    + rewrite IH. destruct (decide (j ≤ m)), (decide (j ≤ S m)); lia.
Qed.

End IndexFacts.

(** X9: the index macro of a list in [GLSL] 1.  For a list that is not
  empty, declared with the [const] qualifier, the macro [name_i(i)] is the
  expression that tests the index against that of each entry, from the last
  down to the second, and names the first entry if none is equal: so for the
  index of an entry it names this entry, and for any other index the first
  entry. *)
Theorem index_macro_picks type name a qualify init :
  a ≠ [] →
  let e := picks (length a - 1) in
  Macros.getGLSL1ListLike type name a qualify init =
    Macros.getGLSLListBase type name a qualify init +:+ Macros.nl +:+
    "// Index macro `" +:+ name +:+ "_i` (e.g: `" +:+ name +:+
      "_i(0)`) may be slow, " +:+
      "use name (e.g: `" +:+ name +:+ "_0`) if possible." +:+ Macros.nl +:+
    "#define " +:+ name +:+ "_i(i) " +:+ showPick name e +:+ Macros.nl ∧
  ∀ j, pick e j = if decide (j < length a) then j else 0.
Proof.
  intros Ha e. destruct a as [|x rest]; [done|]. split.
  - unfold Macros.getGLSL1ListLike, FnLists.reduce.
    rewrite (index_macro_from name x rest 0 "" I). subst e. simpl.
    by rewrite Nat.sub_0_r.
  - intros j. subst e. rewrite pick_picks. simpl. rewrite Nat.sub_0_r.
    destruct (decide (j ≤ length rest)), (decide (j < S (length rest))); lia.
Qed.

(** ** Properties of the state set-up: when a state is set up *)

Section DefinedFacts.
Import State.
Variable texturesMap : list (list nat).
Variable values : list nat.

Lemma packed_is_Some group :
  is_Some (packed values group) ↔ Forall (λ v, is_Some (values !! v)) group.
Proof.
  unfold packed, FnLists.reduce.
  rewrite (reduceFrom_foldl (λ sum v, s ← sum; w ← values !! v; Some (s + w))).
  generalize 0 as n. induction group as [|v group IH]; intros n; simpl.
  - split; [constructor | by eexists].
  - rewrite Forall_cons. destruct (values !! v) as [w|]; simpl.
    + rewrite IH. split; [by split; [eexists|] | tauto].
    + split; [|intros [[? [=]] _]]. intros [sum Hsum]. exfalso. revert Hsum. clear.
      induction group as [|u group IH]; [done|]. apply IH.
Qed.

Lemma complete_is_Some among :
  complete values texturesMap among ↔
  Forall (λ t, is_Some (texturesMap !! t ≫= packed values)) among.
Proof.
  unfold complete. apply Forall_iff. intros t.
  destruct (texturesMap !! t) as [group|]; simpl.
  - rewrite packed_is_Some. split; [by intros (? & [= <-] & ?) | by eexists].
  - split; [by intros (? & [=] & _) | by intros [? [=]]].
Qed.

Lemma complete_app among among' :
  complete values texturesMap (among ++ among') ↔
  complete values texturesMap among ∧ complete values texturesMap among'.
Proof. apply Forall_app. Qed.

Lemma passChannels_is_Some pass m :
  is_Some (passChannels values texturesMap pass (Some m)) ↔
  complete values texturesMap pass.
Proof.
  rewrite complete_is_Some. revert m. induction pass as [|t pass IH]; intros m.
  - split; [constructor | by eexists].
  - rewrite passChannels_cons, Forall_cons.
    destruct (texturesMap !! t ≫= packed values) as [w|]; simpl.
    + rewrite IH. split; [by split; [eexists|] | tauto].
    + rewrite passChannels_None. split; [by intros [? [=]] | by intros [[? [=]] _]].
Qed.

Lemma mergeChannels_is_Some passes channelsMin :
  is_Some (mergeChannels values texturesMap passes channelsMin) ↔
  complete values texturesMap (concat passes).
Proof.
  unfold mergeChannels, FnLists.reduce. generalize channelsMin as m.
  induction passes as [|pass passes IH]; intros m.
  - split; [constructor | by eexists].
  - rewrite mergeChannels_cons. cbn [concat]. rewrite complete_app.
    rewrite <-(passChannels_is_Some pass m).
    destruct (passChannels values texturesMap pass (Some m)) as [m'|].
    + rewrite IH. split; [by split; [eexists|] | tauto].
    + split; [|by intros [[? [=]] _]]. intros [c Hc]. exfalso. revert Hc. clear.
      induction passes as [|p passes IH]; [done|].
      by rewrite mergeChannels_cons, passChannels_None.
Qed.

Variable channelsMin : nat.
Variable merging : bool.
Variable pool : option nat.

Lemma addPass_is_Some step pass index b :
  is_Some (addPass texturesMap values channelsMin merging pool step pass index b) ↔
  is_Some (channelsOf texturesMap values channelsMin pool pass).
Proof.
  unfold addPass. destruct (channelsOf _ _ _ _ pass) as [channels|]; simpl.
  - destruct (addTextures _ _ _ _ _ _ _) as [color b1]. split; by eexists.
  - done.
Qed.

Lemma addPasses_is_Some step among i out b :
  is_Some (FnLists.reduceFrom (λ acc pass index,
      '(out, b) ← acc;
      '(made, b) ← addPass texturesMap values channelsMin merging pool
                     step pass index b;
      Some (out ++ [made], b))
    i among (Some (out, b))) ↔
  Forall (λ pass, is_Some (channelsOf texturesMap values channelsMin pool pass))
    among.
Proof.
  revert i out b. induction among as [|pass among IH]; intros i out b.
  - split; [constructor | by eexists].
  - rewrite Forall_cons, <-(addPass_is_Some step pass i b).
    cbn [FnLists.reduceFrom mbind option_bind].
    destruct (addPass _ _ _ _ _ step pass i b) as [[fb b1]|]; cbn [mbind option_bind].
    + rewrite IH. split; [by split; [eexists|] | tauto].
    + split; [|by intros [[? [=]] _]]. intros [made Hmade]. exfalso.
      revert Hmade. clear. generalize (S i).
      induction among as [|q among IH]; intros j; [done|]. apply IH.
Qed.

Lemma addSteps_is_Some steps passes i out b :
  is_Some (FnLists.reduceFrom (λ acc given step,
      '(out, b) ← acc;
      match given with
      | Some g => Some (out ++ [StepGiven g], b)
      | None =>
          '(made, b) ← addPasses texturesMap values channelsMin merging pool
                         step passes b;
          Some (out ++ [StepMade made], b)
      end)
    i steps (Some (out, b))) ↔
  (None ∈ steps →
     Forall (λ pass, is_Some (channelsOf texturesMap values channelsMin pool pass))
       passes).
Proof.
  revert i out b. induction steps as [|given steps IH]; intros i out b.
  - split; [by intros _ ?%elem_of_nil | by eexists].
  - cbn [FnLists.reduceFrom mbind option_bind]. destruct given as [g|].
    + rewrite IH, elem_of_cons. split; [|by auto]. intros Hall [[=]|Hin]. auto.
    + pose proof (addPasses_is_Some i passes 0 [] b) as Hpasses.
      fold (FnLists.reduce (λ acc pass index,
        '(out, b) ← acc;
        '(made, b) ← addPass texturesMap values channelsMin merging pool
                       i pass index b;
        Some (out ++ [made], b)) passes (Some ([], b))) in Hpasses.
      fold (addPasses texturesMap values channelsMin merging pool i passes b)
        in Hpasses.
      destruct (addPasses _ _ _ _ _ i passes b) as [[fbs b1]|];
        cbn [mbind option_bind].
      * rewrite IH. split; [intros _ _; apply Hpasses; by eexists|].
        intros Hall _. apply Hall. by constructor.
      * split.
        -- intros [made Hmade]. exfalso. revert Hmade. clear. generalize (S i).
           induction steps as [|q steps IH]; intros j; [done|]. apply IH.
        -- intros Hall. exfalso.
           assert (is_Some (@None (list nat * Build))) as [? [=]].
           apply Hpasses, Hall. by constructor.
Qed.

End DefinedFacts.

(** The state that [getState] sets up is followed, with a number of channels
  for each texture, just for the maps that name only textures and values
  that they hold, in each pass; and, not merging, also where each step is
  given, so that no pass is set up. *)
Lemma getState_followed state :
  let values := default Const.valuesDef (State.values (State.maps state)) in
  let among := concat (State.passes (State.maps state)) in
  is_Some (State.getState state) ↔
    complete values (State.textures (State.maps state)) among ∨
    (State.mergeOf (State.merge state) = State.MergeOff ∧
     None ∉ State.stepsOf (State.steps state)).
Proof.
  intros values among. unfold State.getState. fold values.
  destruct (State.mergeOf (State.merge state)) as [|all next].
  - pose proof (addSteps_is_Some (State.textures (State.maps state)) values
      (default Const.channelsMinDef (State.channelsMin (State.maps state)))
      false None (State.stepsOf (State.steps state))
      (State.passes (State.maps state)) 0 [] State.start) as Hsteps.
    fold (FnLists.reduce (λ acc given step,
      '(out, b) ← acc;
      match given with
      | Some g => Some (out ++ [State.StepGiven g], b)
      | None =>
          '(made, b) ← State.addPasses (State.textures (State.maps state)) values
             (default Const.channelsMinDef (State.channelsMin (State.maps state)))
             false None step (State.passes (State.maps state)) b;
          Some (out ++ [State.StepMade made], b)
      end) (State.stepsOf (State.steps state)) (Some ([], State.start))) in Hsteps.
    fold (State.addSteps (State.textures (State.maps state)) values
      (default Const.channelsMinDef (State.channelsMin (State.maps state)))
      false None (State.stepsOf (State.steps state))
      (State.passes (State.maps state)) State.start) in Hsteps.
    assert (Forall (λ pass, is_Some (State.channelsOf (State.textures (State.maps state))
              values (default Const.channelsMinDef (State.channelsMin (State.maps state)))
              None pass)) (State.passes (State.maps state)) ↔
            complete values (State.textures (State.maps state)) among) as Hall.
    { subst among. unfold complete. rewrite Forall_concat. apply Forall_iff.
      intros pass. apply passChannels_is_Some. }
    rewrite Hall in Hsteps.
    destruct (State.addSteps _ _ _ _ _ _ _ _) as [[made b]|]; simpl.
    + split; [|by eexists]. intros _.
      destruct (decide (None ∈ State.stepsOf (State.steps state))) as [Hin|Hout].
      * left. apply Hsteps; [by eexists | done].
      * by right.
    + split; [by intros [? [=]]|]. intros Hor. exfalso.
      destruct Hsteps as [_ Hback]. destruct Hback as [? [=]]. tauto.
  - subst among. rewrite <-(mergeChannels_is_Some _ _ _
      (default Const.channelsMinDef (State.channelsMin (State.maps state)))).
    destruct (State.mergeChannels _ _ _ _) as [c|]; simpl.
    + pose proof (addSteps_is_Some (State.textures (State.maps state)) values
        (default Const.channelsMinDef (State.channelsMin (State.maps state)))
        true (Some c) (State.stepsOf (State.steps state))
        (State.passes (State.maps state)) 0 [] State.start) as Hsteps.
      fold (FnLists.reduce (λ acc given step,
        '(out, b) ← acc;
        match given with
        | Some g => Some (out ++ [State.StepGiven g], b)
        | None =>
            '(made, b) ← State.addPasses (State.textures (State.maps state)) values
               (default Const.channelsMinDef (State.channelsMin (State.maps state)))
               true (Some c) step (State.passes (State.maps state)) b;
            Some (out ++ [State.StepMade made], b)
        end) (State.stepsOf (State.steps state)) (Some ([], State.start))) in Hsteps.
      fold (State.addSteps (State.textures (State.maps state)) values
        (default Const.channelsMinDef (State.channelsMin (State.maps state)))
        true (Some c) (State.stepsOf (State.steps state))
        (State.passes (State.maps state)) State.start) in Hsteps.
      destruct (State.addSteps _ _ _ _ _ _ _ _) as [[made b]|]; simpl.
      * split; [intros _; left; by eexists|]. intros _.
        destruct all, next; simpl; by eexists.
      * exfalso. assert (is_Some (@None (list State.Step * State.Build))) as [? [=]].
        apply Hsteps. intros _. apply Forall_forall. intros pass _. by eexists.
    + split; [by intros [? [=]]|]. intros [[? [=]]|[[=] _]].
Qed.

(** X10: when [getState] sets a state up.  For maps that name only textures
  and values that they hold, in each pass, [getState] sets a state up,
  whatever the steps and the merging, with a number of channels for each
  texture; and so it does, not merging, where each step is given, as it sets
  up no pass then. *)
Theorem getState_defined state :
  let values := default Const.valuesDef (State.values (State.maps state)) in
  let among := concat (State.passes (State.maps state)) in
  complete values (State.textures (State.maps state)) among ∨
  (State.mergeOf (State.merge state) = State.MergeOff ∧
   None ∉ State.stepsOf (State.steps state)) →
  is_Some (State.getState state).
Proof. intros values among Hmaps. by apply getState_followed. Qed.

(** ** Properties of the state set-up: what is laid out *)

Section LiftFacts.
Import State.
Variable texturesMap : list (list nat).
Variable values : list nat.
Variable channelsMin : nat.
Variable merging : bool.
Variable pool : option nat.
Variable steps : list (option nat).
Variable passes : list (list nat).

(** What holds before each step, of [to.steps] so far and the state, and
  before each pass of a step to set up, of its [framebuffer]s so far too. *)
Variable uponStep : nat → list Step → Build → Prop.
Variable uponPass : nat → list Step → nat → list nat → Build → Prop.

Hypothesis given_kept : ∀ s g out b,
  steps !! s = Some (Some g) → uponStep s out b → uponStep (S s) (out ++ [StepGiven g]) b.
Hypothesis step_entered : ∀ s out b,
  steps !! s = Some None → uponStep s out b → uponPass s out 0 [] b.
Hypothesis pass_added : ∀ s out i pass fbs b fb b',
  steps !! s = Some None → passes !! i = Some pass → uponPass s out i fbs b →
  addPass texturesMap values channelsMin merging pool s pass i b = Some (fb, b') →
  uponPass s out (S i) (fbs ++ [fb]) b'.
Hypothesis step_left : ∀ s out fbs b,
  steps !! s = Some None → uponPass s out (length passes) fbs b →
  uponStep (S s) (out ++ [StepMade fbs]) b.

Lemma addPasses_lift s out b fbs b' :
  steps !! s = Some None → uponStep s out b →
  addPasses texturesMap values channelsMin merging pool s passes b = Some (fbs, b') →
  uponPass s out (length passes) fbs b'.
Proof.
  intros Hs Hb. unfold addPasses, FnLists.reduce.
  pose proof (reduceFrom_invariant
    (λ i acc, match acc with
              | Some (fbs, b) => uponPass s out i fbs b
              | None => True
              end)
    (λ acc pass index,
      '(out, b) ← acc;
      '(made, b) ← addPass texturesMap values channelsMin merging pool s pass index b;
      Some (out ++ [made], b))
    0 passes (Some ([], b))) as Hfold.
  cbv beta in Hfold. intros Hmade. rewrite Hmade in Hfold. apply Hfold.
  - by apply step_entered.
  - intros j [[fbs1 b1]|] pass Hpass _ Hacc; simpl; [|done].
    rewrite Nat.sub_0_r in Hpass.
    destruct (addPass _ _ _ _ _ s pass j b1) as [[fb b2]|] eqn:Hadd; simpl;
      [|done].
    by eapply pass_added.
Qed.

Lemma addSteps_lift out b :
  addSteps texturesMap values channelsMin merging pool steps passes start
    = Some (out, b) →
  uponStep 0 [] start → uponStep (length steps) out b.
Proof.
  intros Hmade Hstart. unfold addSteps, FnLists.reduce in Hmade.
  pose proof (reduceFrom_invariant
    (λ s acc, match acc with
              | Some (out, b) => uponStep s out b
              | None => True
              end)
    (λ acc given step,
      '(out, b) ← acc;
      match given with
      | Some g => Some (out ++ [StepGiven g], b)
      | None =>
          '(made, b) ← addPasses texturesMap values channelsMin merging pool
                         step passes b;
          Some (out ++ [StepMade made], b)
      end)
    0 steps (Some ([], start))) as Hfold.
  cbv beta in Hfold. rewrite Hmade in Hfold. apply Hfold; [done|].
  intros s [[out1 b1]|] given Hs _ Hacc; simpl; [|done].
  rewrite Nat.sub_0_r in Hs. destruct given as [g|].
  - by apply given_kept.
  - destruct (addPasses _ _ _ _ _ s passes b1) as [[fbs b2]|] eqn:Hadd; simpl;
      [|done].
    apply step_left; [done|]. by eapply addPasses_lift.
Qed.

End LiftFacts.

Section TextureFacts.
Import State.
Variable texturesMap : list (list nat).

Lemma addTexture_reuse channels step p t c color b made :
  color !! c = Some made →
  addTexture texturesMap channels step p t c color b =
  (made,
   {| size := {| sizePasses := sizePasses (size b);
                 sizeFramebuffers := sizeFramebuffers (size b);
                 sizeTextures := sizeTextures (size b);
                 sizeColors := S (sizeColors (size b)) |};
      texturesMade :=
        <[(step, t) := {| channels := channels; texture := made; entry := c;
                          step := Some step; color := Some (sizeColors (size b));
                          pass := Some p; index := Some t;
                          map := texturesMap !! t |}]> (texturesMade b);
      passesMade := passesMade b;
      colorPool := colorPool b;
      created := created b |}).
Proof. intros Hmade. unfold addTexture. by rewrite Hmade. Qed.

Lemma addTexture_make channels step p t c color b :
  color !! c = None →
  addTexture texturesMap channels step p t c color b =
  (length (created b),
   {| size := {| sizePasses := sizePasses (size b);
                 sizeFramebuffers := sizeFramebuffers (size b);
                 sizeTextures := S (sizeTextures (size b));
                 sizeColors := S (sizeColors (size b)) |};
      texturesMade :=
        <[(step, t) := {| channels := channels; texture := length (created b);
                          entry := sizeTextures (size b);
                          step := Some step; color := Some (sizeColors (size b));
                          pass := Some p; index := Some t;
                          map := texturesMap !! t |}]> (texturesMade b);
      passesMade := passesMade b;
      colorPool := colorPool b;
      created := created b ++ [channels] |}).
Proof. intros Hnone. unfold addTexture. by rewrite Hnone. Qed.

(** The attachments of a pass, from the attachment [i] on: the textures
  bound are numbered from [base] on, made where there is none to reuse. *)
Lemma addTextures_laid channels step p among i out b base out' b' :
  out = seq base (length out) →
  length (created b) = base + length out →
  sizeTextures (size b) = length (created b) →
  i ≤ length out → (base = 0 ∨ i = length out) →
  FnLists.reduceFrom (λ '(out, b) t c,
      let '(made, b) := addTexture texturesMap channels step p t c out b in
      (setAt c made out, b)) i among (out, b) = (out', b') →
  let bound := length out `max` (i + length among) in
  out' = seq base bound ∧
  length (created b') = base + bound ∧
  sizeTextures (size b') = length (created b') ∧
  sizePasses (size b') = sizePasses (size b) ∧
  sizeFramebuffers (size b') = sizeFramebuffers (size b) ∧
  sizeColors (size b') = sizeColors (size b) + length among ∧
  passesMade b' = passesMade b ∧
  colorPool b' = colorPool b ∧
  (∀ key, key.1 ≠ step ∨ key.2 ∉ among →
     texturesMade b' !! key = texturesMade b !! key) ∧
  (∀ t, t ∈ among → ∃ c, among !! c = Some t ∧
     texturesMade b' !! (step, t) =
       Some {| channels := channels; texture := base + (i + c);
               entry := base + (i + c); step := Some step;
               color := Some (sizeColors (size b) + c); pass := Some p;
               index := Some t; map := texturesMap !! t |}).
Proof.
  revert i out b. induction among as [|t0 among IH]; intros i out b Hout Hcreated
    Hsize Hi Hbase; cbn [FnLists.reduceFrom].
  - intros [= <- <-]. cbn zeta. cbn [length]. rewrite Nat.add_0_r, Nat.max_l by done.
    repeat split; try done; try lia.
    intros t Ht. by apply elem_of_nil in Ht.
  - destruct (out !! i) as [t1|] eqn:Hlook.
    + (* an attachment to reuse *)
      assert (i < length out) as Hlt by (by eapply lookup_lt_Some).
      assert (base = 0) as -> by lia.
      assert (t1 = i) as ->.
      { rewrite Hout in Hlook. apply lookup_seq in Hlook. lia. }
      assert (setAt i i out = out) as Hset.
      { unfold setAt. rewrite decide_True by done. by apply list_insert_id. }
      rewrite (addTexture_reuse _ _ _ _ _ _ _ _ Hlook), Hset. intros Hrest.
      apply IH in Hrest; [|done|done|done|lia|by left].
      cbn [size sizeColors sizePasses sizeFramebuffers sizeTextures
           texturesMade passesMade colorPool created] in Hrest.
      cbn zeta in Hrest |- *. cbn [length].
      destruct Hrest as (Hout' & Hcreated' & Hsize' & Hpasses & Hframebuffers &
                         Hcolors & Hmade & Hpool & Hother & Hthis).
      replace (length out `max` (i + S (length among)))
        with (length out `max` (S i + length among)) by lia.
      do 5 (split; [done|]). split; [lia|]. split; [done|]. split; [done|]. split.
      * intros key Hkey. rewrite Hother.
        -- apply lookup_insert_ne. intros <-. simpl in Hkey.
           rewrite not_elem_of_cons in Hkey. tauto.
        -- rewrite not_elem_of_cons in Hkey. tauto.
      * intros t Ht. destruct (decide (t ∈ among)) as [Hin|Hout0].
        -- destruct (Hthis t Hin) as (c & Hc & Htex). exists (S c).
           split; [done|]. rewrite Htex. do 2 f_equal; [lia | lia | f_equal; lia].
        -- apply elem_of_cons in Ht as [->|]; [|done]. exists 0.
           split; [done|]. rewrite Hother by (right; done).
           rewrite lookup_insert_eq. do 2 f_equal; [lia | lia | f_equal; lia].
    + (* a texture to make *)
      assert (i = length out) as Hlen.
      { apply lookup_ge_None in Hlook. lia. }
      assert (setAt i (length (created b)) out = seq base (S (length out))) as Hset.
      { unfold setAt. rewrite decide_False by lia.
        rewrite seq_S, <-Hout. do 2 f_equal. lia. }
      rewrite (addTexture_make _ _ _ _ _ _ _ Hlook), Hset. intros Hrest.
      apply IH in Hrest;
        cbn [size sizeColors sizePasses sizeFramebuffers sizeTextures
             texturesMade passesMade colorPool created];
        rewrite ?length_seq, ?length_app; cbn [length]; [|done|lia|lia|lia|lia].
      cbn [size sizeColors sizePasses sizeFramebuffers sizeTextures
           texturesMade passesMade colorPool created] in Hrest.
      rewrite length_seq in Hrest.
      cbn zeta in Hrest |- *. cbn [length].
      destruct Hrest as (Hout' & Hcreated' & Hsize' & Hpasses & Hframebuffers &
                         Hcolors & Hmade & Hpool & Hother & Hthis).
      replace (length out `max` (i + S (length among)))
        with (S (length out) `max` (S i + length among)) by lia.
      do 5 (split; [done|]). split; [lia|]. split; [done|]. split; [done|]. split.
      * intros key Hkey. rewrite Hother.
        -- apply lookup_insert_ne. intros <-. simpl in Hkey.
           rewrite not_elem_of_cons in Hkey. tauto.
        -- rewrite not_elem_of_cons in Hkey. tauto.
      * intros t Ht. destruct (decide (t ∈ among)) as [Hin|Hout0].
        -- destruct (Hthis t Hin) as (c & Hc & Htex). exists (S c).
           split; [done|]. rewrite Htex. do 2 f_equal; [lia | lia | f_equal; lia].
        -- apply elem_of_cons in Ht as [->|]; [|done]. exists 0.
           split; [done|]. rewrite Hother by (right; done).
           rewrite lookup_insert_eq. do 2 f_equal; [lia | lia | f_equal; lia].
Qed.

End TextureFacts.

Section PassFacts.
Import State.
Variable texturesMap : list (list nat).
Variable values : list nat.
Variable channelsMin : nat.
Variable merging : bool.
Variable pool : option nat.

(** A pass: its [framebuffer] and its attachments, numbered as made. *)
Lemma addPass_laid step pass index b fb b' :
  addPass texturesMap values channelsMin merging pool step pass index b
    = Some (fb, b') →
  Laid.tidy merging b →
  let base := if merging then 0 else length (created b) in
  Laid.tidy merging b' ∧ fb = sizeFramebuffers (size b) ∧
  sizePasses (size b') = S (sizePasses (size b)) ∧
  sizeFramebuffers (size b') = S (sizeFramebuffers (size b)) ∧
  sizeColors (size b') = sizeColors (size b) + length pass ∧
  (merging = false → length (created b') = length (created b) + length pass) ∧
  passesMade b' =
    <[(step, index) :=
        {| passColor := if merging then ColorPool
                        else ColorOwn (seq base (length pass));
           framebuffer := sizeFramebuffers (size b);
           passEntry := sizeFramebuffers (size b);
           passMap := Some pass;
           passPass := Some (sizePasses (size b));
           passStep := Some step;
           passIndex := Some index |}]> (passesMade b) ∧
  (∀ key, key.1 ≠ step ∨ key.2 ∉ pass →
     texturesMade b' !! key = texturesMade b !! key) ∧
  (∀ t, t ∈ pass → ∃ c channels, pass !! c = Some t ∧
     texturesMade b' !! (step, t) =
       Some {| channels := channels; texture := base + c; entry := base + c;
               step := Some step; color := Some (sizeColors (size b) + c);
               pass := Some index; index := Some t; map := texturesMap !! t |}).
Proof.
  intros Hmade [Hsize Hpool] base. unfold addPass in Hmade.
  destruct (channelsOf _ _ _ _ pass) as [channels|]; [|done].
  cbn [mbind option_bind] in Hmade. unfold addTextures, FnLists.reduce in Hmade.
  destruct (FnLists.reduceFrom _ _ _ _) as [color b1] eqn:Hfold.
  apply (addTextures_laid _ _ _ _ _ _ _ _ base) in Hfold.
  - cbn zeta in Hfold.
    destruct Hfold as (Hcolor & Hcreated1 & Hsize1 & Hpasses1 & Hframebuffers1 &
                       Hcolors1 & Hmade1 & Hpool1 & Hother & Hthis).
    injection Hmade as <- <-.
    cbn [size sizeColors sizePasses sizeFramebuffers sizeTextures
         texturesMade passesMade colorPool created].
    split; [|split; [done|]; split; [by rewrite Hpasses1|];
               split; [by rewrite Hframebuffers1|]; split; [done|]; split; [|split; [|split]]].
    + split; [done|]. intros ->. subst base. simpl in *.
      rewrite Hcolor, Hcreated1. done.
    + intros ->. subst base. simpl in Hcreated1. lia.
    + rewrite Hmade1, Hframebuffers1, Hpasses1. do 3 f_equal.
      destruct merging; [done|]. simpl in Hcolor. by rewrite Hcolor.
    + done.
    + intros t Ht. destruct (Hthis t Ht) as (c & Hc & Htex).
      exists c, channels. split; [done|]. by rewrite Htex.
  - subst base. destruct merging.
    + rewrite Hpool by done. by rewrite length_seq.
    + done.
  - subst base. destruct merging.
    + rewrite Hpool by done. by rewrite length_seq.
    + simpl. lia.
  - done.
  - lia.
  - subst base. destruct merging; [by left | by right].
Qed.

End PassFacts.

Section LaidFacts.
Import State.
Variable texturesMap : list (list nat).
Variable values : list nat.
Variable channelsMin : nat.
Variable merging : bool.
Variable pool : option nat.
Variable steps : list (option nat).
Variable passes : list (list nat).


Lemma stepsToMake_snoc (l : list (option nat)) given :
  stepsToMake (l ++ [given]) =
  stepsToMake l + match given with None => 1 | Some _ => 0 end.
Proof.
  unfold stepsToMake. rewrite filter_app, length_app. f_equal.
  destruct given; [by rewrite filter_cons_False | by rewrite filter_cons_True].
Qed.

Lemma passesBefore_pass s i :
  Laid.passesBefore steps passes s (S i) = S (Laid.passesBefore steps passes s i).
Proof. unfold Laid.passesBefore. lia. Qed.

Lemma colorsBefore_pass s i pass :
  passes !! i = Some pass →
  Laid.colorsBefore steps passes s (S i) =
  Laid.colorsBefore steps passes s i + length pass.
Proof.
  intros Hpass. unfold Laid.colorsBefore.
  rewrite (take_S_r _ _ _ Hpass), concat_app, length_app. simpl.
  rewrite app_nil_r. lia.
Qed.

Lemma passesBefore_given s g :
  steps !! s = Some (Some g) →
  Laid.passesBefore steps passes (S s) 0 = Laid.passesBefore steps passes s 0.
Proof.
  intros Hs. unfold Laid.passesBefore.
  rewrite (take_S_r _ _ _ Hs), stepsToMake_snoc. lia.
Qed.

Lemma colorsBefore_given s g :
  steps !! s = Some (Some g) →
  Laid.colorsBefore steps passes (S s) 0 = Laid.colorsBefore steps passes s 0.
Proof.
  intros Hs. unfold Laid.colorsBefore.
  rewrite (take_S_r _ _ _ Hs), stepsToMake_snoc. lia.
Qed.

Lemma passesBefore_made s :
  steps !! s = Some None →
  Laid.passesBefore steps passes (S s) 0 =
  Laid.passesBefore steps passes s (length passes).
Proof.
  intros Hs. unfold Laid.passesBefore.
  rewrite (take_S_r _ _ _ Hs), stepsToMake_snoc. lia.
Qed.

Lemma colorsBefore_made s :
  steps !! s = Some None →
  Laid.colorsBefore steps passes (S s) 0 =
  Laid.colorsBefore steps passes s (length passes).
Proof.
  intros Hs. unfold Laid.colorsBefore.
  rewrite (take_S_r _ _ _ Hs), stepsToMake_snoc, firstn_all. simpl. lia.
Qed.

Lemma textureAt_before s0 i0 s1 i1 s t tex :
  (∀ p, Laid.before s0 i0 s p → Laid.before s1 i1 s p) →
  Laid.textureAt texturesMap merging steps passes s0 i0 s t tex →
  Laid.textureAt texturesMap merging steps passes s1 i1 s t tex.
Proof.
  intros Hbefore (Hstep & Hindex & Hmap & Hentry & p & pass & c & Hs & Hp & Hrest).
  repeat (split; [done|]). exists p, pass, c. split; [done|]. split; [auto|done].
Qed.

Lemma laid_start : Laid.laid texturesMap merging steps passes 0 0 start.
Proof.
  unfold Laid.laid, Laid.tidy, Laid.passesBefore, Laid.colorsBefore, Laid.before.
  simpl. do 5 (split; [done|]). split; [|split; [|split]].
  - intros s i pass _ _ [?|[_ ?]]; lia.
  - intros s i to. by rewrite lookup_empty.
  - intros s t tex. by rewrite lookup_empty.
  - intros s p pass t _ _ _ [?|[_ ?]]; lia.
Qed.

Lemma laid_given s g b :
  steps !! s = Some (Some g) →
  Laid.laid texturesMap merging steps passes s 0 b →
  Laid.laid texturesMap merging steps passes (S s) 0 b.
Proof.
  intros Hs (Htidy & Hpasses & Hframebuffers & Hcolors & Hcreated &
             Hmade & Hkeys & Htextures & Hdomain).
  assert (∀ s' p, steps !! s' = Some None →
            Laid.before (S s) 0 s' p → Laid.before s 0 s' p) as Hback.
  { intros s' p Hs' [Hlt|[_ Hlt]]; [|lia]. left.
    destruct (decide (s' = s)) as [->|]; [congruence|lia]. }
  assert (∀ s' p, Laid.before s 0 s' p → Laid.before (S s) 0 s' p) as Hon.
  { intros s' p [Hlt|[_ Hlt]]; [left|]; lia. }
  unfold Laid.laid.
  rewrite (passesBefore_given s g Hs), (colorsBefore_given s g Hs).
  do 5 (split; [done|]). split; [|split; [|split]].
  - intros s' i pass Hs' Hi Hbefore. apply Hmade; auto.
  - intros s' i to Hto. destruct (Hkeys s' i to Hto) as (Hs' & Hi & Hbefore). auto.
  - intros s' t tex Htex. eapply textureAt_before; [|by apply Htextures]. auto.
  - intros s' p pass t Hs' Hp Ht Hbefore. eapply Hdomain; eauto.
Qed.

Lemma laid_made s b :
  steps !! s = Some None →
  Laid.laid texturesMap merging steps passes s (length passes) b →
  Laid.laid texturesMap merging steps passes (S s) 0 b.
Proof.
  intros Hs (Htidy & Hpasses & Hframebuffers & Hcolors & Hcreated &
             Hmade & Hkeys & Htextures & Hdomain).
  assert (∀ s' p, p < length passes →
            Laid.before (S s) 0 s' p → Laid.before s (length passes) s' p) as Hback.
  { intros s' p Hp [Hlt|[_ Hlt]]; [|lia].
    destruct (decide (s' = s)) as [->|]; [by right | left; lia]. }
  assert (∀ s' p, Laid.before s (length passes) s' p → Laid.before (S s) 0 s' p)
    as Hon.
  { intros s' p [Hlt|[-> Hlt]]; left; lia. }
  unfold Laid.laid.
  rewrite (passesBefore_made s Hs), (colorsBefore_made s Hs).
  do 5 (split; [done|]). split; [|split; [|split]].
  - intros s' i pass Hs' Hi Hbefore. apply Hmade; [done..|].
    apply Hback; [by eapply lookup_lt_Some | done].
  - intros s' i to Hto. destruct (Hkeys s' i to Hto) as (Hs' & Hi & Hbefore). auto.
  - intros s' t tex Htex. eapply textureAt_before; [|by apply Htextures]. auto.
  - intros s' p pass t Hs' Hp Ht Hbefore. eapply Hdomain; [done..|].
    apply Hback; [by eapply lookup_lt_Some | done].
Qed.

Lemma laid_pass s i pass b fb b' :
  steps !! s = Some None → passes !! i = Some pass →
  Laid.laid texturesMap merging steps passes s i b →
  addPass texturesMap values channelsMin merging pool s pass i b = Some (fb, b') →
  Laid.laid texturesMap merging steps passes s (S i) b' ∧
  fb = Laid.passesBefore steps passes s i.
Proof.
  intros Hs Hi (Htidy & Hpasses & Hframebuffers & Hcolors & Hcreated &
                Hmade & Hkeys & Htextures & Hdomain) Hadd.
  destruct (addPass_laid _ _ _ _ _ _ _ _ _ _ _ Hadd Htidy)
    as (Htidy' & Hfb & Hpasses' & Hframebuffers' & Hcolors' & Hcreated' &
        Hmade' & Hother & Hthis).
  cbv zeta in Hmade', Hthis.
  assert (∀ s' p, Laid.before s i s' p → Laid.before s (S i) s' p) as Hon.
  { intros s' p [Hlt|[-> Hlt]]; [left | right]; lia. }
  assert (∀ s' p, Laid.before s (S i) s' p →
            (s' = s ∧ p = i) ∨ Laid.before s i s' p) as Hback.
  { intros s' p [Hlt|[-> Hlt]]; [right; by left|].
    destruct (decide (p = i)) as [->|]; [by left | right; right; lia]. }
  assert ((if merging then 0 else length (created b)) =
          if merging then 0 else Laid.colorsBefore steps passes s i) as Hbase.
  { destruct merging; [done|]. by rewrite Hcreated. }
  split; [|by rewrite Hfb, Hframebuffers].
  unfold Laid.laid. rewrite passesBefore_pass, (colorsBefore_pass s i pass Hi).
  split; [done|]. split; [lia|]. split; [lia|]. split; [lia|].
  split; [intros Hoff; rewrite Hcreated' by done; rewrite Hcreated by done; lia|].
  split; [|split; [|split]].
  - intros s' i' pass' Hs' Hi' Hbefore. rewrite Hmade'.
    destruct (Hback s' i' Hbefore) as [[-> ->]|Hold].
    + rewrite lookup_insert_eq. f_equal. unfold Laid.passAt.
      assert (pass' = pass) as -> by congruence.
      rewrite Hframebuffers, Hpasses, Hbase. by destruct merging.
    + rewrite lookup_insert_ne; [by apply Hmade|].
      intros [= <- <-]. destruct Hold as [?|[_ ?]]; lia.
  - intros s' i' to. rewrite Hmade', lookup_insert_Some.
    intros [[[= <- <-] _]|[_ Hto]].
    + split; [done|]. split; [by eapply lookup_lt_Some|]. right. split; [done|lia].
    + destruct (Hkeys s' i' to Hto) as (Hs' & Hi' & Hbefore). auto.
  - intros s' t tex Htex.
    destruct (decide (s' = s ∧ t ∈ pass)) as [[-> Ht]|Hnot].
    + destruct (Hthis t Ht) as (c & channels & Hc & Hnew).
      rewrite Hnew in Htex. injection Htex as <-.
      unfold Laid.textureAt. cbn [State.step State.index State.map State.entry
        State.texture State.pass State.color].
      do 4 (split; [done|]). exists i, pass, c. split; [done|].
      split; [right; split; [done|lia]|]. split; [done|]. split; [done|].
      split; [done|]. split; [by rewrite Hcolors|].
      rewrite Hbase. by destruct merging.
    + rewrite Hother in Htex.
      * eapply textureAt_before; [|by apply Htextures]. auto.
      * simpl. destruct (decide (s' = s)); [right|left]; tauto.
  - intros s' p pass' t Hs' Hp Ht Hbefore.
    destruct (decide (s' = s ∧ t ∈ pass)) as [[-> Ht']|Hnot].
    + destruct (Hthis t Ht') as (c & channels & Hc & Hnew). by rewrite Hnew.
    + rewrite Hother.
      * destruct (Hback s' p Hbefore) as [[-> ->]|Hold]; [|by eapply Hdomain].
        exfalso. apply Hnot. split; [done|]. congruence.
      * simpl. destruct (decide (s' = s)); [right|left]; tauto.
Qed.

(** What [getState] sets up for the steps: all is laid out. *)
Lemma addSteps_laid out b :
  addSteps texturesMap values channelsMin merging pool steps passes start
    = Some (out, b) →
  Laid.laid texturesMap merging steps passes (length steps) 0 b ∧
  out = Laid.stepsAt steps passes (length steps).
Proof.
  intros Hmade.
  apply (addSteps_lift texturesMap values channelsMin merging pool steps passes
    (λ s out b,
       Laid.laid texturesMap merging steps passes s 0 b ∧
       out = Laid.stepsAt steps passes s)
    (λ s out i fbs b,
       Laid.laid texturesMap merging steps passes s i b ∧
       out = Laid.stepsAt steps passes s ∧
       fbs = seq (Laid.passesBefore steps passes s 0) i)); [| | | |done|].
  - intros s g out1 b1 Hs [Hlaid ->]. split; [by eapply laid_given|].
    unfold Laid.stepsAt. by rewrite (take_S_r _ _ _ Hs), imap_app.
  - intros s out1 b1 Hs [Hlaid ->]. done.
  - intros s out1 i pass fbs b1 fb b2 Hs Hi (Hlaid & -> & ->) Hadd.
    destruct (laid_pass s i pass b1 fb b2 Hs Hi Hlaid Hadd) as [Hlaid' ->].
    split; [done|]. split; [done|]. rewrite seq_S. f_equal.
    unfold Laid.passesBefore. f_equal. f_equal. lia.
  - intros s out1 fbs b1 Hs (Hlaid & -> & ->). split; [by apply laid_made|].
    unfold Laid.stepsAt. rewrite (take_S_r _ _ _ Hs), imap_app. simpl.
    rewrite length_take_le by (apply lookup_lt_Some in Hs; lia).
    by rewrite Nat.add_0_r.
  - split; [apply laid_start | done].
Qed.

End LaidFacts.

Section SetUpLaid.
Import State.

(** [getState]: what the steps set up, and what merging adds to it. *)
Lemma getState_laid state made :
  getState state = Some made →
  let steps := stepsOf (State.steps state) in
  let passes := State.passes (State.maps state) in
  ∃ b,
    Laid.laid (State.textures (State.maps state)) (merges state) steps passes
      (length steps) 0 b ∧
    stepsMade made = Laid.stepsAt steps passes (length steps) ∧
    sizeSteps made = length steps ∧
    passesMade (built made) = passesMade b ∧
    texturesMade (built made) = texturesMade b ∧
    sizePasses (size (built made)) = sizePasses (size b) ∧
    sizeColors (size (built made)) = sizeColors (size b) ∧
    match mergeOf (State.merge state) with
    | MergeOff => built made = b
    | MergeOn all next =>
        sizeFramebuffers (size (built made)) =
          sizeFramebuffers (size b) + (if next then 0 else 1) ∧
        sizeTextures (size (built made)) =
          sizeTextures (size b) + (if all then 0 else 1)
    end.
Proof.
  intros Hstate steps passes. unfold getState in Hstate. unfold merges.
  fold steps passes in Hstate.
  destruct (mergeOf (State.merge state)) as [|all next].
  - destruct (addSteps _ _ _ _ _ _ _ _) as [[out b]|] eqn:Hsteps; [|done].
    apply addSteps_laid in Hsteps as [Hlaid ->].
    injection Hstate as <-. exists b. simpl. done.
  - destruct (mergeChannels _ _ _ _) as [c|]; [|done]. simpl in Hstate.
    destruct (addSteps _ _ _ _ _ _ _ _) as [[out b]|] eqn:Hsteps; [|done].
    apply addSteps_laid in Hsteps as [Hlaid ->].
    simpl in Hstate. exists b.
    destruct all, next; simpl in Hstate; injection Hstate as <-; simpl;
      do 7 (split; [done|]); split; lia.
Qed.

Lemma getState_textureAt state made s t tex :
  getState state = Some made →
  texturesMade (built made) !! (s, t) = Some tex →
  Laid.textureAt (State.textures (State.maps state)) (merges state)
    (stepsOf (State.steps state)) (State.passes (State.maps state))
    (length (stepsOf (State.steps state))) 0 s t tex.
Proof.
  intros Hstate Htex.
  destruct (getState_laid state made Hstate)
    as (b & Hlaid & _ & _ & _ & Hmade & _).
  rewrite Hmade in Htex.
  destruct Hlaid as (_ & _ & _ & _ & _ & _ & _ & Htextures & _).
  by apply Htextures.
Qed.

End SetUpLaid.

(** X11: the counts of [to.size].  With [k] steps to set up, those not
  given: there are as many steps as given or asked for; [k] times the passes
  of the maps are set up, each with a [framebuffer], and one more
  [framebuffer] if merging and not given one to copy with; the attachments
  bound are [k] times the textures of all passes; and if not merging, as
  many textures are made as attachments bound. *)
Theorem sizes_counted state made :
  State.getState state = Some made →
  let steps := State.stepsOf (State.steps state) in
  let passes := State.passes (State.maps state) in
  let size := State.size (State.built made) in
  State.sizeSteps made = length steps ∧
  State.sizePasses size = stepsToMake steps * length passes ∧
  State.sizeColors size = stepsToMake steps * length (concat passes) ∧
  State.sizeFramebuffers size =
    stepsToMake steps * length passes +
    match State.mergeOf (State.merge state) with
    | State.MergeOn _ false => 1
    | _ => 0
    end ∧
  (State.mergeOf (State.merge state) = State.MergeOff →
     State.sizeTextures size = stepsToMake steps * length (concat passes) ∧
     length (State.created (State.built made)) =
       stepsToMake steps * length (concat passes)).
Proof.
  intros Hstate steps passes size.
  destruct (getState_laid state made Hstate)
    as (b & Hlaid & _ & Hsteps & _ & _ & Hpasses & Hcolors & Hmerge).
  fold steps passes in Hlaid.
  destruct Hlaid as ([Htidy _] & Hp & Hf & Hc & Hcreated & _).
  unfold Laid.passesBefore, Laid.colorsBefore in Hp, Hf, Hc, Hcreated.
  rewrite firstn_all in Hp, Hf, Hc, Hcreated. simpl in Hp, Hf, Hc, Hcreated.
  subst size. split; [done|]. split; [lia|]. split; [lia|].
  unfold merges in Hcreated.
  destruct (State.mergeOf (State.merge state)) as [|all next].
  - subst b. split; [lia|]. intros _. specialize (Hcreated eq_refl). lia.
  - destruct Hmerge as [Hframebuffers _]. split; [|done].
    destruct next; lia.
Qed.

(** X12: [to.steps].  Each step given is kept as it is; each other step
  holds the [framebuffer]s of its passes, one for each pass of the maps in
  order; the [framebuffer]s are numbered as made, step after step. *)
Theorem steps_set_up state made :
  State.getState state = Some made →
  let steps := State.stepsOf (State.steps state) in
  let passes := State.passes (State.maps state) in
  State.stepsMade made =
    imap (λ s given,
        match given with
        | Some g => State.StepGiven g
        | None =>
            State.StepMade
              (seq (stepsToMake (take s steps) * length passes) (length passes))
        end)
      steps.
Proof.
  intros Hstate steps passes.
  destruct (getState_laid state made Hstate) as (b & _ & -> & _).
  fold steps passes. unfold Laid.stepsAt. rewrite firstn_all.
  apply imap_ext. intros s given _. destruct given; [done|].
  unfold Laid.passesBefore. by rewrite Nat.add_0_r.
Qed.

(** X13: [to.passes].  A pass is kept for a step and an index just when the
  step is one set up here and the index that of a pass of the maps.  It holds
  this pass, step and index; it is numbered as its [framebuffer] is, which is
  the one kept at the index in [to.steps] for the step; and its attachments
  are the shared ones if merging, or else textures of its own, as many as
  the pass binds, numbered as made. *)
Theorem passes_set_up state made s i :
  State.getState state = Some made →
  let steps := State.stepsOf (State.steps state) in
  let passes := State.passes (State.maps state) in
  State.passesMade (State.built made) !! (s, i) =
    match steps !! s, passes !! i with
    | Some None, Some pass => Some (Laid.passAt (merges state) steps passes s i pass)
    | _, _ => None
    end ∧
  ∀ pass, steps !! s = Some None → passes !! i = Some pass →
    ∃ framebuffers,
      State.stepsMade made !! s = Some (State.StepMade framebuffers) ∧
      framebuffers !! i =
        Some (State.framebuffer (Laid.passAt (merges state) steps passes s i pass)).
Proof.
  intros Hstate steps passes.
  destruct (getState_laid state made Hstate)
    as (b & Hlaid & Hsteps & _ & -> & _).
  fold steps passes in Hlaid, Hsteps.
  destruct Hlaid as (_ & _ & _ & _ & _ & Hmade & Hkeys & _). split.
  - destruct (State.passesMade b !! (s, i)) as [to|] eqn:Hto.
    + destruct (Hkeys s i to Hto) as (Hs & Hi & Hbefore).
      apply lookup_lt_is_Some in Hi as [pass Hpass].
      rewrite Hs, Hpass. rewrite (Hmade s i pass Hs Hpass Hbefore) in Hto.
      by injection Hto as <-.
    + destruct (steps !! s) as [[g|]|] eqn:Hs; [done| |done].
      destruct (passes !! i) as [pass|] eqn:Hpass; [|done].
      rewrite (Hmade s i pass Hs Hpass) in Hto; [done|].
      left. by eapply lookup_lt_Some.
  - intros pass Hs Hpass. rewrite Hsteps. unfold Laid.stepsAt.
    rewrite firstn_all, list_lookup_imap, Hs. simpl. eexists. split; [done|].
    rewrite lookup_seq_lt by (by eapply lookup_lt_Some).
    unfold Laid.passesBefore. f_equal. lia.
Qed.

(** X14: [to.textures].  A texture is kept for a step and a texture of the
  maps just when the step is one set up here and a pass binds the texture.
  It holds this step and texture, and the values of the texture; it is the
  attachment of a pass that binds the texture, and is numbered as its entry
  is: if merging, by where it is bound in the pass, so that the passes of
  all steps bind the same textures; or else as the attachment is, each
  attachment being a texture of its own. *)
Theorem textures_set_up state made s t :
  State.getState state = Some made →
  let steps := State.stepsOf (State.steps state) in
  let passes := State.passes (State.maps state) in
  (is_Some (State.texturesMade (State.built made) !! (s, t)) ↔
     steps !! s = Some None ∧ t ∈ concat passes) ∧
  ∀ tex, State.texturesMade (State.built made) !! (s, t) = Some tex →
    Laid.textureAt (State.textures (State.maps state)) (merges state) steps passes
      (length steps) 0 s t tex.
Proof.
  intros Hstate steps passes.
  destruct (getState_laid state made Hstate)
    as (b & Hlaid & _ & _ & _ & -> & _).
  fold steps passes in Hlaid.
  destruct Hlaid as (_ & _ & _ & _ & _ & _ & _ & Htextures & Hdomain).
  split; [|by intros tex; apply Htextures]. split.
  - intros [tex Htex].
    destruct (Htextures s t tex Htex)
      as (_ & _ & _ & _ & p & pass & c & Hs & _ & Hp & Hc & _).
    split; [done|]. apply (elem_of_concat _ pass).
    + by eapply list_elem_of_lookup_2.
    + by eapply list_elem_of_lookup_2.
  - intros [Hs Ht]. apply list_elem_of_lookup in Ht as [j Hj].
    assert (∃ pass, pass ∈ passes ∧ t ∈ pass) as (pass & Hpass & Hin).
    { clear -Hj. revert j Hj. induction passes as [|pass rest IH]; intros j Hj;
        [done|]. simpl in Hj. destruct (decide (j < length pass)) as [Hlt|Hge].
      - rewrite lookup_app_l in Hj by done. exists pass.
        split; [by constructor | by eapply list_elem_of_lookup_2].
      - rewrite lookup_app_r in Hj by lia.
        destruct (IH _ Hj) as (q & Hq & Hin). exists q.
        split; [by constructor | done]. }
    apply list_elem_of_lookup in Hpass as [p Hp].
    apply (Hdomain s p pass t Hs Hp Hin). left. by eapply lookup_lt_Some.
Qed.

Section ApartFacts.
Import State.

Lemma concat_take_le {A : Type} (l : list (list A)) i j :
  i ≤ j → length (concat (take i l)) ≤ length (concat (take j l)).
Proof.
  revert i j. induction l as [|x l IH]; intros i j Hij.
  - by rewrite !take_nil.
  - destruct i as [|i]; [simpl; lia|]. destruct j as [|j]; [lia|].
    simpl. rewrite !length_app. specialize (IH i j). lia.
Qed.

Lemma concat_take_all {A : Type} (l : list (list A)) i :
  length (concat (take i l)) ≤ length (concat l).
Proof.
  rewrite <-(firstn_all l) at 2.
  destruct (decide (i ≤ length l)); [by apply concat_take_le|].
  rewrite take_ge by lia. by rewrite firstn_all.
Qed.

Lemma stepsToMake_take_le (steps : list (option nat)) i j :
  i ≤ j → stepsToMake (take i steps) ≤ stepsToMake (take j steps).
Proof.
  revert i j. induction steps as [|x l IH]; intros i j Hij.
  - by rewrite !take_nil.
  - destruct i as [|i]; [unfold stepsToMake; simpl; lia|].
    destruct j as [|j]; [lia|]. specialize (IH i j).
    unfold stepsToMake in *. simpl. rewrite !filter_cons.
    destruct (decide (x = None)); simpl; lia.
Qed.

Lemma stepsToMake_take_lt (steps : list (option nat)) s s' :
  steps !! s = Some None → s < s' →
  stepsToMake (take s steps) < stepsToMake (take s' steps).
Proof.
  intros Hs Hlt.
  pose proof (stepsToMake_take_le steps (S s) s' Hlt) as Hle.
  rewrite (take_S_r _ _ _ Hs), stepsToMake_snoc in Hle. lia.
Qed.

(** The number of an attachment tells its step, its pass and its place in
  the pass. *)
Lemma colorsBefore_inj steps passes s p pass c s' p' pass' c' :
  steps !! s = Some None → steps !! s' = Some None →
  passes !! p = Some pass → passes !! p' = Some pass' →
  c < length pass → c' < length pass' →
  Laid.colorsBefore steps passes s p + c = Laid.colorsBefore steps passes s' p' + c' →
  s = s' ∧ p = p' ∧ c = c'.
Proof.
  intros Hs Hs' Hp Hp' Hc Hc'. unfold Laid.colorsBefore.
  assert (∀ q group d, passes !! q = Some group → d < length group →
            length (concat (take q passes)) + d < length (concat passes)) as Hin.
  { intros q group d Hq Hd.
    pose proof (concat_take_all passes (S q)) as Hall.
    rewrite (take_S_r _ _ _ Hq), concat_app, length_app in Hall. simpl in Hall.
    rewrite app_nil_r in Hall. lia. }
  assert (∀ q group d q' d', passes !! q = Some group → d < length group →
            q < q' →
            length (concat (take q passes)) + d <
            length (concat (take q' passes)) + d') as Hless.
  { intros q group d q' d' Hq Hd Hlt.
    pose proof (concat_take_le passes (S q) q' Hlt) as Hle.
    rewrite (take_S_r _ _ _ Hq), concat_app, length_app in Hle. simpl in Hle.
    rewrite app_nil_r in Hle. lia. }
  pose proof (Hin p pass c Hp Hc) as Hr. pose proof (Hin p' pass' c' Hp' Hc') as Hr'.
  intros Heq.
  assert (s = s') as <-.
  { destruct (Nat.lt_trichotomy s s') as [Hlt|[?|Hlt]]; [|done|].
    - pose proof (stepsToMake_take_lt steps s s' Hs Hlt). nia.
    - pose proof (stepsToMake_take_lt steps s' s Hs' Hlt). nia. }
  split; [done|].
  assert (length (concat (take p passes)) + c =
          length (concat (take p' passes)) + c') as Hrest by lia.
  assert (p = p') as <-.
  { destruct (Nat.lt_trichotomy p p') as [Hlt|[?|Hlt]]; [|done|].
    - pose proof (Hless p pass c p' c' Hp Hc Hlt). lia.
    - pose proof (Hless p' pass' c' p c Hp' Hc' Hlt). lia. }
  split; [done|lia].
Qed.

End ApartFacts.

(** X15: not merging, each texture kept is a texture of its own.  The
  textures kept for two steps, or for two textures of the maps, are two
  textures: none stands for both, so that what a step draws leaves the states
  of the other steps as they are. *)
Theorem textures_apart state made key key' tex tex' :
  State.getState state = Some made →
  State.mergeOf (State.merge state) = State.MergeOff →
  State.texturesMade (State.built made) !! key = Some tex →
  State.texturesMade (State.built made) !! key' = Some tex' →
  key ≠ key' →
  State.texture tex ≠ State.texture tex'.
Proof.
  intros Hstate Hmerge Htex Htex' Hkeys Hsame. destruct key as [s t], key' as [s' t'].
  destruct (getState_textureAt state made s t tex Hstate Htex)
    as (_ & _ & _ & _ & p & pass & c & Hs & _ & Hp & Hc & _ & _ & Htexture).
  destruct (getState_textureAt state made s' t' tex' Hstate Htex')
    as (_ & _ & _ & _ & p' & pass' & c' & Hs' & _ & Hp' & Hc' & _ & _ & Htexture').
  unfold merges in Htexture, Htexture'. rewrite Hmerge in Htexture, Htexture'.
  rewrite Htexture, Htexture' in Hsame.
  destruct (colorsBefore_inj _ _ s p pass c s' p' pass' c' Hs Hs' Hp Hp')
    as (-> & -> & ->); [by eapply lookup_lt_Some..|done|].
  apply Hkeys. f_equal. congruence.
Qed.

(** ** Properties of the state set-up: what merging adds *)

Section MergeSetUp.
Import State.

(** [getState], merging: what is added to what the steps set up. *)
Lemma getState_merged state made all next :
  getState state = Some made →
  mergeOf (State.merge state) = MergeOn all next →
  ∃ b,
    Laid.laid (State.textures (State.maps state)) true
      (stepsOf (State.steps state)) (State.passes (State.maps state))
      (length (stepsOf (State.steps state))) 0 b ∧
    colorPool (built made) = colorPool b ∧
    mergeAll made =
      (if all then None
       else Some {| channels := sizeChannelsMin made;
                    texture := length (created b);
                    entry := sizeTextures (size b);
                    step := None; color := None; pass := None; index := None;
                    map := None |}) ∧
    mergeNext made =
      (if next then None
       else Some {| passColor := ColorNone;
                    framebuffer := sizeFramebuffers (size b);
                    passEntry := sizeFramebuffers (size b);
                    passMap := None; passPass := None; passStep := None;
                    passIndex := None |}).
Proof.
  intros Hstate Hmerge. unfold getState in Hstate. rewrite Hmerge in Hstate.
  destruct (mergeChannels _ _ _ _) as [c|]; [|done]. simpl in Hstate.
  destruct (addSteps _ _ _ _ _ _ _ _) as [[out b]|] eqn:Hsteps; [|done].
  apply addSteps_laid in Hsteps as [Hlaid _].
  simpl in Hstate. exists b. split; [done|].
  destruct all, next; simpl in Hstate; injection Hstate as <-; simpl; done.
Qed.

End MergeSetUp.

(** X16: what merging adds.  Not merging, [getState] sets up no merged
  texture and no [framebuffer] to copy with.  Merging (the default), it sets
  up those not given: the texture that the states are merged into, of the
  channels of [to.size], made after the shared attachments and numbered so;
  and an empty [framebuffer], with no attachments and no pass, made after
  those of the passes and numbered so. *)
Theorem merge_set_up state made :
  State.getState state = Some made →
  let shared := length (default [] (State.colorPool (State.built made))) in
  let passes :=
    stepsToMake (State.stepsOf (State.steps state)) *
    length (State.passes (State.maps state)) in
  match State.mergeOf (State.merge state) with
  | State.MergeOff => State.mergeAll made = None ∧ State.mergeNext made = None
  | State.MergeOn all next =>
      State.mergeAll made =
        (if all then None
         else Some {| State.channels := State.sizeChannelsMin made;
                      State.texture := shared; State.entry := shared;
                      State.step := None; State.color := None;
                      State.pass := None; State.index := None;
                      State.map := None |}) ∧
      State.mergeNext made =
        (if next then None
         else Some {| State.passColor := State.ColorNone;
                      State.framebuffer := passes; State.passEntry := passes;
                      State.passMap := None; State.passPass := None;
                      State.passStep := None; State.passIndex := None |})
  end.
Proof.
  intros Hstate shared passes.
  destruct (State.mergeOf (State.merge state)) as [|all next] eqn:Hmerge.
  - unfold State.getState in Hstate. rewrite Hmerge in Hstate.
    destruct (State.addSteps _ _ _ _ _ _ _ _) as [[out b]|]; [|done].
    by injection Hstate as <-.
  - destruct (getState_merged state made all next Hstate Hmerge)
      as (b & Hlaid & Hpool & -> & ->).
    destruct Hlaid as ([Hsize Hshared] & _ & Hframebuffers & _).
    specialize (Hshared eq_refl).
    assert (length (State.created b) = shared) as Hcreated.
    { subst shared. by rewrite Hpool, Hshared, length_seq. }
    unfold Laid.passesBefore in Hframebuffers.
    rewrite firstn_all, Nat.add_0_r in Hframebuffers. fold passes in Hframebuffers.
    by rewrite Hsize, Hcreated, Hframebuffers.
Qed.

(** ** More on the update step *)

Section RunFacts.
Import Step.

(** The calls upon the passes from an index on, and the properties left. *)
Lemma onEach_calls hooks ps i stepProps calls :
  FnLists.reduceFrom (onEach hooks) i ps (stepProps, calls) =
  (match ps with
   | [] => stepProps
   | _ :: _ => atPass stepProps (i + length ps - 1)
   end,
   calls ++ mjoin (imap (λ j p,
     let passProps :=
       default (atPass stepProps (i + j))
         (onPass hooks ≫= (λ hook, hook (atPass stepProps (i + j)) p)) in
     Draw (i + j) p passProps ::
       (if mergeUpdate hooks then [Update passProps] else [])) ps)).
Proof.
  revert i stepProps calls. induction ps as [|p ps IH]; intros i stepProps calls.
  - simpl. by rewrite app_nil_r.
  - cbn [FnLists.reduceFrom]. unfold onEach at 2.
    fold (atPass stepProps i). rewrite IH. f_equal.
    + destruct ps as [|q ps]; unfold atPass; simpl; f_equal; f_equal; lia.
    + cbn [imap mjoin list_join]. rewrite Nat.add_0_r, <-!app_assoc. f_equal.
      cbn [app]. f_equal. f_equal. f_equal. apply imap_ext. intros j q _. simpl.
      by replace (i + S j) with (S (i + j)) by lia.
Qed.

Lemma run_as_calls hooks props :
  let stepProps := (stepPropsOf hooks (stepped props)).1 in
  run hooks props =
  (if (stepPropsOf hooks (stepped props)).2
   then match passes stepProps with
        | [] => stepProps
        | _ :: _ => atPass stepProps (length (passes stepProps) - 1)
        end
   else stepped props,
   mjoin (imap (λ i p,
     let passProps :=
       default (atPass stepProps i)
         (onPass hooks ≫= (λ hook, hook (atPass stepProps i) p)) in
     Draw i p passProps ::
       (if mergeUpdate hooks then [Update passProps] else []))
     (passes stepProps))).
Proof.
  intros stepProps. unfold run. fold (stepped props). subst stepProps.
  destruct (stepPropsOf hooks (stepped props)) as [stepProps same].
  unfold FnLists.reduce. rewrite onEach_calls. simpl. done.
Qed.

Lemma draws_each (update : bool) k (passProps : nat → list nat → Props) ps :
  draws (mjoin (imap (λ i p,
    Draw (k + i) p (passProps (k + i) p) ::
      (if update then [Update (passProps (k + i) p)] else [])) ps)) =
  imap (λ i p, (k + i, p)) ps.
Proof.
  revert k. induction ps as [|p ps IH]; intros k; [done|].
  cbn [imap mjoin list_join]. rewrite draws_app.
  change ((k + 0, p) :: ?l) with ([(k + 0, p)] ++ l). f_equal.
  - by destruct update.
  - trans (imap (λ i q, (S k + i, q)) ps).
    + rewrite <-(IH (S k)). do 2 f_equal. apply imap_ext. intros i q _. simpl.
      by replace (k + S i) with (S (k + i)) by lia.
    + apply imap_ext. intros i q _. simpl. f_equal. lia.
Qed.

Lemma stepPropsOf_same hooks props :
  (stepPropsOf hooks props).2 = true → (stepPropsOf hooks props).1 = props.
Proof. unfold stepPropsOf. by destruct (onStep hooks ≫= _) as [[|other]|]. Qed.

Lemma run_left hooks props :
  (run hooks props).1 =
  {| stepNow :=
       Some (match stepNow props with Some s => (s + 1)%Z | None => 0%Z end);
     passNow :=
       match onStep hooks ≫= (λ hook, hook (stepped props)), passes props with
       | Some (GivenOther _), _ | _, [] => passNow props
       | _, _ :: _ => Some (length (passes props) - 1)
       end;
     passes := passes props |}.
Proof.
  rewrite run_as_calls. cbn [fst]. unfold stepPropsOf.
  rewrite <-nextStep_increments.
  destruct (onStep hooks ≫= _) as [[|other]|]; cbn [fst snd];
    unfold stepped; simpl; by destruct (passes props).
Qed.

End RunFacts.

(** X17: the calls of a run of the step function, with any callbacks.  For
  each pass of the properties of the step, in order: the callback upon each
  pass, if any, is given these properties with the pass as the active one;
  the pass is drawn with the properties it gives, or with those it was given
  if it gives none; and the merged texture, if it has an update, is updated
  with the properties the pass was drawn with, right after the draw. *)
Theorem run_calls hooks props :
  let stepProps := (Step.stepPropsOf hooks (stepped props)).1 in
  (Step.run hooks props).2 =
  mjoin (imap (λ i p,
    let passProps :=
      default (atPass stepProps i)
        (Step.onPass hooks ≫= (λ hook, hook (atPass stepProps i) p)) in
    Step.Draw i p passProps ::
      (if Step.mergeUpdate hooks then [Step.Update passProps] else []))
    (Step.passes stepProps)).
Proof.
  intros stepProps. unfold Step.run. fold (stepped props). subst stepProps.
  destruct (Step.stepPropsOf hooks (stepped props)) as [stepProps same].
  unfold FnLists.reduce. rewrite onEach_calls. by simpl.
Qed.

(** X18: what a run of the step function leaves.  The properties given are
  left at the next step, with their passes.  The active pass is left as it
  was if there is no pass, or if a callback upon the step gave properties
  other than those it was given, as the passes are then made active in
  these; else, with no such callback, or one that gives nothing or gives
  back the properties it was given, the last pass is left as the active
  one. *)
Theorem run_leaves hooks props :
  (Step.run hooks props).1 =
  {| Step.stepNow :=
       Some (match Step.stepNow props with Some s => (s + 1)%Z | None => 0%Z end);
     Step.passNow :=
       match Step.onStep hooks ≫= (λ hook, hook (stepped props)), Step.passes props with
       | Some (Step.GivenOther _), _ | _, [] => Step.passNow props
       | _, _ :: _ => Some (length (Step.passes props) - 1)
       end;
     Step.passes := Step.passes props |}.
Proof.
  unfold Step.run. fold (stepped props). unfold Step.stepPropsOf, FnLists.reduce.
  rewrite <-nextStep_increments.
  destruct (Step.onStep hooks ≫= _) as [[|other]|]; rewrite onEach_calls;
    cbn [fst snd]; unfold stepped; simpl; by destruct (Step.passes props).
Qed.

(** X19: the step function run a number of times, with no callback upon
  each step.  The step advances by as many, from the step given, or to one
  less than as many if none was given; and each run draws each pass of the
  properties once, in order. *)
Theorem runs_draws n hooks props :
  Step.onStep hooks = None →
  Step.stepNow (runs n hooks props).1 =
    match n, Step.stepNow props with
    | 0, now => now
    | S m, Some s => Some (s + Z.of_nat n)%Z
    | S m, None => Some (Z.of_nat m)
    end ∧
  Step.passes (runs n hooks props).1 = Step.passes props ∧
  Step.draws (runs n hooks props).2 =
    mjoin (replicate n (imap (λ i p, (i, p)) (Step.passes props))).
Proof.
  intros Hstep. revert props. induction n as [|n IH]; intros props.
  - simpl. by destruct (Step.stepNow props).
  - cbn [runs]. pose proof (run_left hooks props) as Hleft.
    pose proof (run_as_calls hooks props) as Hcalls. cbv zeta in Hcalls.
    rewrite Hstep in Hleft. unfold Step.stepPropsOf in Hcalls.
    rewrite Hstep in Hcalls. cbn [mbind option_bind fst snd] in Hleft, Hcalls.
    destruct (Step.run hooks props) as [props1 calls1]. cbn [fst snd] in *.
    injection Hcalls as _ Hcalls.
    destruct (IH props1) as (Hnow & Hpasses & Hdraws).
    destruct (runs n hooks props1) as [props2 calls2]. cbn [fst snd] in *.
    subst props1. cbn [Step.stepNow Step.passes] in *.
    split; [|split; [done|]].
    + rewrite Hnow. destruct n as [|m]; destruct (Step.stepNow props) as [s|];
        f_equal; lia.
    + rewrite draws_app, Hdraws, Hcalls. cbn [replicate mjoin list_join]. f_equal.
      unfold stepped. cbn [Step.passes].
      exact (draws_each (Step.mergeUpdate hooks) 0
        (λ i p,
           default (atPass (stepped props) i)
             (Step.onPass hooks ≫= (λ hook, hook (atPass (stepped props) i) p)))
        (Step.passes props)).
Qed.

(** ** Properties of the shaders of a step *)

Section ShaderFacts.
Import Shaders Calls.

Lemma keepAt_lookup p text (kept : list (option string)) j :
  mjoin (keepAt p text kept !! j) =
  if decide (j = p) then Some text else mjoin (kept !! j).
Proof.
  unfold keepAt. destruct (decide (p < length kept)) as [Hp|Hp]; cbn beta iota.
  - destruct (decide (j = p)) as [->|Hj]; cbn beta iota.
    + by rewrite list_lookup_insert_eq.
    + by rewrite list_lookup_insert_ne.
  - destruct (decide (j < length kept)) as [Hj|Hj].
    + rewrite lookup_app_l by done. rewrite decide_False by lia. done.
    + rewrite lookup_app_r by lia. rewrite (lookup_ge_None_2 kept j) by lia.
      destruct (decide (j = p)) as [->|Hne]; cbn beta iota.
      * rewrite lookup_app_r by (rewrite length_replicate; lia).
        rewrite length_replicate, Nat.sub_diag. done.
      * destruct (decide (j < p)) as [Hlt|Hge].
        -- rewrite lookup_app_l by (rewrite length_replicate; lia).
           rewrite lookup_replicate_2 by lia. done.
        -- rewrite lookup_app_r by (rewrite length_replicate; lia).
           rewrite length_replicate.
           destruct (j - length kept - (p - length kept)) as [|n] eqn:Hn; [lia|].
           done.
Qed.

Lemma shaderOf_growing state on shader : growing (shaderOf state on shader).
Proof.
  intros k. unfold shaderOf. pose proof (macroPass_growing state on k) as Hk.
  by destruct (Macros.macroPass state on k) as [[macros|] k'].
Qed.

Lemma shaderOf_settled state on shader : settled (shaderOf state on shader).
Proof.
  intros k k' text. unfold shaderOf.
  pose proof (macroPass_settled state on k k') as Hk.
  destruct (Macros.macroPass state on k) as [[macros|] k1]; simpl; [|done].
  intros [= <-] Hkeeps. specialize (Hk macros eq_refl Hkeeps).
  destruct (Macros.macroPass state on k') as [[macros'|] k2]; simpl in *;
    [|done].
  by injection Hk as ->.
Qed.

Lemma hook_kept kept on shader props p text k :
  mjoin (kept !! p) = Some text → Macros.passNow props = Some p →
  hook (Some kept) on shader props k = (Some text, k).
Proof. intros Htext Hp. unfold hook. simpl. by rewrite Hp; simpl; rewrite Htext. Qed.

Lemma hook_made on shader props k macros :
  (Macros.macroPass props on k).1 = Some macros →
  (hook None on shader props k).1 = Some (macros +:+ shader).
Proof.
  unfold hook, shaderOf. simpl.
  destruct (Macros.macroPass props on k) as [[made|] k1]; simpl; [|done].
  by intros [= ->].
Qed.

(** A shader of a pass, processed: the one given is kept; or else the macros
  of the one made are those made at any time after. *)
Lemma process_kept state on shader p shaders k shaders' k' :
  process state on shader p shaders k = (Some shaders', k') →
  keeps k k' ∧
  match shaders with
  | None => shaders' = None
  | Some kept =>
      ∃ kept' text,
        shaders' = Some kept' ∧
        (∀ j, j ≠ p → mjoin (kept' !! j) = mjoin (kept !! j)) ∧
        mjoin (kept' !! p) = Some text ∧
        match mjoin (kept !! p) with
        | Some given => text = given
        | None =>
            ∃ macros,
              text = macros +:+ shader ∧
              ∀ k'', keeps k' k'' → (Macros.macroPass state on k'').1 = Some macros
        end
  end.
Proof.
  unfold process. destruct shaders as [kept|].
  - destruct (mjoin (kept !! p)) as [given|] eqn:Hgiven.
    + intros [= <- <-]. split; [apply keeps_refl|].
      exists kept, given. rewrite Hgiven. done.
    + unfold shaderOf.
      pose proof (macroPass_growing state on k) as Hgrowing.
      pose proof (macroPass_settled state on k) as Hsettled.
      destruct (Macros.macroPass state on k) as [[macros|] k1]; [|done].
      intros [= <- <-]. split; [done|].
      exists (keepAt p (macros +:+ shader) kept), (macros +:+ shader).
      split; [done|]. split; [|split].
      * intros j Hj. rewrite keepAt_lookup. by rewrite decide_False.
      * rewrite keepAt_lookup. by rewrite decide_True.
      * exists macros. split; [done|].
        intros k'' Hkeeps. by apply (Hsettled k'' macros).
  - intros [= <- <-]. split; [apply keeps_refl | done].
Qed.

End ShaderFacts.

Section PreprocessFacts.
Import Shaders Calls.

Lemma withPass_again state q p : withPass (withPass state q) p = withPass state p.
Proof. done. Qed.

Lemma withPass_same state : withPass state (Macros.passNow state) = state.
Proof. by destruct state. Qed.

Lemma processed_keeps state on shader i k k' given now :
  keeps k k' → processed state on shader i k given now →
  processed state on shader i k' given now.
Proof.
  intros Hkeeps. unfold processed. destruct given as [kept|]; [|done].
  intros (kept' & -> & Hrest & Hdone). exists kept'. split; [done|].
  split; [done|]. intros p Hp.
  destruct (Hdone p Hp) as (text & Htext & Hhook & Hmade).
  exists text. split; [done|]. split; [done|].
  destruct (mjoin (kept !! p)); [done|].
  destruct Hmade as (macros & -> & Hmacros). exists macros. split; [done|].
  intros k'' Hk''. apply Hmacros. by eapply keeps_trans.
Qed.

Lemma processed_next state on shader i k given now now' k' :
  processed state on shader i k given now →
  process (withPass state (Some i)) on shader i now k = (Some now', k') →
  keeps k k' ∧ processed state on shader (S i) k' given now'.
Proof.
  intros Hnow Hprocess. apply process_kept in Hprocess as [Hkeeps Hkept].
  split; [done|]. apply (processed_keeps _ _ _ _ k k' _ _ Hkeeps) in Hnow.
  unfold processed in *. destruct given as [kept|].
  - destruct Hnow as (kept1 & -> & Hrest & Hdone).
    destruct Hkept as (kept2 & text & -> & Hother & Htext & Hmade).
    exists kept2. split; [done|]. split.
    + intros p Hp. rewrite Hother by lia. apply Hrest. lia.
    + intros p Hp. destruct (decide (p = i)) as [->|Hne].
      * exists text. split; [done|]. split; [intros; by eapply hook_kept|].
        rewrite <-(Hrest i) by lia.
        destruct (mjoin (kept1 !! i)); [done|].
        destruct Hmade as (macros & -> & Hmacros). exists macros.
        split; [done|]. intros k'' Hk''. split; [by apply Hmacros|].
        apply hook_made. by apply Hmacros.
      * assert (p < i) as Hlt by lia.
        destruct (Hdone p Hlt) as (text' & Htext' & _ & Hmade').
        exists text'. rewrite Hother by done. split; [done|].
        split; [|done]. intros props k'' Hprops.
        apply (hook_kept _ _ _ _ p); [by rewrite Hother | done].
  - by subst now.
Qed.

(** The passes from an index on, pre-processed. *)
Lemma onEach_processed state vert frag verts0 frags0 ps i q verts frags k made k' :
  processed state "vert" vert i k verts0 verts →
  processed state "frag" frag i k frags0 frags →
  FnLists.reduceFrom (λ acc (_ : list nat) p, onEach vert frag acc p) i ps
    (Some (withPass state q, verts, frags), k) = (Some made, k') →
  ∃ q' verts' frags',
    made = (withPass state q', verts', frags') ∧ keeps k k' ∧
    processed state "vert" vert (i + length ps) k' verts0 verts' ∧
    processed state "frag" frag (i + length ps) k' frags0 frags'.
Proof.
  revert i q verts frags k. induction ps as [|pass ps IH];
    intros i q verts frags k Hverts Hfrags; cbn [FnLists.reduceFrom].
  - intros [= <- <-]. exists q, verts, frags. rewrite Nat.add_0_r.
    split; [done|]. split; [apply keeps_refl | done].
  - unfold onEach at 2. cbv zeta. rewrite withPass_again.
    destruct (process (withPass state (Some i)) "vert" vert i verts k)
      as [[verts1|] k1] eqn:Hvert.
    + destruct (processed_next _ _ _ _ _ _ _ _ _ Hverts Hvert) as [Hk1 Hverts1].
      destruct (process (withPass state (Some i)) "frag" frag i frags k1)
        as [[frags1|] k2] eqn:Hfrag.
      * apply (processed_keeps _ _ _ _ k k1 _ _ Hk1) in Hfrags.
        destruct (processed_next _ _ _ _ _ _ _ _ _ Hfrags Hfrag) as [Hk2 Hfrags1].
        apply (processed_keeps _ _ _ _ k1 k2 _ _ Hk2) in Hverts1.
        intros Hrest.
        destruct (IH (S i) (Some i) verts1 frags1 k2 Hverts1 Hfrags1 Hrest)
          as (q' & verts' & frags' & -> & Hk' & Hverts' & Hfrags').
        exists q', verts', frags'. split; [done|].
        split; [eauto using keeps_trans|].
        cbn [length]. replace (i + S (length ps)) with (S i + length ps) by lia.
        by split.
      * intros Hnone. exfalso. revert Hnone. clear. generalize (S i).
        induction ps as [|p ps IH]; intros j; [done|]. apply IH.
    + intros Hnone. exfalso. revert Hnone. clear. generalize (S i).
      induction ps as [|p ps IH]; intros j; [done|]. apply IH.
Qed.

Lemma processed_start state on shader k given :
  processed state on shader 0 k given given.
Proof.
  unfold processed. destruct given as [kept|]; [|done].
  exists kept. split; [done|]. split; [done|]. intros p Hp. lia.
Qed.

Lemma preprocess_processed state vert frag verts frags k state' verts' frags' k' :
  match FnLists.reduce (λ acc (_ : list nat) p, onEach vert frag acc p)
          (Macros.passes (Macros.maps state)) (Some (state, verts, frags), k) with
  | (Some (last, verts, frags), k) =>
      (Some (withPass last (Macros.passNow state), verts, frags), k)
  | (None, k) => (None, k)
  end = (Some (state', verts', frags'), k') →
  let passes := length (Macros.passes (Macros.maps state)) in
  state' = state ∧ keeps k k' ∧
  processed state "vert" vert passes k' verts verts' ∧
  processed state "frag" frag passes k' frags frags'.
Proof.
  unfold FnLists.reduce. rewrite <-(withPass_same state) at 2.
  destruct (FnLists.reduceFrom _ _ _ _) as [[made|] k1] eqn:Hfold; [|done].
  apply (onEach_processed state vert frag verts frags) in Hfold
    as (q' & verts1 & frags1 & -> & Hk & Hverts & Hfrags);
    [|apply processed_start..].
  intros [= <- <- <- <-]. rewrite withPass_again, withPass_same. done.
Qed.

End PreprocessFacts.

(** X20: the shaders pre-processed by [getStep].  Where [verts] or [frags]
  are given, and no macros throw, a shader is kept in each for each pass of
  the maps, and it is the shader that the hook of the command, which is
  handed the shaders kept, gives for any properties with this pass as the
  active one, on any cache.  It is the shader given for the pass, if one
  was; or else the macros of [macroPass] for the state with this pass as the
  active one and the shader type as the specifier, followed by the shader of
  the step: the same macros that [macroPass] makes at any time after, and so
  the shader that the hook of a command with no shaders kept makes just in
  time.  The entries past the passes are as given, the cache keeps what it
  held, and the state is left with the active pass it was given with. *)
Theorem shaders_preprocessed state vert frag verts frags k state' verts' frags' k' :
  Shaders.preprocess state vert frag verts frags k =
    (Some (state', verts', frags'), k') →
  let passes := length (Macros.passes (Macros.maps state)) in
  state' = state ∧ Calls.keeps k k' ∧
  processed state "vert" vert passes k' verts verts' ∧
  processed state "frag" frag passes k' frags frags'.
Proof.
  intros Hmade passes.
  unfold Shaders.preprocess in Hmade.
  destruct verts as [keptV|], frags as [keptF|];
    try (by apply preprocess_processed in Hmade).
  injection Hmade as <- <- <- <-.
  split; [done|]. split; [apply keeps_refl | done].
Qed.

(** ** Properties of the update of the merged texture *)

Section MergedFacts.
Import Merged.

Lemma update_lookup color p stepNow steps w h i :
  update true true (Some color) p stepNow steps w h !! i =
  (λ c, {| from := c; x := column p i w; y := row stepNow steps h |}) <$> color !! i.
Proof. unfold update. simpl. by rewrite map_as_imap, list_lookup_imap. Qed.

Lemma row_active stepNow steps h :
  (0 ≤ stepNow)%Z → 0 < steps →
  row (Some stepNow) steps h =
  Some ((stepNow `mod` Z.of_nat steps) * Z.of_nat h)%Z.
Proof.
  intros Hnow Hsteps. unfold row. simpl. rewrite decide_False by lia.
  by rewrite Z.rem_mod_nonneg by lia.
Qed.

End MergedFacts.

(** X21: where the update of the merged texture copies to.  With a merged
  texture and a [framebuffer] to copy with, at a step that is not negative,
  each attachment of the active pass is copied, in order: the attachment [i]
  to the column of the texture that the pass holds at [i], and to the row of
  the step, counted around the steps.  For a texture of the maps, the copy
  lies within the shape that the merged texture is set up with; an attachment
  past the textures of the pass has no column to go to. *)
Theorem update_within color p stepNow steps w h textures i c :
  (0 ≤ stepNow)%Z → 0 < steps → color !! i = Some c →
  let copies := Merged.update true true (Some color) p (Some stepNow) steps w h in
  let row := ((stepNow `mod` Z.of_nat steps) * Z.of_nat h)%Z in
  length copies = length color ∧
  copies !! i =
    Some {| Merged.from := c;
            Merged.x := (λ t, Z.of_nat t * Z.of_nat w)%Z <$> p !! i;
            Merged.y := Some row |} ∧
  (0 ≤ row)%Z ∧ (row + Z.of_nat h ≤ (Merged.shape textures steps w h).2)%Z ∧
  ∀ t, p !! i = Some t → t < textures →
    (0 ≤ Z.of_nat t * Z.of_nat w)%Z ∧
    (Z.of_nat t * Z.of_nat w + Z.of_nat w ≤ (Merged.shape textures steps w h).1)%Z.
Proof.
  intros Hnow Hsteps Hc copies row.
  pose proof (Z.mod_pos_bound stepNow (Z.of_nat steps)) as Hmod.
  split; [|split; [|split; [|split]]].
  - subst copies. unfold Merged.update. simpl.
    by rewrite map_as_imap, length_imap.
  - subst copies. rewrite update_lookup, Hc, row_active by done. simpl.
    unfold Merged.column. by destruct (p !! i).
  - subst row. nia.
  - subst row. unfold Merged.shape. simpl. nia.
  - intros t _ Ht. unfold Merged.shape. simpl. nia.
Qed.

(** X22: the rows of the merged texture.  The states of two steps that are
  not negative go to the same row of the merged texture just when the steps
  are as many steps apart as are kept, or a multiple of it: each step takes
  the row of the step that was drawn as many steps before it, and the rows
  of fewer steps back are left as they are. *)
Theorem update_rows stepNow stepNow' steps h :
  (0 ≤ stepNow)%Z → (0 ≤ stepNow')%Z → 0 < steps → 0 < h →
  Merged.row (Some stepNow) steps h = Merged.row (Some stepNow') steps h ↔
  (stepNow `mod` Z.of_nat steps = stepNow' `mod` Z.of_nat steps)%Z.
Proof.
  intros Hnow Hnow' Hsteps Hh. rewrite !row_active by done. split.
  - intros [= Heq]. nia.
  - by intros ->.
Qed.

(** ** The properties at work

  Each property that holds under a condition, at an input that meets it. *)

Lemma macroPass_identical_witness :
  let maps :=
    {| Macros.values := [2; 4; 1]; Macros.textures := [[1]; [0; 2]];
       Macros.passes := [[0; 1]];
       Macros.samples := Some [Some [(0, 1); (1, 1); (0, 0)]];
       Macros.reads :=
         Some [Some [Macros.ReadsOf [0]; Macros.ReadsHole;
                     Macros.ReadsOf [1; 0; 2; 0]]] |} in
  let state :=
    {| Macros.macros := Macros.HookDefault; Macros.pre := None;
       Macros.bound := None; Macros.steps := 2; Macros.count := Some 32;
       Macros.passNow := Some 0; Macros.glsl := Some 3; Macros.merge := true;
       Macros.maps := maps |} in
  let other :=
    {| Macros.macros := Macros.HookDefault; Macros.pre := Some "";
       Macros.bound := Some 2; Macros.steps := 3; Macros.count := None;
       Macros.passNow := Some 0; Macros.glsl := None; Macros.merge := false;
       Macros.maps := maps |} in
  let between := [Calls.CallTaps other ""; Calls.CallPass other "vert"] in
  ∃ text,
    (Macros.macroPass state "frag" Macros.cacheEmpty).1 = Some text ∧
    (Macros.macroPass state "frag"
       (Calls.after between
          (Macros.macroPass state "frag" Macros.cacheEmpty).2)).1 = Some text.
Proof.
  intros maps state other between. eexists. split.
  - vm_compute. reflexivity.
  - apply macroPass_identical. vm_compute. reflexivity.
Defined.

Lemma channels_assigned_witness :
  let state := documented [[0]; [1]] 1 in
  [[1]; [0; 2]] !! 1 = Some ([0] ++ 2 :: []) ∧
  Forall (λ u, is_Some ([2; 4; 1] !! u)) [0] ∧
  [2; 4; 1] !! 2 = Some 1 ∧
  String.substring (taken [2; 4; 1] [0]) 1 Macros.rgba = "b" ∧
  (∃ rest,
     Macros.macroValuesText state =
       (valueLines "" 1 0 "rgba" +:+ valueLines "" 0 1 "rg") +:+
       valueLines "" 2 1 "b" +:+ rest) ∧
  ∃ rest,
    Macros.macroOutputText state =
      Some ("#define passNow 1" +:+ Macros.nl +:+ outputLines "" 0 1 0 "rg" +:+
            outputLines "" 2 1 0 "b" +:+ rest).
Proof.
  intros state.
  assert (Forall (λ u, is_Some ([2; 4; 1] !! u)) [0]) as Hbefore
    by (repeat constructor; by eexists).
  assert (Forall (λ u, is_Some ([[1]; [0; 2]] !! u)) [1]) as Hpass
    by (repeat constructor; by eexists).
  destruct (channels_assigned state 1 [0] 2 [] 1 eq_refl Hbefore eq_refl)
    as (_ & _ & _ & _ & Hvalues & Houtput).
  split; [reflexivity|]. split; [exact Hbefore|]. split; [reflexivity|].
  split; [reflexivity|]. split; [exact Hvalues|].
  destruct (Houtput 1 [1] 0 eq_refl eq_refl eq_refl Hpass)
    as (bound & rest & Hbound & Htext).
  injection Hbound as <-. exists rest. exact Htext.
Defined.

Lemma passes_grouped_witness :
  let derives :=
    [[Maps.DeriveValue 0 2]; []; [Maps.DeriveValue 1 0; Maps.DeriveAll 0]] in
  let limits :=
    {| Maps.channelMax := Some 4; Maps.channelMin := None;
       Maps.attachMax := None; Maps.packed := true |} in
  let p :=
    {| Maps.values := [2; 4; 1];
       Maps.textures := [{| Maps.members := [1]; Maps.channels := 4 |};
                         {| Maps.members := [0; 2]; Maps.channels := 4 |}];
       Maps.passes := [[0]; [1]];
       Maps.samples := [[]; [(0, 1); (1, 1); (0, 0)]];
       Maps.reads := [[(1, [])]; [(0, [0]); (2, [1; 2; 0])]] |} in
  Maps.plan [2; 4; 1] derives limits = inr p ∧
  Forall (λ pass, length pass ≤ 1) (Maps.passes p) ∧
  concat (Maps.passes p) = [0; 1] ∧
  NoDup (concat (Maps.passes p)).
Proof.
  intros derives limits p.
  assert (Maps.plan [2; 4; 1] derives limits = inr p) as Hplan
    by (vm_compute; reflexivity).
  split; [exact Hplan|].
  exact (passes_grouped [2; 4; 1] derives limits p Hplan).
Defined.

Lemma wide_value_rejected_witness :
  let limits :=
    {| Maps.channelMax := Some 4; Maps.channelMin := None;
       Maps.attachMax := None; Maps.packed := true |} in
  [2; 5; 1] !! 1 = Some 5 ∧
  Maps.channelMaxOf limits < 5 ∧
  Maps.plan [2; 5; 1] [] limits = inl (Maps.ConfigurationError "value" 1) ∧
  ∀ p, Maps.plan [2; 5; 1] [] limits ≠ inr p.
Proof.
  intros limits.
  assert (Maps.channelMaxOf limits < 5) as Hwide by (vm_compute; lia).
  destruct (wide_value_rejected [2; 5; 1] [] limits 1 5 eq_refl Hwide)
    as [_ Hnone].
  split; [reflexivity|]. split; [exact Hwide|].
  split; [vm_compute; reflexivity | exact Hnone].
Defined.

Lemma samples_resolved_witness :
  let derives :=
    [[Maps.DeriveValue 0 2]; []; [Maps.DeriveValue 1 0; Maps.DeriveAll 0]] in
  let limits :=
    {| Maps.channelMax := Some 4; Maps.channelMin := None;
       Maps.attachMax := Some 4; Maps.packed := true |} in
  let p :=
    {| Maps.values := [2; 4; 1];
       Maps.textures := [{| Maps.members := [1]; Maps.channels := 4 |};
                         {| Maps.members := [0; 2]; Maps.channels := 4 |}];
       Maps.passes := [[0; 1]];
       Maps.samples := [[(0, 1); (1, 1); (0, 0)]];
       Maps.reads := [[(1, []); (0, [0]); (2, [1; 2; 0])]] |} in
  Maps.plan [2; 4; 1] derives limits = inr p ∧
  Maps.passes p !! 0 = Some [0; 1] ∧
  ∃ required samples reads,
    Maps.requirements (Maps.textures p) derives [0; 1] = Some required ∧
    Maps.samples p !! 0 = Some samples ∧
    Maps.reads p !! 0 = Some reads ∧
    NoDup samples ∧
    samples = firstSeen (concat required.*2) ∧
    Forall2 (λ need read,
        read.1 = need.1 ∧
        Forall2 (λ c i,
            samples !! i = Some c ∧ ∀ j, samples !! j = Some c → j = i)
          need.2 read.2)
      required reads.
Proof.
  intros derives limits p.
  assert (Maps.plan [2; 4; 1] derives limits = inr p) as Hplan
    by (vm_compute; reflexivity).
  split; [exact Hplan|]. split; [reflexivity|].
  exact (samples_resolved [2; 4; 1] derives limits p 0 [0; 1] Hplan eq_refl).
Defined.

Lemma textures_channels_witness :
  let state :=
    {| State.steps := None; State.merge := None;
       State.maps := {| State.values := Some [1; 2]; State.channelsMin := Some 1;
                        State.textures := [[0]; [1]];
                        State.passes := [[0]; [1]] |} |} in
  ∃ made tex,
    State.getState state = Some made ∧
    State.texturesMade (State.built made) !! (0, 0) = Some tex ∧
    1 ≤ State.channels tex ∧
    State.channels tex =
      1 `max` max_list (widths [1; 2] [[0]; [1]] (concat [[0]; [1]])).
Proof.
  intros state.
  destruct (State.getState state) as [made|] eqn:Hmade;
    [|vm_compute in Hmade; discriminate].
  destruct (State.texturesMade (State.built made) !! (0, 0)) as [tex|] eqn:Htex;
    [|vm_compute in Hmade; injection Hmade as <-; vm_compute in Htex; discriminate].
  exists made, tex. split; [reflexivity|]. split; [exact Htex|].
  destruct (textures_channels state made (0, 0) tex Hmade Htex)
    as (p & pass & own & _ & _ & _ & _ & _ & Hchannels & Hmin & _).
  split; [exact Hmin | exact Hchannels].
Defined.

Lemma attachments_shared_witness :
  let state :=
    {| State.steps := None; State.merge := None;
       State.maps := {| State.values := Some [1; 2; 3]; State.channelsMin := None;
                        State.textures := [[0; 1]; [2]];
                        State.passes := [[0; 1]] |} |} in
  ∃ made,
    State.getState state = Some made ∧
    State.mergeOf (State.merge state) = State.MergeOn false false ∧
    None ∈ State.stepsOf (State.steps state) ∧
    length (default [] (State.colorPool (State.built made))) = 2 ∧
    length (State.created (State.built made)) = 2 + 1 ∧
    Forall (λ c, c = 4) (State.created (State.built made)).
Proof.
  intros state.
  destruct (State.getState state) as [made|] eqn:Hmade;
    [|vm_compute in Hmade; discriminate].
  assert (None ∈ State.stepsOf (State.steps state)) as Hsteps by constructor.
  exists made. split; [reflexivity|]. split; [reflexivity|]. split; [exact Hsteps|].
  destruct (attachments_shared state made false false Hmade eq_refl Hsteps)
    as (Hpool & _ & Hcreated & _ & Hall & _).
  split; [exact Hpool|]. split; [exact Hcreated | exact Hall].
Defined.


Lemma macroPass_fresh_witness :
  let state := documented [[0; 1]] 0 in
  ∃ output samples,
    Macros.macroOutputText state = Some output ∧
    Macros.macroSamplesText state = Some samples ∧
    (Macros.macroPass state "frag" Macros.cacheEmpty).1 =
      Some (Macros.macroValuesText state +:+ output +:+ samples +:+
            tapsTextOf state).
Proof.
  intros state.
  destruct (Macros.macroOutputText state) as [output|] eqn:Houtput;
    [|vm_compute in Houtput; discriminate].
  destruct (Macros.macroSamplesText state) as [samples|] eqn:Hsamples;
    [|vm_compute in Hsamples; discriminate].
  exists output, samples. split; [reflexivity|]. split; [reflexivity|].
  pose proof (proj1 (macroPass_fresh state "frag" Macros.cacheEmpty output
                       eq_refl eq_refl eq_refl eq_refl eq_refl Houtput))
    as Hfresh.
  rewrite Hsamples in Hfresh. exact Hfresh.
Defined.

Lemma keys_tell_witness :
  let state := documented [[0; 1]] 0 in
  let state' :=
    {| Macros.macros := Macros.HookDefault; Macros.pre := Some "";
       Macros.bound := Some 2; Macros.steps := 5; Macros.count := Some 16;
       Macros.passNow := None; Macros.glsl := None; Macros.merge := true;
       Macros.maps :=
         {| Macros.values := [4; 4]; Macros.textures := [[0]; [1]];
            Macros.passes := [[0]; [1]];
            Macros.samples := Macros.samples (Macros.maps state);
            Macros.reads := Macros.reads (Macros.maps state) |} |} in
  Keys.commaFree (Macros.prefix state) = true ∧
  Keys.commaFree (Macros.prefix state') = true ∧
  Macros.macroSamplesKey state = Macros.macroSamplesKey state' ∧
  readsSet state = readsSet state' ∧
  Macros.macroSamplesText state = Macros.macroSamplesText state'.
Proof.
  intros state state'.
  assert (Macros.macroSamplesKey state = Macros.macroSamplesKey state') as Hkey
    by (vm_compute; reflexivity).
  split; [reflexivity|]. split; [reflexivity|]. split; [exact Hkey|].
  split; [reflexivity|].
  destruct (keys_tell state state' eq_refl eq_refl) as (_ & _ & Hsamples & _).
  exact (proj2 (Hsamples Hkey) eq_refl).
Defined.

Lemma cache_unseen_witness :
  let state := documented [[0; 1]] 0 in
  let other := documented [[0]; [1]] 1 in
  let calls := [Calls.CallPass other "vert"; Calls.CallTaps state ""] in
  Forall (λ c, Keys.commaFree (Macros.prefix (stateOf c)) = true ∧
               readsSet (stateOf c) = true)
    (Calls.CallPass state "frag" :: calls) ∧
  (Macros.macroPass state "frag" (Calls.after calls Macros.cacheEmpty)).1 =
    (Macros.macroPass state "frag" Macros.cacheEmpty).1.
Proof.
  intros state other calls.
  assert (Forall (λ c, Keys.commaFree (Macros.prefix (stateOf c)) = true ∧
                       readsSet (stateOf c) = true)
            (Calls.CallPass state "frag" :: calls)) as Hcalls
    by (repeat constructor).
  split; [exact Hcalls|].
  exact (cache_unseen calls (Calls.CallPass state "frag") Hcalls).
Defined.

Lemma reads_unset_kept_witness :
  let state := documented [[0; 1]] 0 in
  let state' :=
    {| Macros.macros := Macros.HookDefault; Macros.pre := Some "";
       Macros.bound := None; Macros.steps := 2; Macros.count := None;
       Macros.passNow := Some 0; Macros.glsl := None; Macros.merge := false;
       Macros.maps :=
         {| Macros.values := [2; 4; 1]; Macros.textures := [[1]; [0; 2]];
            Macros.passes := [[0; 1]];
            Macros.samples := Some [Some [(0, 1); (1, 1); (0, 0)]];
            Macros.reads :=
              Some [Some [Macros.ReadsOf [0]; Macros.ReadsNull;
                          Macros.ReadsOf [1; 0; 2; 0]]] |} |} in
  Macros.macroSamplesKey state' = Macros.macroSamplesKey state ∧
  readsSet state = true ∧ readsSet state' = false ∧
  (Macros.macroSamples state' "" Macros.cacheEmpty).1 = None ∧
  is_Some (Macros.macroSamples state' ""
             (Macros.macroSamples state "" Macros.cacheEmpty).2).1.
Proof.
  intros state state'.
  assert (Macros.macroSamplesKey state' = Macros.macroSamplesKey state) as Hkey
    by (vm_compute; reflexivity).
  destruct (reads_unset_kept state state' "" "" Macros.cacheEmpty
              eq_refl eq_refl Hkey eq_refl eq_refl eq_refl)
    as (Hthrown & text & _ & _ & Hkept).
  split; [exact Hkey|]. split; [reflexivity|]. split; [reflexivity|].
  split; [exact Hthrown|]. exists text. exact Hkept.
Defined.

Lemma channels_cut_witness :
  Forall (λ u, is_Some ([3; 2] !! u)) [0] ∧
  [3; 2] !! 1 = Some 2 ∧
  [[0; 1]] !! 0 = Some ([0] ++ 1 :: []) ∧
  String.substring (taken [3; 2] [0]) 2 Macros.rgba = "a" ∧
  String.length (String.substring (taken [3; 2] [0]) 2 Macros.rgba) =
    2 `min` (4 - taken [3; 2] [0]) ∧
  Macros.textureMacros "" [3; 2] "" ([0] ++ 1 :: []) 0 =
    Macros.textureMacros "" [3; 2] "" [0] 0 +:+ valueLines "" 1 0 "a".
Proof.
  assert (Forall (λ u, is_Some ([3; 2] !! u)) [0]) as Hbefore
    by (repeat constructor; by eexists).
  destruct (channels_cut "" [3; 2] [[0; 1]] 0 0 "" [0] 1 [] 2
              Hbefore eq_refl eq_refl) as (Hlength & _ & Hvalues & _).
  split; [exact Hbefore|]. split; [reflexivity|]. split; [reflexivity|].
  split; [reflexivity|]. split; [exact Hlength | exact Hvalues].
Defined.

Lemma channels_undeclared_witness :
  [2] !! 5 = None ∧
  [[0; 5; 0]] !! 0 = Some ([0] ++ 5 :: [0]) ∧
  Macros.textureMacros "" [2] "" ([0] ++ 5 :: [0]) 0 =
    Macros.textureMacros "" [2] "" [0] 0 +:+
    linesOf (λ u, valueLines "" u 0 "") [5; 0].
Proof.
  split; [reflexivity|]. split; [reflexivity|].
  exact (proj1 (channels_undeclared "" [2] [[0; 5; 0]] 0 0 "" [0] 5 [0]
                  eq_refl eq_refl)).
Defined.

Lemma taps_by_count_witness :
  let state := documented [[0; 1]] 0 in
  let state' :=
    {| Macros.macros := Macros.HookDefault; Macros.pre := Some "";
       Macros.bound := Some 2; Macros.steps := 5; Macros.count := Some 16;
       Macros.passNow := Some 1; Macros.glsl := None; Macros.merge := false;
       Macros.maps :=
         {| Macros.values := [4]; Macros.textures := [[0]];
            Macros.passes := [[0]];
            Macros.samples := Some [None; Some [(1, 0); (0, 0); (2, 0)]];
            Macros.reads := None |} |} in
  length (default [] (Macros.passSamplesOf state)) =
    length (default [] (Macros.passSamplesOf state')) ∧
  Macros.passSamplesOf state ≠ Macros.passSamplesOf state' ∧
  (Macros.macroTaps state "frag" Macros.cacheEmpty).1 =
  (Macros.macroTaps state' "" Macros.cacheEmpty).1.
Proof.
  intros state state'. split; [reflexivity|].
  split; [intros H; vm_compute in H; discriminate H|].
  exact (taps_by_count state state' "frag" "" eq_refl eq_refl eq_refl eq_refl
           eq_refl eq_refl).
Defined.

Lemma index_macro_picks_witness :
  [Macros.Num 7; Macros.Num 8; Macros.Num 9] ≠ [] ∧
  showPick "reads" (picks 2) =
    "((i == 2)? reads_2 : ((i == 1)? reads_1 : reads_0))" ∧
  pick (picks 2) 1 = 1 ∧ pick (picks 2) 5 = 0.
Proof.
  assert ([Macros.Num 7; Macros.Num 8; Macros.Num 9] ≠ []) as Ha
    by (intros H; discriminate H).
  destruct (index_macro_picks "int" "reads"
              [Macros.Num 7; Macros.Num 8; Macros.Num 9] "const" "int" Ha)
    as [_ Hpick].
  split; [exact Ha|]. split; [reflexivity|].
  split; [exact (Hpick 1) | exact (Hpick 5)].
Defined.

Lemma getState_defined_witness :
  let state :=
    {| State.steps := None; State.merge := None;
       State.maps := {| State.values := Some [2; 4; 1]; State.channelsMin := None;
                        State.textures := [[1]; [0; 2]];
                        State.passes := [[0]; [1]] |} |} in
  complete [2; 4; 1] [[1]; [0; 2]] [0; 1] ∧
  is_Some (State.getState state).
Proof.
  intros state.
  assert (complete [2; 4; 1] [[1]; [0; 2]] [0; 1]) as Hmaps.
  { repeat constructor; eexists; (split; [reflexivity|]);
      repeat constructor; by eexists. }
  split; [exact Hmaps|].
  exact (getState_defined state (or_introl Hmaps)).
Defined.

Lemma sizes_counted_witness :
  let state :=
    {| State.steps := Some (State.StepsList [None; Some 7; None]);
       State.merge := Some State.MergeOff;
       State.maps := {| State.values := Some [1; 2; 3]; State.channelsMin := None;
                        State.textures := [[0; 1]; [2]];
                        State.passes := [[0; 1]; [1]] |} |} in
  ∃ made,
    State.getState state = Some made ∧
    State.sizeSteps made = 3 ∧
    State.sizePasses (State.size (State.built made)) = 2 * 2 ∧
    State.sizeColors (State.size (State.built made)) = 2 * 3 ∧
    State.sizeFramebuffers (State.size (State.built made)) = 2 * 2 + 0 ∧
    State.sizeTextures (State.size (State.built made)) = 2 * 3.
Proof.
  intros state.
  destruct (State.getState state) as [made|] eqn:Hmade;
    [|vm_compute in Hmade; discriminate].
  exists made. split; [reflexivity|].
  destruct (sizes_counted state made Hmade)
    as (Hsteps & Hpasses & Hcolors & Hframebuffers & Htextures).
  split; [exact Hsteps|]. split; [exact Hpasses|]. split; [exact Hcolors|].
  split; [exact Hframebuffers|]. exact (proj1 (Htextures eq_refl)).
Defined.

Lemma steps_set_up_witness :
  let state :=
    {| State.steps := Some (State.StepsList [None; Some 7; None]);
       State.merge := None;
       State.maps := {| State.values := Some [1; 2; 3]; State.channelsMin := None;
                        State.textures := [[0; 1]; [2]];
                        State.passes := [[0; 1]; [1]] |} |} in
  ∃ made,
    State.getState state = Some made ∧
    State.stepsMade made =
      [State.StepMade [0; 1]; State.StepGiven 7; State.StepMade [2; 3]].
Proof.
  intros state.
  destruct (State.getState state) as [made|] eqn:Hmade;
    [|vm_compute in Hmade; discriminate].
  exists made. split; [reflexivity|].
  exact (steps_set_up state made Hmade).
Defined.

Lemma passes_set_up_witness :
  let state :=
    {| State.steps := Some (State.StepsList [None; Some 7; None]);
       State.merge := Some State.MergeOff;
       State.maps := {| State.values := Some [1; 2; 3]; State.channelsMin := None;
                        State.textures := [[0; 1]; [2]];
                        State.passes := [[0; 1]; [1]] |} |} in
  ∃ made,
    State.getState state = Some made ∧
    State.passesMade (State.built made) !! (2, 1) =
      Some {| State.passColor := State.ColorOwn [5];
              State.framebuffer := 3; State.passEntry := 3;
              State.passMap := Some [1]; State.passPass := Some 3;
              State.passStep := Some 2; State.passIndex := Some 1 |} ∧
    State.passesMade (State.built made) !! (1, 0) = None.
Proof.
  intros state.
  destruct (State.getState state) as [made|] eqn:Hmade;
    [|vm_compute in Hmade; discriminate].
  exists made. split; [reflexivity|].
  split; [exact (proj1 (passes_set_up state made 2 1 Hmade)) |
          exact (proj1 (passes_set_up state made 1 0 Hmade))].
Defined.

Lemma textures_set_up_witness :
  let state :=
    {| State.steps := Some (State.StepsList [None; Some 7; None]);
       State.merge := None;
       State.maps := {| State.values := Some [1; 2; 3]; State.channelsMin := None;
                        State.textures := [[0; 1]; [2]];
                        State.passes := [[0; 1]; [1]] |} |} in
  ∃ made,
    State.getState state = Some made ∧
    (is_Some (State.texturesMade (State.built made) !! (2, 1)) ↔
       State.stepsOf (State.steps state) !! 2 = Some None ∧
       1 ∈ concat (State.passes (State.maps state))).
Proof.
  intros state.
  destruct (State.getState state) as [made|] eqn:Hmade;
    [|vm_compute in Hmade; discriminate].
  exists made. split; [reflexivity|].
  exact (proj1 (textures_set_up state made 2 1 Hmade)).
Defined.

Lemma textures_apart_witness :
  let state :=
    {| State.steps := None; State.merge := Some State.MergeOff;
       State.maps := {| State.values := Some [1; 2; 3]; State.channelsMin := None;
                        State.textures := [[0; 1]; [2]];
                        State.passes := [[0; 1]] |} |} in
  ∃ made tex tex',
    State.getState state = Some made ∧
    State.mergeOf (State.merge state) = State.MergeOff ∧
    State.texturesMade (State.built made) !! (0, 1) = Some tex ∧
    State.texturesMade (State.built made) !! (1, 1) = Some tex' ∧
    (0, 1) ≠ (1, 1) ∧
    State.texture tex ≠ State.texture tex'.
Proof.
  intros state.
  destruct (State.getState state) as [made|] eqn:Hmade;
    [|vm_compute in Hmade; discriminate].
  destruct (State.texturesMade (State.built made) !! (0, 1)) as [tex|] eqn:Htex;
    [|vm_compute in Hmade; injection Hmade as <-; vm_compute in Htex; discriminate].
  destruct (State.texturesMade (State.built made) !! (1, 1)) as [tex'|] eqn:Htex';
    [|vm_compute in Hmade; injection Hmade as <-; vm_compute in Htex'; discriminate].
  assert ((0, 1) ≠ (1, 1)) as Hkeys by (intros H; discriminate H).
  exists made, tex, tex'. split; [reflexivity|]. split; [reflexivity|].
  split; [exact Htex|]. split; [exact Htex'|]. split; [exact Hkeys|].
  exact (textures_apart state made (0, 1) (1, 1) tex tex' Hmade eq_refl
           Htex Htex' Hkeys).
Defined.

Lemma merge_set_up_witness :
  let state :=
    {| State.steps := None; State.merge := Some (State.MergeOn false false);
       State.maps := {| State.values := Some [1; 2; 3]; State.channelsMin := None;
                        State.textures := [[0; 1]; [2]];
                        State.passes := [[0; 1]; [1]] |} |} in
  ∃ made,
    State.getState state = Some made ∧
    State.mergeAll made =
      Some {| State.channels := 4; State.texture := 2; State.entry := 2;
              State.step := None; State.color := None; State.pass := None;
              State.index := None; State.map := None |} ∧
    State.mergeNext made =
      Some {| State.passColor := State.ColorNone;
              State.framebuffer := 4; State.passEntry := 4;
              State.passMap := None; State.passPass := None;
              State.passStep := None; State.passIndex := None |}.
Proof.
  intros state.
  destruct (State.getState state) as [made|] eqn:Hmade;
    [|vm_compute in Hmade; discriminate].
  exists made. split; [reflexivity|].
  pose proof (merge_set_up state made Hmade) as Hmerge.
  vm_compute in Hmade. injection Hmade as <-. exact Hmerge.
Defined.

Lemma run_leaves_witness :
  let hooks :=
    {| Step.onStep := Some (λ _, Some Step.GivenSame); Step.onPass := None;
       Step.mergeUpdate := false |} in
  let other :=
    {| Step.onStep :=
         Some (λ _, Some (Step.GivenOther
                            {| Step.stepNow := None; Step.passNow := None;
                               Step.passes := [[0]] |}));
       Step.onPass := None; Step.mergeUpdate := false |} in
  let props :=
    {| Step.stepNow := None; Step.passNow := None; Step.passes := [[0]; [1]] |} in
  (Step.run hooks props).1 =
    {| Step.stepNow := Some 0%Z; Step.passNow := Some 1;
       Step.passes := [[0]; [1]] |} ∧
  (Step.run other props).1 =
    {| Step.stepNow := Some 0%Z; Step.passNow := None;
       Step.passes := [[0]; [1]] |}.
Proof.
  intros hooks other props.
  split; [exact (run_leaves hooks props) | exact (run_leaves other props)].
Defined.

Lemma runs_draws_witness :
  let hooks :=
    {| Step.onStep := None; Step.onPass := None; Step.mergeUpdate := true |} in
  let props :=
    {| Step.stepNow := None; Step.passNow := None; Step.passes := [[0]; [1]] |} in
  Step.onStep hooks = None ∧
  Step.stepNow (runs 3 hooks props).1 = Some 2%Z ∧
  Step.draws (runs 3 hooks props).2 =
    [(0, [0]); (1, [1]); (0, [0]); (1, [1]); (0, [0]); (1, [1])].
Proof.
  intros hooks props. split; [reflexivity|].
  destruct (runs_draws 3 hooks props eq_refl) as (Hnow & _ & Hdraws).
  split; [exact Hnow | exact Hdraws].
Defined.

Lemma shaders_preprocessed_witness :
  let state := documented [[0]; [1]] 1 in
  let shader :=
    valueLines "" 1 0 "rgba" +:+ valueLines "" 0 1 "rg" +:+
    valueLines "" 2 1 "b" +:+
    "#define textures 2" +:+ Macros.nl +:+
    "#define passes 2" +:+ Macros.nl +:+
    "#define stepsPast 1" +:+ Macros.nl +:+
    "#define steps 2" +:+ Macros.nl +:+
    "#define bound 1" +:+ Macros.nl +:+ Macros.nl +:+
    "#define passNow 1" +:+ Macros.nl +:+
    outputLines "" 0 1 0 "rg" +:+ outputLines "" 2 1 0 "b" +:+ Macros.nl +:+
    "void main() {}" in
  ∃ state' verts' frags' k',
    Shaders.preprocess state "void main() {}" "" (Some []) None Macros.cacheEmpty =
      (Some (state', verts', frags'), k') ∧
    state' = state ∧ frags' = None ∧
    processed state "vert" "void main() {}" 2 k' (Some []) verts' ∧
    mjoin (default [] verts' !! 1) = Some shader ∧
    ∀ cache,
      Shaders.hook verts' "vert" "void main() {}"
        (Shaders.withPass state (Some 1)) cache = (Some shader, cache).
Proof.
  intros state shader.
  destruct (Shaders.preprocess state "void main() {}" "" (Some []) None
              Macros.cacheEmpty) as [[[[state' verts'] frags']|] k'] eqn:Hmade;
    [|vm_compute in Hmade; discriminate].
  exists state', verts', frags', k'. split; [reflexivity|].
  destruct (shaders_preprocessed state "void main() {}" "" (Some []) None
              Macros.cacheEmpty state' verts' frags' k' Hmade)
    as (Hstate & _ & Hverts & Hfrags).
  split; [exact Hstate|]. split; [exact Hfrags|]. split; [exact Hverts|].
  destruct Hverts as (kept' & -> & _ & Hdone).
  destruct (Hdone 1 (le_n 2)) as (text & Htext & Hhook & macros & -> & Hmacros).
  assert (macros +:+ "void main() {}" = shader) as <-.
  { destruct (Hmacros k' (λ c text H, H)) as [Hpass _].
    vm_compute in Hmade. injection Hmade as _ _ _ <-.
    vm_compute in Hpass. injection Hpass as <-. vm_compute. reflexivity. }
  split; [exact Htext|]. intros cache. by apply Hhook.
Defined.

Lemma update_within_witness :
  (0 ≤ 5)%Z ∧ 0 < 2 ∧ [0; 1] !! 0 = Some 0 ∧
  Merged.update true true (Some [0; 1]) [1; 0] (Some 5%Z) 2 4 3 !! 0 =
    Some {| Merged.from := 0; Merged.x := Some 4%Z; Merged.y := Some 3%Z |} ∧
  (3 + 3 ≤ (Merged.shape 2 2 4 3).2)%Z.
Proof.
  assert (0 ≤ 5)%Z as Hnow by lia. assert (0 < 2) as Hsteps by lia.
  destruct (update_within [0; 1] [1; 0] 5 2 4 3 2 0 0 Hnow Hsteps eq_refl)
    as (_ & Hcopy & _ & Hrow & _).
  split; [exact Hnow|]. split; [exact Hsteps|]. split; [reflexivity|].
  split; [exact Hcopy | exact Hrow].
Defined.

Lemma update_rows_witness :
  (0 ≤ 1)%Z ∧ (0 ≤ 3)%Z ∧ 0 < 2 ∧ 0 < 3 ∧
  Merged.row (Some 1%Z) 2 3 = Merged.row (Some 3%Z) 2 3.
Proof.
  assert (0 ≤ 1)%Z as Hnow by lia. assert (0 ≤ 3)%Z as Hnow' by lia.
  assert (0 < 2) as Hsteps by lia. assert (0 < 3) as Hh by lia.
  do 4 (split; [assumption|]).
  apply (update_rows 1 3 2 3 Hnow Hnow' Hsteps Hh). reflexivity.
Defined.

(** ** The examples of the documentation

  The embedding gives what the examples in the documentation of the source
  give. *)

Section Documented.
Import Macros.

(** The examples of [hasMacros]. *)
Example hasMacros_documented :
  let hooked := HookObject (λ key,
    if decide (key = "a") then Some (HookString ("//A" +:+ nl))
    else if decide (key = "b") then Some (HookFunction (λ _ _, Some ("//B" +:+ nl)))
    else None) in
  let onShader := HookObject (λ key,
    if decide (key = "frag") then Some HookFalsy
    else if decide (key = "a_vert") then Some HookFalsy
    else None) in
  hasMacros "" "" HookDefault = None ∧
  hasMacros "" "" HookFalsy = Some "" ∧
  hasMacros "a" "" hooked = Some ("//A" +:+ nl) ∧
  hasMacros "b" "" hooked = Some ("//B" +:+ nl) ∧
  hasMacros "" "frag" onShader = Some "" ∧
  hasMacros "" "vert" onShader = None ∧
  hasMacros "a" "vert" onShader = Some "".
Proof. by vm_compute. Qed.

(** The examples of [getGLSLList]: an array, and a constant list in [GLSL1]. *)
Example getGLSLList_documented :
  getGLSLList "int" "test" [Num 0; Num 1] "" None =
    "const int test_l = 2;" +:+ cr +:+
    "int test_0 = int(0);" +:+ cr +:+
    "int test_1 = int(1);" +:+ cr +:+
    "int test[test_l];" +:+ cr +:+
    "test[0] = test_0;" +:+ cr +:+
    "test[1] = test_1;" +:+ nl +:+
    "#define test_i(i) test[i]" +:+ nl ∧
  getGLSLList "int" "listLike" [Num 0; Num 1] "const" (Some 1) =
    "const int listLike_l = 2;" +:+ cr +:+
    "const int listLike_0 = int(0);" +:+ cr +:+
    "const int listLike_1 = int(1);" +:+ nl +:+
    "// Index macro `listLike_i` (e.g: `listLike_i(0)`) may be slow, " +:+
      "use name (e.g: `listLike_0`) if possible." +:+ nl +:+
    "#define listLike_i(i) ((i == 1)? listLike_1 : listLike_0)" +:+ nl.
Proof. by vm_compute. Qed.

(** The examples of [macroOutput]: the next pass with 1 texture bound per
  pass, and the one pass with 4. *)
Example macroOutput_documented :
  (macroOutput (documented [[0]; [1]] 1) "" cacheEmpty).1 =
    Some ("#define passNow 1" +:+ nl +:+
          nl +:+
          "#define bound_0 1" +:+ nl +:+
          "#define attach_0 0" +:+ nl +:+
          "#define output_0 gl_FragData[attach_0].rg" +:+ nl +:+
          nl +:+
          "#define bound_2 1" +:+ nl +:+
          "#define attach_2 0" +:+ nl +:+
          "#define output_2 gl_FragData[attach_2].b" +:+ nl +:+
          nl) ∧
  (macroOutput (documented [[0; 1]] 0) "" cacheEmpty).1 =
    Some ("#define passNow 0" +:+ nl +:+
          nl +:+
          "#define bound_1 0" +:+ nl +:+
          "#define attach_1 0" +:+ nl +:+
          "#define output_1 gl_FragData[attach_1].rgba" +:+ nl +:+
          nl +:+
          "#define bound_0 1" +:+ nl +:+
          "#define attach_0 1" +:+ nl +:+
          "#define output_0 gl_FragData[attach_0].rg" +:+ nl +:+
          nl +:+
          "#define bound_2 1" +:+ nl +:+
          "#define attach_2 1" +:+ nl +:+
          "#define output_2 gl_FragData[attach_2].b" +:+ nl +:+
          nl).
Proof. by vm_compute. Qed.

(** The last example of [macroSamples]. *)
Example macroSamples_documented :
  (macroSamples (documented [[0; 1]] 0) "" cacheEmpty).1 =
    Some ("#define useSamples" +:+ cr +:+
            "const int samples_l = 3;" +:+ cr +:+
            "const ivec2 samples_0 = ivec2(0, 1);" +:+ cr +:+
            "const ivec2 samples_1 = ivec2(1, 1);" +:+ cr +:+
            "const ivec2 samples_2 = ivec2(0, 0);" +:+ nl +:+
          "// Index macro `samples_i` (e.g: `samples_i(0)`) may be slow, " +:+
            "use name (e.g: `samples_0`) if possible." +:+ nl +:+
          "#define samples_i(i) " +:+
            "((i == 2)? samples_2 : ((i == 1)? samples_1 : samples_0))" +:+ nl +:+
          nl +:+
          "#define useReads_0" +:+ cr +:+
            "const int reads_0_l = 1;" +:+ cr +:+
            "const int reads_0_0 = int(0);" +:+ nl +:+
          "// Index macro `reads_0_i` (e.g: `reads_0_i(0)`) may be slow, " +:+
            "use name (e.g: `reads_0_0`) if possible." +:+ nl +:+
          "#define reads_0_i(i) reads_0_0" +:+ nl +:+
          nl +:+
          "#define useReads_2" +:+ cr +:+
            "const int reads_2_l = 4;" +:+ cr +:+
            "const int reads_2_0 = int(1);" +:+ cr +:+
            "const int reads_2_1 = int(0);" +:+ cr +:+
            "const int reads_2_2 = int(2);" +:+ cr +:+
            "const int reads_2_3 = int(0);" +:+ nl +:+
          "// Index macro `reads_2_i` (e.g: `reads_2_i(0)`) may be slow, " +:+
            "use name (e.g: `reads_2_0`) if possible." +:+ nl +:+
          "#define reads_2_i(i) ((i == 3)? reads_2_3 : ((i == 2)? reads_2_2 " +:+
            ": ((i == 1)? reads_2_1 : reads_2_0)))" +:+ nl +:+
          nl).
Proof. by vm_compute. Qed.

End Documented.

(** The first example of [getState], with 4 buffers and no merging: one pass
  of two textures in each of the two steps, and four textures made, of 4
  channels each. *)
Example getState_documented :
  let state :=
    {| State.steps := Some (State.StepsCount 2);
       State.merge := Some State.MergeOff;
       State.maps := {| State.values := Some [1; 2; 3];
                        State.channelsMin := None;
                        State.textures := [[0; 1]; [2]];
                        State.passes := [[0; 1]] |} |} in
  (λ made,
     (State.size (State.built made), State.stepsMade made,
      State.created (State.built made),
      (λ made, (State.entry made, State.map made)) <$>
        (State.texturesMade (State.built made) !! (1, 1)),
      (λ made, (State.passEntry made, State.passColor made)) <$>
        (State.passesMade (State.built made) !! (1, 0))))
    <$> State.getState state =
  Some ({| State.sizePasses := 2; State.sizeFramebuffers := 2;
           State.sizeTextures := 4; State.sizeColors := 4 |},
        [State.StepMade [0]; State.StepMade [1]],
        [4; 4; 4; 4],
        Some (3, Some [2]),
        Some (1, State.ColorOwn [2; 3])).
Proof. by vm_compute. Qed.

(** The samples that the planner as modelled resolves are those of the
  examples of [macroSamples]: with the values [[2, 4, 1]] each in its own
  texture and pass, and packed with 4 textures bound per pass. *)
Example samples_documented :
  let derives :=
    [[Maps.DeriveValue 0 2]; []; [Maps.DeriveValue 1 0; Maps.DeriveAll 0]] in
  sum_map id (λ p, (Maps.members <$> Maps.textures p, Maps.passes p,
                    Maps.samples p))
    (Maps.plan [2; 4; 1] derives
       {| Maps.channelMax := Some 4; Maps.channelMin := None;
          Maps.attachMax := Some 1; Maps.packed := false |}) =
    inr ([[0]; [1]; [2]], [[0]; [1]; [2]],
         [[(0, 2)]; []; [(1, 0); (0, 0); (0, 1); (0, 2)]]) ∧
  sum_map id (λ p, (Maps.members <$> Maps.textures p, Maps.passes p,
                    Maps.samples p))
    (Maps.plan [2; 4; 1] derives
       {| Maps.channelMax := Some 4; Maps.channelMin := None;
          Maps.attachMax := Some 4; Maps.packed := true |}) =
    inr ([[1]; [0; 2]], [[0; 1]], [[(0, 1); (1, 1); (0, 0)]]).
Proof. by vm_compute. Qed.
